(** * Lexical statistics and cross-document comparison ([src/analyze.py])

    A shallow embedding of the [TextAnalyzer] class and of the all-pairs
    loop of [analyze_all_texts], followed by the properties of the
    specification that concern them; then the code around them: the
    preprocessing that feeds the analyzer ([src/preprocess.py]),
    [analyze_all_texts] as a whole, and the comparisons, the network and the
    metadata of [src/generate.py], with properties read off that code.

    Conventions of the embedding:
    - a Python [str] is a [string], one [ascii] per character (code points
      below 256); [len], [==], [<] and hashing then coincide with Python's;
    - a Python [int] is a [Z];
    - a Python [float] is an IEEE-754 binary64 value, [spec_float] with
      precision 53 and maximal exponent 1024, operated on by the reference
      implementation of the Standard Library ([SpecFloat]);
    - a Python [set] of strings is a [gset string]; the order in which the
      interpreter iterates over a set depends on the per-process hash seed
      and is a parameter ([hash_order]);
    - a Python [dict] whose iteration order matters is an association list in
      insertion order; a [dict] with a fixed key set is a record; a [dict]
      whose key set varies is a [gmap];
    - a call that can raise returns in the [res] monad;
    - NumPy and NLTK are interfaces ([Numpy], [Nltk]); the files of
      [data/processed] are a list of pairs of a name (the stem of the path)
      and a content. *)

From Stdlib Require Import ZArith Lia Floats.SpecFloat.
From stdpp Require Import gmap strings list sorting pretty.

Local Open Scope Z_scope.

(** ** The Python runtime, as far as [analyze.py] uses it *)

Module Py.

Inductive exn : Set :=
| ZeroDivisionError
| KeyError (key : string)
| ValueError.

Inductive res (A : Type) : Type :=
| Ok (a : A)
| Raise (e : exn).
Arguments Ok {A} a.
Arguments Raise {A} e.

#[global] Instance res_ret : MRet res := @Ok.
#[global] Instance res_bind : MBind res := λ A B f m,
  match m with Ok a => f a | Raise e => Raise e end.
#[global] Instance res_fmap : FMap res := λ A B f m,
  match m with Ok a => Ok (f a) | Raise e => Raise e end.

Definition returns {A} (m : res A) : Prop := ∃ a, m = Ok a.

(** [len] of a list, as a Python integer. *)
Definition len {A} (l : list A) : Z := Z.of_nat (length l).

(** [min(l)] and [max(l)] on a list of integers. *)
Definition list_min (l : list Z) : res Z :=
  match l with
  | [] => Raise ValueError
  | x :: l' => Ok (foldl Z.min x l')
  end.

Definition list_max (l : list Z) : res Z :=
  match l with
  | [] => Raise ValueError
  | x :: l' => Ok (foldl Z.max x l')
  end.

(** *** Floating point: binary64 *)

Abbreviation float := spec_float.

Definition prec : Z := 53.
Definition emax : Z := 1024.

(** [float(z)]: the conversion is exact for [|z| < 2^53] and rounds to
    nearest-even beyond. *)
Definition float_of_int (z : Z) : float := binary_normalize prec emax z 0 false.

Definition float_div (x y : float) : float := SFdiv prec emax x y.
Definition float_mul (x y : float) : float := SFmul prec emax x y.
Definition float_lt (x y : float) : bool := SFltb x y.
Definition float_le (x y : float) : bool := SFleb x y.

(** The literal [d / 10^scale] written in decimal, e.g. [0.72] is
    [float_lit 72 2]: the binary64 value nearest to it. *)
Definition float_lit (d : Z) (scale : nat) : float :=
  float_div (float_of_int d) (float_of_int (10 ^ Z.of_nat scale)).

Definition float_zero : float := S754_zero false.
Definition float_one : float := Eval vm_compute in float_of_int 1.

(** [a / b] on integers: true division. The quotient is correctly rounded;
    the model is exact whenever both operands are below [2^53] in magnitude,
    which every [len(...)] is. *)
Definition int_truediv (a b : Z) : res float :=
  if decide (b = 0) then Raise ZeroDivisionError
  else Ok (float_div (float_of_int a) (float_of_int b)).

(** [x * n] with [x] a float and [n] an integer. *)
Definition float_mul_int (x : float) (n : Z) : float := float_mul x (float_of_int n).

(** Nearest integer to [n / d] for [0 < d], halves to the even neighbour. *)
Definition round_half_even (n d : Z) : Z :=
  let q := n / d in
  match 2 * (n mod d) ?= d with
  | Lt => q
  | Eq => if Z.even q then q else q + 1
  | Gt => q + 1
  end.

(** [round(x, ndigits)] on a float, [0 <= ndigits]: the exact binary value of
    [x] is rounded half-even to [ndigits] decimals and the decimal result
    is read back as the nearest binary64 ([float.__round__]: correctly
    rounded both ways); zeros, infinities and NaN are returned as they are.
    The model is exact whenever [|x| * 10^ndigits < 2^53], which holds for
    every ratio, percentage and MTLD value of a text below [10^13] tokens. *)
Definition float_round (x : float) (ndigits : nat) : float :=
  match x with
  | S754_finite s m e =>
      let p := 10 ^ Z.of_nat ndigits in
      let k := match e with
               | Zneg e' => round_half_even (Zpos m * p) (2 ^ Zpos e')
               | _ => Zpos m * 2 ^ e * p
               end in
      if decide (k = 0) then S754_zero s
      else let r := float_div (float_of_int k) (float_of_int p) in
           if s then SFopp r else r
  | _ => x
  end.

(** A Python number: [int] or [float]. *)
Inductive num : Set :=
| Int (z : Z)
| Float (f : float).

(** [round(v, ndigits)], [0 <= ndigits]: an [int] is returned unchanged. *)
Definition round (v : num) (ndigits : nat) : num :=
  match v with
  | Int z => Int z
  | Float f => Float (float_round f ndigits)
  end.

(** *** Sets and their iteration order *)

(** The order in which one run of the interpreter enumerates a set: some
    enumeration of its elements, fixed by the hash seed of the process. *)
Record hash_order : Type := HashOrder {
  set_iter :> gset string → list string;
  set_iter_perm : ∀ X, set_iter X ≡ₚ elements X
}.

(** [set(l)] *)
Definition set (l : list string) : gset string := list_to_set l.

(** [len(s)] for a set. *)
Definition set_len (X : gset string) : Z := Z.of_nat (size X).

(** *** [sorted] *)

(** [sorted] only compares with [<] and is stable. [before y x] says that
    [y] must precede [x]; [x], which comes first in the input, is put in
    front of the first element that need not precede it. *)
Fixpoint insert_sorted {A} (before : A → A → bool) (x : A) (l : list A) : list A :=
  match l with
  | [] => [x]
  | y :: l' => if before y x then y :: insert_sorted before x l' else x :: y :: l'
  end.

Definition sorted_with {A} (before : A → A → bool) (l : list A) : list A :=
  foldr (insert_sorted before) [] l.

(** [sorted(l)] on strings. *)
Definition sorted (l : list string) : list string := sorted_with String.ltb l.

(** [sorted(l, key=key, reverse=True)]: descending keys, equal keys in
    their original order. *)
Definition sorted_by_key_desc {A} (key : A → Z) (l : list A) : list A :=
  sorted_with (λ y x, key x <? key y) l.

(** The order that [sorted(l, key=key, reverse=True)] realises on a list
    whose elements are in the order [R0]: descending keys, and [R0] among
    equal keys. *)
Definition key_desc_then {A} (key : A → Z) (R0 : relation A) (x y : A) : Prop :=
  key y < key x ∨ (key x = key y ∧ R0 x y).

(** [l[:n]] for [n >= 0]. *)
Definition slice_to {A} (n : nat) (l : list A) : list A := take n l.

(** *** [collections.Counter] *)

(** A [Counter] is a [dict]: its items are kept in insertion order, which
    is the order of first occurrence. *)
Fixpoint counter_incr (k : string) (c : list (string * Z)) : list (string * Z) :=
  match c with
  | [] => [(k, 1)]
  | (k', n) :: c' =>
      if decide (k = k') then (k', n + 1) :: c' else (k', n) :: counter_incr k c'
  end.

Definition Counter (elems : list string) : list (string * Z) :=
  foldl (λ c k, counter_incr k c) [] elems.

(** [c[k]]: a missing key counts zero. *)
Fixpoint counter_get (c : list (string * Z)) (k : string) : Z :=
  match c with
  | [] => 0
  | (k', n) :: c' => if decide (k = k') then n else counter_get c' k
  end.

(** [c.most_common(n)] is [heapq.nlargest(n, c.items(), key=itemgetter(1))],
    that is [sorted(c.items(), key=itemgetter(1), reverse=True)[:n]]; it is
    empty for [n <= 0]. *)
Definition most_common (n : Z) (c : list (string * Z)) : list (string * Z) :=
  slice_to (Z.to_nat n) (sorted_by_key_desc snd c).

(** *** [str] *)

(** [c.isspace()] for a code point below 256. *)
Definition is_space (c : Ascii.ascii) : bool :=
  let n := Z.of_nat (Ascii.nat_of_ascii c) in
  ((9 <=? n) && (n <=? 13)) || ((28 <=? n) && (n <=? 32)) || (n =? 133) || (n =? 160).

Definition flush_word (word : string) : list string :=
  if decide (word = "") then [] else [word].

(** [s.split()]: the maximal runs of characters that are not white space. *)
Fixpoint split_from (s : string) (word : string) : list string :=
  match s with
  | EmptyString => flush_word word
  | String c s' =>
      if is_space c then flush_word word ++ split_from s' ""
      else split_from s' (word +:+ String c "")
  end.

Definition split (s : string) : list string := split_from s "".

Definition str_len (s : string) : Z := Z.of_nat (String.length s).

End Py.

(** ** NumPy *)

(** The reductions of [numpy] that the descriptive statistics call, and
    [round] on a [numpy.float64]. They belong to an external library and
    are left as an interface. *)
Class Numpy : Type := {
  np_mean : list Z → Py.float;
  np_median : list Z → Py.float;
  np_std : list Z → Py.float;
  np_round : Py.float → nat → Py.float
}.

(** ** [class TextAnalyzer] *)

Module TextAnalyzer.
Import Py.

(** A [dict] literal. *)
Definition dict {V} (items : list (string * V)) : gmap string V := list_to_map items.

(** The result of [TextPreprocessor.preprocess_for_analysis], restricted
    to the entries that the analysis reads. *)
Record text_data : Type := TextData {
  sentences : list string;
  tokens_lower : list string;
  tokens_lemmatized : list string
}.

(** [threshold=0.72] *)
Definition default_threshold : float := float_lit 72 2.

(** The loop of [_calculate_mtld], from position [i] on:
    [for i, token in enumerate(tokens)]. *)
Fixpoint mtld_scan (tokens : list string) (threshold : float)
    (i factors start : Z) (token_types : gset string) : res Z :=
  match tokens with
  | [] => Ok factors
  | token :: rest =>
      let token_types := {[ token ]} ∪ token_types in
      ttr ← int_truediv (set_len token_types) (i - start + 1);
      if float_lt ttr threshold
      then mtld_scan rest threshold (i + 1) (factors + 1) (i + 1) ∅
      else mtld_scan rest threshold (i + 1) factors start token_types
  end.

Definition _calculate_mtld (tokens : list string) (threshold : float) : res num :=
  if len tokens <? 50 then Ok (Int 0)
  else
    factors ← mtld_scan tokens threshold 0 0 0 ∅;
    if decide (factors = 0) then Ok (Int (len tokens))
    else Float <$> int_truediv (len tokens) factors.

Definition calculate_lexical_diversity (tokens : list string) : res (gmap string num) :=
  let total_tokens := len tokens in
  let unique_tokens := set_len (set tokens) in
  if decide (total_tokens = 0)
  then Ok (dict [("ttr", Int 0); ("unique_words", Int 0); ("total_words", Int 0)])
  else
    ttr ← int_truediv unique_tokens total_tokens;
    mtld ← _calculate_mtld tokens default_threshold;
    Ok (dict [("ttr", round (Float ttr) 4);
              ("unique_words", Int unique_tokens);
              ("total_words", Int total_tokens);
              ("mtld", round mtld 2)]).

Definition calculate_sentence_stats `{Numpy} (sentences : list string)
    : res (gmap string num) :=
  match sentences with
  | [] => Ok (dict [])
  | _ :: _ =>
      let sentence_lengths := (λ s, len (split s)) <$> sentences in
      lo ← list_min sentence_lengths;
      hi ← list_max sentence_lengths;
      Ok (dict [("sentence_count", Int (len sentences));
                ("avg_sentence_length", Float (np_round (np_mean sentence_lengths) 2));
                ("median_sentence_length", Float (np_round (np_median sentence_lengths) 2));
                ("min_sentence_length", Int lo);
                ("max_sentence_length", Int hi);
                ("std_sentence_length", Float (np_round (np_std sentence_lengths) 2))])
  end.

Definition calculate_word_stats `{Numpy} (tokens : list string)
    : res (gmap string num) :=
  match tokens with
  | [] => Ok (dict [])
  | _ :: _ =>
      let word_lengths := str_len <$> tokens in
      let long_words := len (filter (λ w, 6 < w) word_lengths) in
      ratio ← int_truediv long_words (len tokens);
      Ok (dict [("avg_word_length", Float (np_round (np_mean word_lengths) 2));
                ("median_word_length", Float (np_round (np_median word_lengths) 2));
                ("long_words", Int long_words);
                ("long_word_ratio", round (Float ratio) 4)])
  end.

(** The [dict] returned by [calculate_vocabulary_overlap]. *)
Record overlap : Type := Overlap {
  shared_words : Z;
  unique_to_first : Z;
  unique_to_second : Z;
  jaccard_similarity : num;
  overlap_percentage_first : num;
  overlap_percentage_second : num;
  shared_words_list : list string
}.

(** [round(len(shared) / len(vocab) * 100, 2) if vocab else 0] *)
Definition overlap_percentage_of (shared vocab : gset string) : res num :=
  if decide (vocab = ∅) then Ok (Int 0)
  else q ← int_truediv (set_len shared) (set_len vocab);
       Ok (round (Float (float_mul_int q 100)) 2).

Definition calculate_vocabulary_overlap (h : hash_order) (tokens1 tokens2 : list string)
    : res overlap :=
  let vocab1 := set tokens1 in
  let vocab2 := set tokens2 in
  let shared := vocab1 ∩ vocab2 in
  let unique1 := vocab1 ∖ vocab2 in
  let unique2 := vocab2 ∖ vocab1 in
  jaccard ← (if decide (vocab1 ∪ vocab2 = ∅) then Ok (Int 0)
             else Float <$> int_truediv (set_len shared) (set_len (vocab1 ∪ vocab2)));
  first ← overlap_percentage_of shared vocab1;
  second ← overlap_percentage_of shared vocab2;
  Ok {| shared_words := set_len shared;
        unique_to_first := set_len unique1;
        unique_to_second := set_len unique2;
        jaccard_similarity := round jaccard 4;
        overlap_percentage_first := first;
        overlap_percentage_second := second;
        shared_words_list := slice_to 100 (sorted (h shared)) |}.

Definition common : gset string :=
  set ["said"; "one"; "upon"; "like"; "would"; "also"; "may"; "must"; "every"; "much"].

Definition get_top_words (tokens : list string) (n : Z) (exclude_common : bool)
    : list (string * Z) :=
  let tokens := if exclude_common then filter (λ t, t ∉ common) tokens else tokens in
  let counter := Counter tokens in
  most_common n counter.

(** The values of [shared_freq]. *)
Module SharedFreq.
Record t : Type := Make {
  plato_count : Z;
  aristotle_count : Z;
  total : Z
}.
End SharedFreq.

(** The entries of ['top_shared_words']. *)
Record shared_word : Type := SharedWord {
  word : string;
  plato_count : Z;
  aristotle_count : Z
}.

(** The [dict] returned by [compare_author_vocabularies]. *)
Record author_comparison : Type := AuthorComparison {
  plato_vocabulary_size : Z;
  aristotle_vocabulary_size : Z;
  shared_vocabulary : Z;
  plato_unique : Z;
  aristotle_unique : Z;
  overlap_percentage : float;
  aristotle_uses_plato : float;
  top_shared_words : list shared_word;
  top_plato_unique : list (string * Z);
  top_aristotle_unique : list (string * Z)
}.

(** [tokens = []; for text_data in texts.values():
     tokens.extend(text_data['tokens_lemmatized'])] *)
Definition combine_tokens (texts : list (string * text_data)) : list string :=
  foldl (λ tokens kv, tokens ++ tokens_lemmatized kv.2) [] texts.

Definition compare_author_vocabularies (h : hash_order)
    (plato_texts aristotle_texts : list (string * text_data)) : res author_comparison :=
  let plato_tokens := combine_tokens plato_texts in
  let aristotle_tokens := combine_tokens aristotle_texts in
  let plato_vocab := set plato_tokens in
  let aristotle_vocab := set aristotle_tokens in
  let shared := plato_vocab ∩ aristotle_vocab in
  let plato_unique := plato_vocab ∖ aristotle_vocab in
  let aristotle_unique := aristotle_vocab ∖ plato_vocab in
  let plato_freq := Counter plato_tokens in
  let aristotle_freq := Counter aristotle_tokens in
  let shared_freq :=
    (λ word, (word, {| SharedFreq.plato_count := counter_get plato_freq word;
                       SharedFreq.aristotle_count := counter_get aristotle_freq word;
                       SharedFreq.total := counter_get plato_freq word
                                           + counter_get aristotle_freq word |}))
      <$> h shared in
  let top_shared :=
    slice_to 100 (sorted_by_key_desc (λ x, SharedFreq.total x.2) shared_freq) in
  both ← int_truediv (set_len shared) (set_len (plato_vocab ∪ aristotle_vocab));
  uses ← int_truediv (set_len shared) (set_len plato_vocab);
  Ok {| plato_vocabulary_size := set_len plato_vocab;
        aristotle_vocabulary_size := set_len aristotle_vocab;
        shared_vocabulary := set_len shared;
        plato_unique := set_len plato_unique;
        aristotle_unique := set_len aristotle_unique;
        overlap_percentage := float_round (float_mul_int both 100) 2;
        aristotle_uses_plato := float_round (float_mul_int uses 100) 2;
        top_shared_words :=
          (λ x, {| word := x.1;
                   plato_count := SharedFreq.plato_count x.2;
                   aristotle_count := SharedFreq.aristotle_count x.2 |})
            <$> slice_to 50 top_shared;
        top_plato_unique :=
          most_common 30 (Counter (filter (λ t, t ∈ plato_unique) plato_tokens));
        top_aristotle_unique :=
          most_common 30 (Counter (filter (λ t, t ∈ aristotle_unique) aristotle_tokens)) |}.

End TextAnalyzer.

(** ** The all-pairs loop of [analyze_all_texts] *)

Module Analyze.
Import Py TextAnalyzer.

(** [d[k]] on a [dict] kept in insertion order. *)
Fixpoint dict_get {V} (d : list (string * V)) (k : string) : res V :=
  match d with
  | [] => Raise (KeyError k)
  | (k', v) :: d' => if decide (k = k') then Ok v else dict_get d' k
  end.

(** [f"{id1} vs {id2}"] *)
Definition pair_key (id1 id2 : string) : string := id1 +:+ " vs " +:+ id2.

(** [for id2 in text_ids[i+1:]: ... pairwise_overlaps[pair_key] = overlap] *)
Fixpoint pairwise_inner (h : hash_order) (all_texts : list (string * text_data))
    (id1 : string) (rest : list string) (pairwise_overlaps : gmap string overlap)
    : res (gmap string overlap) :=
  match rest with
  | [] => Ok pairwise_overlaps
  | id2 :: rest' =>
      d1 ← dict_get all_texts id1;
      d2 ← dict_get all_texts id2;
      overlap ← calculate_vocabulary_overlap h (tokens_lemmatized d1) (tokens_lemmatized d2);
      pairwise_inner h all_texts id1 rest' (<[pair_key id1 id2 := overlap]> pairwise_overlaps)
  end.

(** [for i, id1 in enumerate(text_ids): ...] *)
Fixpoint pairwise_outer (h : hash_order) (all_texts : list (string * text_data))
    (text_ids : list string) (pairwise_overlaps : gmap string overlap)
    : res (gmap string overlap) :=
  match text_ids with
  | [] => Ok pairwise_overlaps
  | id1 :: rest =>
      pairwise_overlaps ← pairwise_inner h all_texts id1 rest pairwise_overlaps;
      pairwise_outer h all_texts rest pairwise_overlaps
  end.

(** [text_ids = list(all_texts.keys())], then the loop from an empty
    [dict]. *)
Definition pairwise_overlaps (h : hash_order) (all_texts : list (string * text_data))
    : res (gmap string overlap) :=
  let text_ids := all_texts.*1 in
  pairwise_outer h all_texts text_ids ∅.

End Analyze.

(** ** More of the Python runtime: [str] methods, [re.sub], [dict] *)

Module PyStr.
Import Py.
Import Stdlib.Strings.Ascii.

(** The characters of a string, and back. *)
Definition chars (s : string) : list Ascii.ascii := String.list_ascii_of_string s.
Definition str (l : list Ascii.ascii) : string := String.string_of_list_ascii l.

(** [sub in s] *)
Fixpoint str_in (sub s : string) : bool :=
  String.prefix sub s ||
  match s with
  | EmptyString => false
  | String _ s' => str_in sub s'
  end.

(** [s.split(sep)] for a separator that is not empty: the pieces between
    the occurrences of [sep], found from left to right. [skip] counts the
    characters of a separator that are still to be passed over and [word]
    is the piece read so far. *)
Fixpoint split_on (sep s : string) (skip : nat) (word : string) : list string :=
  match s with
  | EmptyString => [word]
  | String c s' =>
      match skip with
      | S skip' => split_on sep s' skip' word
      | O =>
          if String.prefix sep s
          then word :: split_on sep s' (String.length sep - 1)%nat ""
          else split_on sep s' O (word +:+ String c "")
      end
  end.

Definition split_sep (s sep : string) : list string := split_on sep s 0 "".

(** [a, b = l] *)
Definition unpack2 {A} (l : list A) : res (A * A) :=
  match l with
  | [a; b] => Ok (a, b)
  | _ => Raise ValueError
  end.

(** [c.isalpha()] for a code point below 256: the letters of Latin-1. *)
Definition is_alpha (c : Ascii.ascii) : bool :=
  let n := Z.of_nat (Ascii.nat_of_ascii c) in
  ((65 <=? n) && (n <=? 90)) || ((97 <=? n) && (n <=? 122)) ||
  (n =? 170) || (n =? 181) || (n =? 186) ||
  ((192 <=? n) && (n <=? 214)) || ((216 <=? n) && (n <=? 246)) || (248 <=? n).

(** [s.isalpha()]: no character but letters, and at least one. *)
Definition isalpha (s : string) : bool :=
  match s with
  | EmptyString => false
  | _ => forallb is_alpha (chars s)
  end.

(** [c.lower()] for a code point below 256. *)
Definition lower_char (c : Ascii.ascii) : Ascii.ascii :=
  let n := Z.of_nat (Ascii.nat_of_ascii c) in
  if ((65 <=? n) && (n <=? 90)) || ((192 <=? n) && (n <=? 214)) || ((216 <=? n) && (n <=? 222))
  then Ascii.ascii_of_nat (Ascii.nat_of_ascii c + 32)
  else c.

Definition lower (s : string) : string := str (lower_char <$> chars s).

(** [re.sub(r'\s+', ' ', text)]: every maximal run of white space becomes
    one space. [in_run] tells that the character before was white space. *)
Fixpoint sub_spaces (in_run : bool) (l : list Ascii.ascii) : list Ascii.ascii :=
  match l with
  | [] => []
  | c :: l' =>
      if is_space c
      then if in_run then sub_spaces true l' else " "%char :: sub_spaces true l'
      else c :: sub_spaces false l'
  end.

(** The class [[.,!?;:]]. *)
Definition is_punct (c : Ascii.ascii) : bool :=
  bool_decide (c ∈ ["."; ","; "!"; "?"; ";"; ":"]%char).

(** [re.sub(r'\s+([.,!?;:])', r'\1', text)]: a maximal run of white space
    is dropped when one of the six marks follows it. [pending] is the run
    of white space read last and not yet written. *)
Fixpoint sub_space_punct (pending l : list Ascii.ascii) : list Ascii.ascii :=
  match l with
  | [] => pending
  | c :: l' =>
      if is_space c then sub_space_punct (pending ++ [c]) l'
      else if is_punct c then c :: sub_space_punct [] l'
      else pending ++ c :: sub_space_punct [] l'
  end.

(** [s.lstrip()] and [s.strip()] on the characters. *)
Fixpoint lstrip (l : list Ascii.ascii) : list Ascii.ascii :=
  match l with
  | [] => []
  | c :: l' => if is_space c then lstrip l' else l
  end.

Definition strip (l : list Ascii.ascii) : list Ascii.ascii :=
  reverse (lstrip (reverse (lstrip l))).

(** [d[k] = v] on a [dict] kept in insertion order: a key that is present
    keeps its place. *)
Fixpoint dict_set {V} (d : list (string * V)) (k : string) (v : V) : list (string * V) :=
  match d with
  | [] => [(k, v)]
  | (k', v') :: d' =>
      if decide (k = k') then (k', v) :: d' else (k', v') :: dict_set d' k v
  end.

(** [v > x] for a number [v] and a float [x]; an [int] below [2^53] in
    magnitude is compared by its exact value. *)
Definition num_gt_float (v : num) (x : float) : bool :=
  match v with
  | Int z => float_lt x (float_of_int z)
  | Float f => float_lt x f
  end.

End PyStr.

(** ** [class TextPreprocessor] ([src/preprocess.py]) *)

(** NLTK: the two tokenizers, the list of English stop words and the
    WordNet lemmatizer belong to an external library and are left as an
    interface. *)
Class Nltk : Type := {
  sent_tokenize : string → list string;
  word_tokenize : string → list string;
  stopwords_words : list string;
  wordnet_lemmatize : string → string
}.

Module TextPreprocessor.
Import Py PyStr.

(** The [dict] returned by [preprocess_for_analysis]. *)
Record processed : Type := Processed {
  cleaned_text : string;
  sentences : list string;
  tokens_original : list string;
  tokens_lower : list string;
  tokens_no_stopwords : list string;
  tokens_lemmatized : list string;
  sentence_count : Z;
  token_count : Z;
  vocabulary_size : Z
}.

(** The entries that [TextAnalyzer] reads. *)
Definition to_text_data (data : processed) : TextAnalyzer.text_data :=
  {| TextAnalyzer.sentences := sentences data;
     TextAnalyzer.tokens_lower := tokens_lower data;
     TextAnalyzer.tokens_lemmatized := tokens_lemmatized data |}.

Section methods.
Context `{Nltk}.

(** [self.stopwords = set(stopwords.words('english'))] *)
Definition stopwords : gset string := set stopwords_words.

Definition clean_text (text : string) : string :=
  let text := sub_spaces false (chars text) in
  let text := sub_space_punct [] text in
  str (strip text).

Definition tokenize_sentences (text : string) : list string := sent_tokenize text.

Definition tokenize_words (text : string) (lowercase : bool) : list string :=
  let tokens := word_tokenize text in
  let tokens := if lowercase then lower <$> tokens else tokens in
  filter (λ t, isalpha t = true) tokens.

Definition remove_stopwords (tokens : list string) : list string :=
  filter (λ t, t ∉ stopwords) tokens.

Definition lemmatize (tokens : list string) : list string :=
  wordnet_lemmatize <$> tokens.

Definition preprocess_for_analysis (text : string) : processed :=
  let cleaned := clean_text text in
  let sentences := tokenize_sentences cleaned in
  let tokens_original := tokenize_words cleaned false in
  let tokens_lower := tokenize_words cleaned true in
  let tokens_no_stop := remove_stopwords tokens_lower in
  let tokens_lemmatized := lemmatize tokens_no_stop in
  {| cleaned_text := cleaned;
     sentences := sentences;
     tokens_original := tokens_original;
     tokens_lower := tokens_lower;
     tokens_no_stopwords := tokens_no_stop;
     tokens_lemmatized := tokens_lemmatized;
     sentence_count := len sentences;
     token_count := len tokens_lower;
     vocabulary_size := set_len (set tokens_lower) |}.

End methods.

(** An entry of [output_data], written to [preprocessed_stats.json]. *)
Module Stats.
Record t : Type := Make {
  sentence_count : Z;
  token_count : Z;
  vocabulary_size : Z;
  lexical_diversity : float;
  top_words : list (string * Z)
}.
End Stats.

(** [dict(pairs)] *)
Definition dict_of_pairs {V} (pairs : list (string * V)) : list (string * V) :=
  foldl (λ d kv, dict_set d kv.1 kv.2) [] pairs.

Section preprocess_all_texts.
Context `{Nltk}.

(** The first loop: a file is a pair of the stem of its path and of its
    content. The report printed for each text evaluates
    [processed['vocabulary_size']/processed['token_count']]. *)
Fixpoint preprocess_files (txt_files : list (string * string))
    (all_data : list (string * processed)) : res (list (string * processed)) :=
  match txt_files with
  | [] => Ok all_data
  | (text_id, text) :: rest =>
      let processed := preprocess_for_analysis text in
      let all_data := dict_set all_data text_id processed in
      _ ← int_truediv (vocabulary_size processed) (token_count processed);
      preprocess_files rest all_data
  end.

(** The second loop, over [all_data.items()]. *)
Fixpoint collect_stats (items : list (string * processed))
    (output_data : list (string * Stats.t)) : res (list (string * Stats.t)) :=
  match items with
  | [] => Ok output_data
  | (text_id, data) :: rest =>
      diversity ← int_truediv (vocabulary_size data) (token_count data);
      collect_stats rest
        (dict_set output_data text_id
           {| Stats.sentence_count := sentence_count data;
              Stats.token_count := token_count data;
              Stats.vocabulary_size := vocabulary_size data;
              Stats.lexical_diversity := diversity;
              Stats.top_words :=
                dict_of_pairs (most_common 100 (Counter (tokens_lemmatized data))) |})
  end.

(** The result is the pair of [all_data], which is returned, and of
    [output_data], which is written; [None] when there is no file. *)
Definition preprocess_all_texts (txt_files : list (string * string))
    : res (option (list (string * processed) * list (string * Stats.t))) :=
  match txt_files with
  | [] => Ok None
  | _ :: _ =>
      all_data ← preprocess_files txt_files [];
      output_data ← collect_stats all_data [];
      Ok (Some (all_data, output_data))
  end.

End preprocess_all_texts.

End TextPreprocessor.

(** ** [analyze_all_texts] as a whole, and [load_all_texts] of
    [src/generate.py], which is the same loop *)

Module Corpus.
Import Py PyStr TextPreprocessor.

(** [all_texts], [plato_texts] and [aristotle_texts]. *)
Record t : Type := Make {
  all_texts : list (string * processed);
  plato_texts : list (string * processed);
  aristotle_texts : list (string * processed)
}.

Definition empty : t := {| all_texts := []; plato_texts := []; aristotle_texts := [] |}.

Section load.
Context `{Nltk}.

(** One turn of the loop over the files. *)
Definition load_text (c : t) (file : string * string) : t :=
  let text_id := file.1 in
  let processed := preprocess_for_analysis file.2 in
  let all_texts := dict_set (all_texts c) text_id processed in
  if str_in "Plato" text_id
  then {| all_texts := all_texts;
          plato_texts := dict_set (plato_texts c) text_id processed;
          aristotle_texts := aristotle_texts c |}
  else if str_in "Aristotle" text_id || str_in "Artistotle" text_id
  then {| all_texts := all_texts;
          plato_texts := plato_texts c;
          aristotle_texts := dict_set (aristotle_texts c) text_id processed |}
  else {| all_texts := all_texts;
          plato_texts := plato_texts c;
          aristotle_texts := aristotle_texts c |}.

Definition load_texts (txt_files : list (string * string)) : t :=
  foldl load_text empty txt_files.

End load.

(** The groups as [TextAnalyzer] reads them. *)
Definition group (texts : list (string * processed)) : list (string * TextAnalyzer.text_data) :=
  prod_map id to_text_data <$> texts.

End Corpus.

Module AnalyzeAllTexts.
Import Py PyStr TextAnalyzer.

(** The entry ['basic_stats'] of a text. *)
Module BasicStats.
Record t : Type := Make {
  sentence_count : Z;
  word_count : Z;
  vocabulary_size : Z
}.
End BasicStats.

(** An entry of [results]. *)
Record text_result : Type := TextResult {
  basic_stats : BasicStats.t;
  lexical_diversity : gmap string num;
  sentence_stats : gmap string num;
  word_stats : gmap string num;
  top_words : list (string * Z)
}.

(** The [dict] written to [analysis.json]. *)
Record output : Type := Output {
  individual_texts : list (string * text_result);
  plato_vs_aristotle : author_comparison;
  pairwise_comparisons : gmap string overlap
}.

Section analyze_all_texts.
Context `{Numpy} `{Nltk}.

(** The entry of [results] for one text: the [dict] that the loop over
    [all_texts.items()] builds. *)
Definition analyze_text (data : TextPreprocessor.processed) : res text_result :=
  diversity ← calculate_lexical_diversity (TextPreprocessor.tokens_lower data);
  sentence_stats ← calculate_sentence_stats (TextPreprocessor.sentences data);
  word_stats ← calculate_word_stats (TextPreprocessor.tokens_lower data);
  Ok {| basic_stats :=
          {| BasicStats.sentence_count := TextPreprocessor.sentence_count data;
             BasicStats.word_count := TextPreprocessor.token_count data;
             BasicStats.vocabulary_size := TextPreprocessor.vocabulary_size data |};
        lexical_diversity := diversity;
        sentence_stats := sentence_stats;
        word_stats := word_stats;
        top_words := get_top_words (TextPreprocessor.tokens_lemmatized data) 50 true |}.

(** [for text_id, data in all_texts.items(): results[text_id] = ...] *)
Fixpoint individual_analysis (items : list (string * TextPreprocessor.processed))
    (results : list (string * text_result)) : res (list (string * text_result)) :=
  match items with
  | [] => Ok results
  | (text_id, data) :: rest =>
      r ← analyze_text data;
      individual_analysis rest (dict_set results text_id r)
  end.

(** The whole run, from the files of [data/processed] -- the stem of the
    path and the content of each -- to the value written to
    [analysis.json]; [None] when there is no file. *)
Definition analyze_all_texts (h : hash_order) (txt_files : list (string * string))
    : res (option output) :=
  match txt_files with
  | [] => Ok None
  | _ :: _ =>
      let c := Corpus.load_texts txt_files in
      results ← individual_analysis (Corpus.all_texts c) [];
      author_comparison ←
        compare_author_vocabularies h (Corpus.group (Corpus.plato_texts c))
          (Corpus.group (Corpus.aristotle_texts c));
      pairwise_overlaps ← Analyze.pairwise_overlaps h (Corpus.group (Corpus.all_texts c));
      Ok (Some {| individual_texts := results;
                  plato_vs_aristotle := author_comparison;
                  pairwise_comparisons := pairwise_overlaps |})
  end.

End analyze_all_texts.

End AnalyzeAllTexts.

(** ** The comparison matrix and the network of [src/generate.py] *)

Module Generate.
Import Py PyStr TextAnalyzer.

(** [f"{id1}|||{id2}"] *)
Definition pair_key (id1 id2 : string) : string := id1 +:+ "|||" +:+ id2.

(** The all-pairs loop of [run_all_analyses]; [pairwise_comparisons] is
    kept in insertion order, in which [create_network_data] reads it. *)
Fixpoint pairwise_inner (h : hash_order) (all_texts : list (string * text_data))
    (id1 : string) (rest : list string) (pairwise_comparisons : list (string * overlap))
    : res (list (string * overlap)) :=
  match rest with
  | [] => Ok pairwise_comparisons
  | id2 :: rest' =>
      d1 ← Analyze.dict_get all_texts id1;
      d2 ← Analyze.dict_get all_texts id2;
      overlap ← calculate_vocabulary_overlap h (tokens_lemmatized d1) (tokens_lemmatized d2);
      pairwise_inner h all_texts id1 rest'
        (dict_set pairwise_comparisons (pair_key id1 id2) overlap)
  end.

Fixpoint pairwise_outer (h : hash_order) (all_texts : list (string * text_data))
    (text_ids : list string) (pairwise_comparisons : list (string * overlap))
    : res (list (string * overlap)) :=
  match text_ids with
  | [] => Ok pairwise_comparisons
  | id1 :: rest =>
      pairwise_comparisons ← pairwise_inner h all_texts id1 rest pairwise_comparisons;
      pairwise_outer h all_texts rest pairwise_comparisons
  end.

Definition pairwise_comparisons (h : hash_order) (all_texts : list (string * text_data))
    : res (list (string * overlap)) :=
  let text_ids := all_texts.*1 in
  pairwise_outer h all_texts text_ids [].

(** A node and a link of the network. *)
Module Node.
Record t : Type := Make {
  id : string;
  author : string;
  label : string
}.
End Node.

Module Link.
Record t : Type := Make {
  source : string;
  target : string;
  weight : num;
  shared_words : Z
}.
End Link.

Record network : Type := Network {
  nodes : list Node.t;
  links : list Link.t
}.

(** [for text_id in all_texts.keys(): nodes.append(...)] *)
Definition create_nodes (text_ids : list string) : list Node.t :=
  (λ text_id, {| Node.id := text_id;
                 Node.author := if str_in "Plato" text_id then "Plato" else "Aristotle";
                 Node.label := text_id |}) <$> text_ids.

(** [for pair_key, overlap_data in pairwise_comparisons.items(): ...];
    the literal [0.05] is [float_lit 5 2]. *)
Fixpoint create_links (items : list (string * overlap)) (links : list Link.t)
    : res (list Link.t) :=
  match items with
  | [] => Ok links
  | (pair_key, overlap_data) :: rest =>
      ids ← unpack2 (split_sep pair_key "|||");
      if num_gt_float (jaccard_similarity overlap_data) (float_lit 5 2)
      then create_links rest
             (links ++ [ {| Link.source := ids.1;
                            Link.target := ids.2;
                            Link.weight := jaccard_similarity overlap_data;
                            Link.shared_words := shared_words overlap_data |} ])
      else create_links rest links
  end.

Definition create_network_data {V} (all_texts : list (string * V))
    (pairwise_comparisons : list (string * overlap)) : res network :=
  let nodes := create_nodes all_texts.*1 in
  links ← create_links pairwise_comparisons [];
  Ok {| nodes := nodes; links := links |}.

(** [load_all_texts]: the loop of [Corpus.load_texts]; [None] when there
    is no file. *)
Definition load_all_texts `{Nltk} (txt_files : list (string * string)) : option Corpus.t :=
  match txt_files with
  | [] => None
  | _ :: _ => Some (Corpus.load_texts txt_files)
  end.

(** [results['metadata']] of [generate_all_data]. *)
Module Metadata.
Record t : Type := Make {
  text_count : Z;
  plato_count : Z;
  aristotle_count : Z;
  texts_plato : list string;
  texts_aristotle : list string
}.
End Metadata.

Definition metadata_of (c : Corpus.t) : Metadata.t :=
  {| Metadata.text_count := len (Corpus.all_texts c);
     Metadata.plato_count := len (Corpus.plato_texts c);
     Metadata.aristotle_count := len (Corpus.aristotle_texts c);
     Metadata.texts_plato := (Corpus.plato_texts c).*1;
     Metadata.texts_aristotle := (Corpus.aristotle_texts c).*1 |}.

End Generate.

(** ** Two runs of the interpreter *)

Module Runs.
Import Py.

(** A run that enumerates every set in the order of [elements]. *)
Definition forward : hash_order :=
  HashOrder elements (λ X, reflexivity (elements X)).

(** A run that enumerates every set in the opposite order. *)
Definition backward : hash_order :=
  HashOrder (λ X, reverse (elements X)) (λ X, reverse_Permutation (elements X)).

End Runs.

(** ** The specification's reading of MTLD (section 4.1)

    The scan keeps the set of distinct tokens of the current segment, the
    number of tokens of the current segment and a factor counter. The
    segment-local type-token ratio is compared with [72/100] exactly, as a
    ratio of integers. *)

Module Spec.
Import Py.

Record scan_state : Type := ScanState {
  segment : gset string;
  segment_count : Z;
  factor_count : Z
}.

(** [distinct / count < 0.72] *)
Definition below_threshold (distinct count : Z) : bool :=
  bool_decide (100 * distinct < 72 * count).

Definition scan_step (st : scan_state) (token : string) : scan_state :=
  let seg := {[ token ]} ∪ segment st in
  let n := segment_count st + 1 in
  if below_threshold (set_len seg) n
  then {| segment := ∅; segment_count := 0; factor_count := factor_count st + 1 |}
  else {| segment := seg; segment_count := n; factor_count := factor_count st |}.

Definition scan (tokens : list string) : scan_state :=
  foldl scan_step {| segment := ∅; segment_count := 0; factor_count := 0 |} tokens.

(** The value at the end of the sequence, from the total length and the
    number of completed factors. *)
Definition mtld_value (total factors : Z) : num :=
  if total <? 50 then Int 0
  else if factors =? 0 then Int total
  else Float (float_div (float_of_int total) (float_of_int factors)).

Definition mtld (tokens : list string) : num :=
  mtld_value (len tokens) (factor_count (scan tokens)).

(** The type-token ratio of a whole segment is below the threshold. *)
Definition ttr_below (seg : list string) : bool :=
  below_threshold (set_len (set seg)) (len seg).

(** A completed factor: the ratio is below the threshold at its last token
    and at none before. *)
Definition factor (seg : list string) : Prop :=
  ttr_below seg = true ∧
  ∀ p, p ≠ [] → p `prefix_of` seg → p ≠ seg → ttr_below p = false.

(** A trailing partial segment: the ratio never drops below the threshold. *)
Definition partial_segment (seg : list string) : Prop :=
  ∀ p, p ≠ [] → p `prefix_of` seg → ttr_below p = false.

(** Position of the first occurrence of [x] in [l] ([l.index(x)]), or
    [length l] when there is none. *)
Fixpoint first_index (x : string) (l : list string) : nat :=
  match l with
  | [] => O
  | y :: l' => if decide (x = y) then O else S (first_index x l')
  end.

(** Number of occurrences of [x] in [l] ([l.count(x)]). *)
Definition occurrences (x : string) (l : list string) : Z :=
  len (filter (λ y, y = x) l).

(** The order of a frequency ranking: a higher count first, and among
    equal counts the token that occurs first in [tokens]. *)
Definition ranks_before (tokens : list string) (x y : string * Z) : Prop :=
  y.2 < x.2 ∨ (x.2 = y.2 ∧ (first_index x.1 tokens < first_index y.1 tokens)%nat).

(** [a / b] for integers with [b <> 0]. *)
Definition ratio (a b : Z) : float := float_div (float_of_int a) (float_of_int b).

(** Section 4.4: Jaccard = |intersection| / |union|, to 4 decimals; 0 when
    both vocabularies are empty. *)
Definition jaccard (vocab1 vocab2 : gset string) : num :=
  if decide (vocab1 = ∅ ∧ vocab2 = ∅) then Int 0
  else Float (float_round (ratio (set_len (vocab1 ∩ vocab2)) (set_len (vocab1 ∪ vocab2))) 4).

(** Section 4.4: overlap percentage of the first vocabulary,
    shared / |vocab1| x 100, to 2 decimals; 0 when [vocab1] is empty. *)
Definition overlap_percentage (vocab1 vocab2 : gset string) : num :=
  if decide (vocab1 = ∅) then Int 0
  else Float (float_round
                (float_mul (ratio (set_len (vocab1 ∩ vocab2)) (set_len vocab1))
                           (float_of_int 100)) 2).

(** The pairs [(ids[i], ids[j])] with [i < j], in the order of the loop. *)
Fixpoint all_pairs (ids : list string) : list (string * string) :=
  match ids with
  | [] => []
  | id1 :: rest => ((λ id2, (id1, id2)) <$> rest) ++ all_pairs rest
  end.

(** The keys under which the loop stores the pairs:
    [f"{id1} vs {id2}"] for each pair. *)
Definition pair_keys (ids : list string) : list string :=
  (λ p, p.1 +:+ " vs " +:+ p.2) <$> all_pairs ids.

End Spec.

(** ** Inputs used in examples *)

Module Inputs.
Import TextAnalyzer.

(** The decimal numerals of [0 .. n-1]: [[str(i) for i in range(n)]]. *)
Definition numerals (n : Z) : list string := (pretty : Z → string) <$> seqZ 0 n.

(** 20001 tokens of which 20000 are distinct. *)
Definition nearly_distinct : list string := "0" :: numerals 20000.

(** A document that only carries lemmatized tokens. *)
Definition doc (tokens : list string) : text_data :=
  {| sentences := []; tokens_lower := []; tokens_lemmatized := tokens |}.

(** Four documents with distinct identifiers. *)
Definition four_texts : list (string * text_data) :=
  [("a", doc []); ("a vs b", doc []); ("b vs c", doc []); ("c", doc [])].

(** Two one-document groups with the same two tokens. *)
Definition plato_ab : list (string * text_data) := [("Plato", doc ["a"; "b"])].
Definition aristotle_ab : list (string * text_data) := [("Aristotle", doc ["a"; "b"])].

End Inputs.

(** ** Vocabulary of the further properties *)

Module Props.
Import Py PyStr TextAnalyzer Generate.

(** *** Rankings *)

(** The frequency ranking of the words of [own] that do not occur in
    [other], cut at [n] entries. *)
Definition unique_ranking (own other : list string) (n : Z) (top : list (string * Z)) : Prop :=
  len top = Z.min n (set_len (set own ∖ set other)) ∧
  NoDup top.*1 ∧
  (∀ t c, (t, c) ∈ top → t ∈ own ∧ (t ∉ other) ∧ c = Spec.occurrences t own) ∧
  StronglySorted (λ x y, y.2 ≤ x.2) top ∧
  (∀ t, t ∈ own → t ∉ other → t ∉ top.*1 → ∀ x, x ∈ top → Spec.occurrences t own ≤ x.2).

(** [sum(count for _, count in items)] *)
Definition total_count (items : list (string * Z)) : Z := foldr (λ x s, x.2 + s) 0 items.

(** The entry of [shared_freq] for a word. *)
Definition shared_entry (plato_tokens aristotle_tokens : list string) (w : string)
    : string * SharedFreq.t :=
  (w, {| SharedFreq.plato_count := counter_get (Counter plato_tokens) w;
         SharedFreq.aristotle_count := counter_get (Counter aristotle_tokens) w;
         SharedFreq.total := counter_get (Counter plato_tokens) w
                             + counter_get (Counter aristotle_tokens) w |}).

Definition to_shared_word (x : string * SharedFreq.t) : shared_word :=
  {| word := x.1;
     plato_count := SharedFreq.plato_count x.2;
     aristotle_count := SharedFreq.aristotle_count x.2 |}.

(** *** Author groups *)

(** The two tests of the loading loop on the name of a text; the second
    one is only made when the first one fails. *)
Definition is_plato (text_id : string) : Prop := str_in "Plato" text_id = true.
Definition is_aristotle (text_id : string) : Prop :=
  str_in "Plato" text_id = false ∧
  (str_in "Aristotle" text_id = true ∨ str_in "Artistotle" text_id = true).

#[global] Instance is_plato_dec text_id : Decision (is_plato text_id).
Proof. unfold is_plato. apply _. Defined.
#[global] Instance is_aristotle_dec text_id : Decision (is_aristotle text_id).
Proof. unfold is_aristotle. apply _. Defined.

(** *** The network *)

(** The overlap of two texts of [all_texts]. *)
Definition overlap_of (h : hash_order) (all_texts : list (string * text_data))
    (id1 id2 : string) : res overlap :=
  d1 ← Analyze.dict_get all_texts id1;
  d2 ← Analyze.dict_get all_texts id2;
  calculate_vocabulary_overlap h (tokens_lemmatized d1) (tokens_lemmatized d2).

(** The link of a pair of texts, if any. *)
Definition link_of (pair : string * string) (overlap_data : overlap) : option Link.t :=
  if num_gt_float (jaccard_similarity overlap_data) (float_lit 5 2)
  then Some {| Link.source := pair.1;
               Link.target := pair.2;
               Link.weight := jaccard_similarity overlap_data;
               Link.shared_words := shared_words overlap_data |}
  else None.

(** The key of a pair of texts. *)
Definition key_of (p : string * string) : string := pair_key p.1 p.2.

(** *** Cleaned text *)

(** [R] holds between every character and the next one. *)
Fixpoint adjacent (R : Ascii.ascii → Ascii.ascii → bool) (l : list Ascii.ascii) : bool :=
  match l with
  | a :: l' => match l' with b :: _ => R a b | [] => true end && adjacent R l'
  | [] => true
  end.

(** The first character, if any, is not white space. *)
Definition starts_clean (l : list Ascii.ascii) : bool :=
  match l with
  | c :: _ => negb (is_space c)
  | [] => true
  end.

(** Every white-space character is a space. *)
Definition only_spaces (l : list Ascii.ascii) : bool :=
  forallb (λ c, implb (is_space c) (bool_decide (c = Ascii.Space))) l.

(** Conditions on a character [a] and the next one [b]: they are not both
    white space; and if [a] is white space, [b] is neither white space nor
    one of the marks [. , ! ? ; :]. *)
Definition no_double (a b : Ascii.ascii) : bool := negb (is_space a && is_space b).
Definition tidy (a b : Ascii.ascii) : bool := negb (is_space a && (is_space b || is_punct b)).

(** A cleaned text: the only white space is the space; no space is
    followed by white space or by one of the six marks; the text neither
    starts nor ends with a space. *)
Definition is_clean (l : list Ascii.ascii) : bool :=
  only_spaces l && adjacent tidy l && starts_clean l && starts_clean (reverse l).

(** The same as [only_spaces], as a proposition. *)
Definition spaces_are_spaces (l : list Ascii.ascii) : Prop :=
  Forall (λ c, is_space c = true → c = Ascii.Space) l.

End Props.

(** * Properties *)

#[local] Set Warnings "-clear-no-such-hyp".

(** ** Binary64 division of integers

    [SpecFloat] comes without lemmas. What the analysis needs is that the
    quotient of two integers below [2^53] is a normal number within half a
    unit in the last place of the exact quotient. *)

Module FloatFacts.
Import Py.

(** [digits2_pos p] is the number of binary digits of [p]. *)
Lemma digits2_pos_bounds (p : positive) :
  2 ^ (Z.pos (digits2_pos p) - 1) ≤ Z.pos p < 2 ^ Z.pos (digits2_pos p).
Proof.
  induction p as [p IH|p IH|]; cbn [digits2_pos].
  - rewrite Pos2Z.inj_succ, Z.pow_succ_r by lia.
    replace (Z.succ (Z.pos (digits2_pos p)) - 1)
      with (Z.succ (Z.pos (digits2_pos p) - 1)) by lia.
    rewrite Z.pow_succ_r by lia. lia.
  - rewrite Pos2Z.inj_succ, Z.pow_succ_r by lia.
    replace (Z.succ (Z.pos (digits2_pos p)) - 1)
      with (Z.succ (Z.pos (digits2_pos p) - 1)) by lia.
    rewrite Z.pow_succ_r by lia. lia.
  - cbn. lia.
Qed.

Lemma digits2_pos_unique (p : positive) (d : Z) :
  2 ^ (d - 1) ≤ Z.pos p < 2 ^ d → Z.pos (digits2_pos p) = d.
Proof.
  intros [Hlo Hhi]. pose proof (digits2_pos_bounds p) as [Hlo' Hhi'].
  assert (0 < d).
  { destruct (Z_lt_le_dec 0 d); [done|].
    assert (2 ^ d ≤ 2 ^ 0).
    { destruct (Z_lt_le_dec d 0); [rewrite Z.pow_neg_r by lia; cbn; lia|].
      apply Z.pow_le_mono_r; lia. }
    cbn in *. lia. }
  destruct (Z_lt_le_dec (Z.pos (digits2_pos p)) d) as [Hlt|Hge].
  - assert (2 ^ Z.pos (digits2_pos p) ≤ 2 ^ (d - 1)) by (apply Z.pow_le_mono_r; lia). lia.
  - destruct (Z_lt_le_dec d (Z.pos (digits2_pos p))) as [Hlt|Hge']; [|lia].
    assert (2 ^ d ≤ 2 ^ (Z.pos (digits2_pos p) - 1)) by (apply Z.pow_le_mono_r; lia). lia.
Qed.

Lemma iter_xO (p : positive) (k : positive) :
  Z.pos (Pos.iter xO p k) = Z.pos p * 2 ^ Z.pos k.
Proof.
  revert p. induction k using Pos.peano_ind; intros p.
  - cbn. lia.
  - rewrite Pos.iter_succ, Pos2Z.inj_xO, IHk, Pos2Z.inj_succ, Z.pow_succ_r by lia. lia.
Qed.

(** A mantissa of exactly 53 digits at an exponent in range is left alone;
    one of 54 digits loses its last bit. *)
Lemma shr_fexp_53 (m : positive) (e : Z) (l : location) :
  2 ^ 52 ≤ Z.pos m < 2 ^ 53 → -1074 ≤ e →
  shr_fexp prec emax (Z.pos m) e l = (shr_record_of_loc (Z.pos m) l, e).
Proof.
  intros Hm He. unfold shr_fexp, fexp, SpecFloat.emin, Zdigits2.
  rewrite (digits2_pos_unique m 53) by (change (53 - 1) with 52; lia).
  unfold prec, emax.
  replace (Z.max (53 + e - 53) (3 - 1024 - 53) - e) with 0 by lia.
  reflexivity.
Qed.

Lemma shr_fexp_54 (m : positive) (e : Z) (l : location) :
  2 ^ 53 ≤ Z.pos m < 2 ^ 54 → -1074 ≤ e →
  shr_fexp prec emax (Z.pos m) e l = (shr_1 (shr_record_of_loc (Z.pos m) l), e + 1).
Proof.
  intros Hm He. unfold shr_fexp, fexp, SpecFloat.emin, Zdigits2.
  rewrite (digits2_pos_unique m 54) by (change (54 - 1) with 53; lia).
  unfold prec, emax.
  replace (Z.max (54 + e - 53) (3 - 1024 - 53) - e) with 1 by lia.
  reflexivity.
Qed.

Lemma loc_of_shr_record_of_loc m l : loc_of_shr_record (shr_record_of_loc m l) = l.
Proof. by destruct l as [|[]]. Qed.

Lemma shr_m_of_loc m l : shr_m (shr_record_of_loc m l) = m.
Proof. by destruct l as [|[]]. Qed.

(** Rounding an exact 53-digit mantissa changes nothing. *)
Lemma binary_round_aux_exact (m : positive) (e : Z) :
  2 ^ 52 ≤ Z.pos m < 2 ^ 53 → -1074 ≤ e ≤ 971 →
  binary_round_aux prec emax false (Z.pos m) e loc_Exact = S754_finite false m e.
Proof.
  intros Hm He. unfold binary_round_aux.
  rewrite shr_fexp_53 by lia.
  cbn [shr_record_of_loc shr_m loc_of_shr_record round_nearest_even].
  rewrite shr_fexp_53 by lia. cbn [shr_record_of_loc shr_m].
  unfold prec, emax. destruct (Z.leb_spec e (1024 - 53)); [done|lia].
Qed.

(** [float(a)] for [0 < a < 2^53] is exact: a mantissa of 53 digits with a
    non-positive exponent. *)
Lemma float_of_int_pos (a : Z) :
  0 < a < 2 ^ 53 →
  ∃ (m : positive) (k : Z),
    float_of_int a = S754_finite false m (- k) ∧
    0 ≤ k ≤ 52 ∧ Z.pos m = a * 2 ^ k ∧ 2 ^ 52 ≤ Z.pos m < 2 ^ 53.
Proof.
  intros Ha. destruct a as [|p|p]; try lia.
  pose proof (digits2_pos_bounds p) as Hd.
  set (d := Z.pos (digits2_pos p)) in *.
  assert (Hd53 : 1 ≤ d ≤ 53).
  { split; [lia|]. destruct (Z_lt_le_dec 53 d); [|done].
    assert (2 ^ 53 ≤ 2 ^ (d - 1)) by (apply Z.pow_le_mono_r; lia). lia. }
  unfold float_of_int, binary_normalize, binary_round, shl_align, fexp, SpecFloat.emin.
  fold d. unfold prec, emax.
  replace (Z.max (d + 0 - 53) (3 - 1024 - 53)) with (d - 53) by lia.
  destruct (decide (d = 53)) as [->|Hne].
  - cbn [Z.sub Z.add Z.opp Z.pos_sub]. change (53 - 53 - 0) with 0. cbn match.
    exists p, 0. rewrite binary_round_aux_exact by (change (53 - 1) with 52 in Hd; lia).
    split; [done|]. change (53 - 1) with 52 in Hd. split; [lia|]. split; [lia|lia].
  - destruct (d - 53 - 0) as [|z|z] eqn:Hz; try lia.
    assert (Hpow : Z.pos (Pos.iter xO p z) = Z.pos p * 2 ^ (53 - d)).
    { rewrite iter_xO. f_equal. f_equal. lia. }
    assert (2 ^ 52 ≤ Z.pos (Pos.iter xO p z) < 2 ^ 53).
    { rewrite Hpow.
      replace (2 ^ 52) with (2 ^ (d - 1) * 2 ^ (53 - d))
        by (rewrite <- Z.pow_add_r by lia; f_equal; lia).
      replace (2 ^ 53) with (2 ^ d * 2 ^ (53 - d))
        by (rewrite <- Z.pow_add_r by lia; f_equal; lia).
      assert (0 < 2 ^ (53 - d)) by (apply Z.pow_pos_nonneg; lia). nia. }
    exists (Pos.iter xO p z), (53 - d).
    rewrite binary_round_aux_exact by lia.
    split; [f_equal; lia|]. split; [lia|]. split; [done|lia].
Qed.

(** The position of a remainder [r] of a division by [d] relative to the
    midpoint. *)
Lemma new_location_spec (d r : Z) :
  0 < d → 0 ≤ r < d →
  new_location d r = if decide (r = 0) then loc_Exact else loc_Inexact (2 * r ?= d).
Proof.
  intros Hd Hr. unfold new_location, new_location_even, new_location_odd.
  destruct (decide (r = 0)) as [->|Hne].
  { destruct (Z.even d); reflexivity. }
  destruct (Z.even d) eqn:Heven; cbv beta;
    (destruct (Z.eqb_spec r 0); [done|]); [done|].
  f_equal.
  assert (Hodd : Z.odd d = true) by (rewrite <- Z.negb_even, Heven; done).
  apply Z.odd_spec in Hodd as [c ->].
  destruct (Z.compare_spec (2 * r + 1) (2 * c + 1)),
    (Z.compare_spec (2 * r) (2 * c + 1)); done || lia.
Qed.

(** The second half of [binary_round_aux]: renormalising after a carry. *)
Lemma round_finish (m1 : positive) (e : Z) :
  2 ^ 52 ≤ Z.pos m1 ≤ 2 ^ 53 → -1074 ≤ e ≤ 970 →
  ∃ (m : positive) (c : Z),
    (let '(mrs, e') := shr_fexp prec emax (Z.pos m1) e loc_Exact in
     match shr_m mrs with
     | Z0 => S754_zero false
     | Zpos m =>
         if Z.leb e' (emax - prec) then S754_finite false m e' else S754_infinity false
     | Zneg _ => S754_nan
     end) = S754_finite false m (e + c) ∧
    0 ≤ c ≤ 1 ∧ Z.pos m * 2 ^ c = Z.pos m1 ∧ 2 ^ 52 ≤ Z.pos m < 2 ^ 53.
Proof.
  intros Hm He. destruct (decide (Z.pos m1 = 2 ^ 53)) as [Heq|Hne].
  - rewrite shr_fexp_54 by lia. injection Heq as ->.
    exists (Z.to_pos (2 ^ 52)), 1. cbn [shr_record_of_loc shr_1 shr_m].
    unfold prec, emax. destruct (Z.leb_spec (e + 1) (1024 - 53)); [|lia].
    split; [done|]. split; [lia|]. split; [done|]. done.
  - rewrite shr_fexp_53 by lia. exists m1, 0. cbn [shr_record_of_loc shr_m].
    unfold prec, emax. destruct (Z.leb_spec e (1024 - 53)); [|lia].
    rewrite Z.add_0_r. split; [done|]. split; [lia|]. split; [lia|lia].
Qed.

Lemma round_nearest_even_cases (m : Z) (l : location) :
  round_nearest_even m l = m ∧ (l = loc_Exact ∨ l = loc_Inexact Lt ∨ l = loc_Inexact Eq) ∨
  round_nearest_even m l = m + 1 ∧ (l = loc_Inexact Gt ∨ l = loc_Inexact Eq).
Proof.
  destruct l as [|[]]; cbn; try destruct (Z.even m); auto 6.
Qed.

(** Rounding the quotient [q] with remainder [r] of a division by [d]: the
    result is a normal number at most half a unit in its last place away
    from [q + r / d]. *)
Lemma round_div (q r d e : Z) :
  2 ^ 52 ≤ q < 2 ^ 54 → 0 < d → 0 ≤ r < d → -1074 ≤ e ≤ 900 →
  ∃ (m : positive) (j : Z),
    binary_round_aux prec emax false q e (new_location d r) = S754_finite false m (e + j) ∧
    2 ^ 52 ≤ Z.pos m < 2 ^ 53 ∧ 0 ≤ j ≤ 2 ∧ (j = 2 → q = 2 ^ 54 - 1) ∧
    - (2 ^ j * d) ≤ 2 * (Z.pos m * 2 ^ j * d - (q * d + r)) ≤ 2 ^ j * d.
Proof.
  intros Hq Hd Hr He. rewrite new_location_spec by done.
  destruct q as [|p|p]; try lia.
  set (l := if decide (r = 0) then loc_Exact else loc_Inexact (2 * r ?= d)).
  assert (Hl : (l = loc_Exact → r = 0) ∧ (l = loc_Inexact Lt → 2 * r < d) ∧
               (l = loc_Inexact Eq → 2 * r = d) ∧ (l = loc_Inexact Gt → 2 * r > d) ∧
               (r = 0 → l = loc_Exact) ∧ (r ≠ 0 → l ≠ loc_Exact)).
  { unfold l. destruct (decide (r = 0)).
    - repeat split; intros; congruence || lia.
    - destruct (Z.compare_spec (2 * r) d); repeat split; intros; congruence || lia. }
  clearbody l. destruct Hl as (HlE & HlL & HlQ & HlG & HlE' & HlN).
  unfold binary_round_aux.
  destruct (Z_lt_le_dec (Z.pos p) (2 ^ 53)) as [Hlt|Hge].
  - rewrite shr_fexp_53 by lia. rewrite loc_of_shr_record_of_loc, shr_m_of_loc.
    destruct (round_nearest_even_cases (Z.pos p) l) as [[-> Hc]|[-> Hc]].
    + destruct (round_finish p e) as (m & c & -> & Hc1 & Hc2 & Hc3); [lia|lia|].
      assert (c = 0) as -> by (destruct (decide (c = 0)); [done|];
        assert (c = 1) as -> by lia; change (2 ^ 1) with 2 in Hc2; lia).
      exists m, 0. split; [done|]. split; [done|]. split; [lia|]. split; [lia|].
      change (2 ^ 0) with 1 in *. rewrite Z.mul_1_r in Hc2. rewrite Hc2.
      destruct Hc as [Hc|[Hc|Hc]];
        [specialize (HlE Hc)|specialize (HlL Hc)|specialize (HlQ Hc)]; lia.
    + change (Z.pos p + 1) with (Z.pos (p + 1)).
      destruct (round_finish (p + 1) e) as (m & c & -> & Hc1 & Hc2 & Hc3); [lia|lia|].
      exists m, c. split; [done|]. split; [done|]. split; [lia|]. split; [lia|].
      rewrite Hc2. assert (Hcc : c = 0 ∨ c = 1) by lia.
      destruct Hcc as [-> | ->]; [change (2 ^ 0) with 1|change (2 ^ 1) with 2];
        (destruct Hc as [Hc|Hc]; [specialize (HlG Hc)|specialize (HlQ Hc)]; lia).
  - rewrite shr_fexp_54 by lia.
    assert (Hshr : ∃ (p' : positive) (b s : bool),
      shr_1 (shr_record_of_loc (Z.pos p) l) = Build_shr_record (Z.pos p') b s ∧
      Z.pos p = 2 * Z.pos p' + (if b then 1 else 0) ∧
      (s = false ↔ l = loc_Exact)).
    { destruct p as [p'|p'|]; [exists p', true|exists p', false|cbn in Hge; lia];
        destruct l as [|[]]; (eexists; split; [reflexivity|]; split; [lia|]);
        (split; intros Heq; try discriminate Heq; reflexivity). }
    destruct Hshr as (p' & b & s & -> & Hp & Hs).
    cbn [shr_m].
    set (l' := loc_of_shr_record _).
    assert (Hl' : l' = match b, s with
                       | false, false => loc_Exact
                       | false, true => loc_Inexact Lt
                       | true, false => loc_Inexact Eq
                       | true, true => loc_Inexact Gt
                       end).
    { unfold l'. by destruct b, s. }
    clearbody l'.
    assert (Hp' : 2 ^ 52 ≤ Z.pos p' < 2 ^ 53).
    { change (2 ^ 53) with (2 * 2 ^ 52) in Hge. change (2 ^ 54) with (2 * 2 ^ 53) in Hq.
      destruct b; lia. }
    destruct (round_nearest_even_cases (Z.pos p') l') as [[-> Hc]|[-> Hc]].
    + destruct (round_finish p' (e + 1)) as (m & c & -> & Hc1 & Hc2 & Hc3); [lia|lia|].
      assert (c = 0) as -> by (destruct (decide (c = 0)); [done|];
        assert (c = 1) as -> by lia; change (2 ^ 1) with 2 in Hc2; lia).
      exists m, 1. split; [f_equal; lia|]. split; [done|]. split; [lia|]. split; [lia|].
      change (2 ^ 0) with 1 in *. change (2 ^ 1) with 2. rewrite Z.mul_1_r in Hc2. rewrite Hc2, Hp.
      destruct b, s; subst l'; try (by destruct Hc as [?|[?|?]]); try lia.
      all: assert (r = 0) by (apply HlE, Hs; done); lia.
    + change (Z.pos p' + 1) with (Z.pos (p' + 1)).
      destruct (round_finish (p' + 1) (e + 1)) as (m & c & -> & Hc1 & Hc2 & Hc3); [lia|lia|].
      exists m, (1 + c). split; [f_equal; lia|]. split; [done|]. split; [lia|].
      assert (Hm : Z.pos m * 2 ^ (1 + c) = 2 * (Z.pos p' + 1)).
      { rewrite Z.pow_add_r by lia. change (2 ^ 1) with 2. lia. }
      split.
      { intros Hj. assert (c = 1) as -> by lia. change (2 ^ 1) with 2 in Hc2.
        change (2 ^ 54) with (2 * 2 ^ 53).
        destruct b, s; subst l'; try (by destruct Hc as [?|?]); lia. }
      assert (H2 : 2 ^ (1 + c) = 2 ∨ 2 ^ (1 + c) = 4).
      { assert (Hcc : c = 0 ∨ c = 1) by lia. destruct Hcc as [-> | ->]; auto. }
      rewrite Hm, Hp.
      destruct b, s; subst l'; try (by destruct Hc as [?|?]).
      all: try (destruct H2 as [-> | ->]; lia).
      all: assert (r = 0) by (apply HlE, Hs; done); destruct H2 as [-> | ->]; lia.
Qed.

(** The quotient of two integers below [2^53] is a normal number within
    half a unit in the last place of [a / b]: with [m] the mantissa and [-E]
    the exponent, [|m * b - a * 2^E| <= b / 2]. *)
Lemma float_div_int_error (a b : Z) :
  0 < a < 2 ^ 53 → 0 < b < 2 ^ 53 →
  ∃ (m : positive) (E : Z),
    float_div (float_of_int a) (float_of_int b) = S754_finite false m (- E) ∧
    2 ^ 52 ≤ Z.pos m < 2 ^ 53 ∧ 0 ≤ E ∧
    - b ≤ 2 * (Z.pos m * b - a * 2 ^ E) ≤ b.
Proof.
  intros Ha Hb.
  destruct (float_of_int_pos a Ha) as (m1 & k1 & -> & Hk1 & Hm1 & Hr1).
  destruct (float_of_int_pos b Hb) as (m2 & k2 & -> & Hk2 & Hm2 & Hr2).
  unfold float_div, SFdiv, SFdiv_core_binary, Zdigits2.
  rewrite (digits2_pos_unique m1 53), (digits2_pos_unique m2 53)
    by (change (53 - 1) with 52; lia).
  unfold fexp, SpecFloat.emin, prec, emax.
  replace (Z.min (Z.max (53 + - k1 - (53 + - k2) - 53) (3 - 1024 - 53)) (- k1 - - k2))
    with (k2 - k1 - 53) by lia.
  replace (- k1 - - k2 - (k2 - k1 - 53)) with 53 by lia.
  rewrite Z.shiftl_mul_pow2 by lia.
  pose proof (Z.div_mod (Z.pos m1 * 2 ^ 53) (Z.pos m2) ltac:(lia)) as Hdm.
  pose proof (Z.mod_pos_bound (Z.pos m1 * 2 ^ 53) (Z.pos m2) ltac:(lia)) as Hmod.
  unfold Z.div, Z.modulo in Hdm, Hmod.
  destruct (Z.div_eucl (Z.pos m1 * 2 ^ 53) (Z.pos m2)) as [q r].
  assert (Hq : 2 ^ 52 ≤ q < 2 ^ 54).
  { change (2 ^ 54) with (2 * 2 ^ 53). change (2 ^ 53) with (2 * 2 ^ 52) in *. nia. }
  destruct (round_div q r (Z.pos m2) (k2 - k1 - 53))
    as (m & j & Hres & Hm & Hj & Hj2 & Hbound); [done|lia|lia|lia|].
  change (binary_round_aux 53 1024 (xorb false false)) with (binary_round_aux prec emax false).
  rewrite Hres.
  assert (HE : 0 ≤ 53 + k1 - k2 - j).
  { destruct (Z_lt_le_dec (53 + k1 - k2 - j) 0); [|done]. exfalso.
    assert (k1 = 0) by lia. assert (k2 = 52) by lia. assert (j = 2) by lia. subst.
    specialize (Hj2 eq_refl). change (2 ^ 0) with 1 in *.
    assert (b = 1) by lia. subst b. lia. }
  exists m, (53 + k1 - k2 - j). split; [f_equal; lia|]. split; [done|]. split; [done|].
  set (P := 2 ^ (j + k2)).
  assert (HP : 0 < P) by (apply Z.pow_pos_nonneg; lia).
  assert (H1 : 2 ^ j * Z.pos m2 = P * b).
  { unfold P. rewrite Hm2, Z.pow_add_r by lia. lia. }
  assert (H2 : Z.pos m1 * 2 ^ 53 = P * (a * 2 ^ (53 + k1 - k2 - j))).
  { unfold P. rewrite Hm1.
    replace (a * 2 ^ k1 * 2 ^ 53) with (a * (2 ^ k1 * 2 ^ 53)) by lia.
    rewrite <- Z.pow_add_r by lia.
    replace (2 ^ (j + k2) * (a * 2 ^ (53 + k1 - k2 - j)))
      with (a * (2 ^ (j + k2) * 2 ^ (53 + k1 - k2 - j))) by lia.
    rewrite <- Z.pow_add_r by lia. do 2 f_equal. lia. }
  replace (q * Z.pos m2 + r) with (Z.pos m1 * 2 ^ 53) in Hbound by lia.
  replace (Z.pos m * 2 ^ j * Z.pos m2) with (Z.pos m * (2 ^ j * Z.pos m2)) in Hbound by lia.
  rewrite H1, H2 in Hbound.
  set (X := a * 2 ^ (53 + k1 - k2 - j)) in *. nia.
Qed.

Lemma pos_compare_cont_eq (p q : positive) : Pos.compare_cont Eq p q = (Z.pos p ?= Z.pos q).
Proof. reflexivity. Qed.

(** Comparison of positive finite numbers with mantissas of equal length:
    by exponent, then by mantissa. *)
Lemma float_lt_finite (m1 m2 : positive) (e1 e2 : Z) :
  float_lt (S754_finite false m1 e1) (S754_finite false m2 e2) =
  bool_decide (e1 < e2 ∨ e1 = e2 ∧ Z.pos m1 < Z.pos m2).
Proof.
  unfold float_lt, SFltb, SFcompare. rewrite pos_compare_cont_eq.
  destruct (Z.compare_spec e1 e2); [destruct (Z.compare_spec (Z.pos m1) (Z.pos m2))|..];
    case_bool_decide; done || lia.
Qed.

Lemma float_le_finite (m1 m2 : positive) (e1 e2 : Z) :
  float_le (S754_finite false m1 e1) (S754_finite false m2 e2) =
  bool_decide (e1 < e2 ∨ e1 = e2 ∧ Z.pos m1 ≤ Z.pos m2).
Proof.
  unfold float_le, SFleb, SFcompare. rewrite pos_compare_cont_eq.
  destruct (Z.compare_spec e1 e2); [destruct (Z.compare_spec (Z.pos m1) (Z.pos m2))|..];
    case_bool_decide; done || lia.
Qed.

(** A quotient of integers [a <= b]: its value is at most one. *)
Lemma float_div_int_le_one (a b : Z) :
  0 < a ≤ b → b < 2 ^ 53 →
  ∃ (m : positive) (E : Z),
    float_div (float_of_int a) (float_of_int b) = S754_finite false m (- E) ∧
    2 ^ 52 ≤ Z.pos m < 2 ^ 53 ∧ 52 ≤ E ∧ Z.pos m ≤ 2 ^ E ∧
    - b ≤ 2 * (Z.pos m * b - a * 2 ^ E) ≤ b.
Proof.
  intros Ha Hb.
  destruct (float_div_int_error a b) as (m & E & Heq & Hm & HE & Hbound); [lia|lia|].
  assert (Hle : Z.pos m ≤ 2 ^ E).
  { destruct (Z_lt_le_dec (2 ^ E) (Z.pos m)); [|done]. exfalso.
    assert (0 < 2 ^ E) by (apply Z.pow_pos_nonneg; lia). nia. }
  exists m, E. repeat split; try done; try lia.
  destruct (Z_lt_le_dec E 52); [|done]. exfalso.
  assert (2 ^ E ≤ 2 ^ 51) by (apply Z.pow_le_mono_r; lia).
  change (2 ^ 52) with (2 * 2 ^ 51) in Hm. assert (0 < 2 ^ 51) by done. lia.
Qed.

Lemma float_unit_interval (m : positive) (E : Z) :
  2 ^ 52 ≤ Z.pos m → 52 ≤ E → Z.pos m ≤ 2 ^ E →
  float_le float_zero (S754_finite false m (- E)) = true ∧
  float_le (S754_finite false m (- E)) float_one = true.
Proof.
  intros Hm HE Hle. split; [done|].
  unfold float_one. rewrite float_le_finite. apply bool_decide_eq_true.
  destruct (decide (E = 52)) as [->|]; [right|left; lia]. split; [done|]. exact Hle.
Qed.

Lemma float_div_int_unit (a b : Z) :
  0 < a ≤ b → b < 2 ^ 53 →
  float_le float_zero (float_div (float_of_int a) (float_of_int b)) = true ∧
  float_le (float_div (float_of_int a) (float_of_int b)) float_one = true.
Proof.
  intros Ha Hb. destruct (float_div_int_le_one a b Ha Hb) as (m & E & -> & Hm & HE & Hle & _).
  apply float_unit_interval; lia.
Qed.

Lemma float_div_int_same (a : Z) :
  0 < a < 2 ^ 53 → float_div (float_of_int a) (float_of_int a) = float_one.
Proof.
  intros Ha. destruct (float_div_int_le_one a a) as (m & E & -> & Hm & HE & Hle & Hb); [lia|lia|].
  assert (Z.pos m = 2 ^ E).
  { assert (0 < 2 ^ E) by (apply Z.pow_pos_nonneg; lia). nia. }
  assert (E = 52).
  { destruct (decide (E = 52)); [done|]. exfalso.
    assert (2 ^ 53 ≤ 2 ^ E) by (apply Z.pow_le_mono_r; lia). lia. }
  subst E. unfold float_one. f_equal. lia.
Qed.

Lemma threshold_value : float_lit 72 2 = S754_finite false 6485183463413514 (-53).
Proof. vm_compute. reflexivity. Qed.

(** The comparison with [0.72] on floats decides the comparison of the
    exact ratio with [72/100], as long as the denominator is below [2^48]. *)
Lemma ttr_below_threshold (a b : Z) :
  0 < a ≤ b → b < 2 ^ 48 →
  float_lt (float_div (float_of_int a) (float_of_int b)) (float_lit 72 2)
  = bool_decide (100 * a < 72 * b).
Proof.
  intros Ha Hb. assert (b < 2 ^ 53) by (change (2 ^ 53) with (32 * 2 ^ 48); lia).
  destruct (float_div_int_le_one a b) as (m & E & -> & Hm & HE & Hle & Hbound); [lia|lia|].
  rewrite threshold_value, float_lt_finite.
  assert (Hmb : ∀ c, (c ≤ Z.pos m → c * b ≤ Z.pos m * b) ∧
                     (Z.pos m ≤ c → Z.pos m * b ≤ c * b)) by (intros c; split; nia).
  destruct (decide (E = 52)) as [->|HE52]; [|destruct (decide (E = 53)) as [->|HE53]].
  - assert (Z.pos m = 2 ^ 52) by lia.
    assert (a = b) by (change (2 ^ 48) with 281474976710656 in *;
                       change (2 ^ 52) with 4503599627370496 in *; nia).
    repeat case_bool_decide; lia.
  - change (2 ^ 53) with 9007199254740992 in *. change (2 ^ 48) with 281474976710656 in *.
    pose proof (Hmb 6485183463413514) as [Ha1 Ha2].
    pose proof (Hmb 6485183463413513) as [Ha3 Ha4].
    repeat case_bool_decide; try done; lia.
  - assert (2 ^ 54 ≤ 2 ^ E) by (apply Z.pow_le_mono_r; lia).
    change (2 ^ 53) with 9007199254740992 in *. change (2 ^ 54) with 18014398509481984 in *.
    assert (a * 18014398509481984 ≤ a * 2 ^ E) by nia.
    pose proof (Hmb 9007199254740992) as [Ha1 Ha2].
    repeat case_bool_decide; try done; lia.
Qed.

End FloatFacts.

(** ** MTLD: the scan of the code against the scan of the specification *)

Module Mtld.
Import Py TextAnalyzer FloatFacts.

Lemma set_len_insert_bounds (token : string) (X : gset string) :
  0 < set_len ({[ token ]} ∪ X) ≤ set_len X + 1.
Proof.
  unfold set_len. split.
  - assert (size ({[token]} ∪ X) ≠ 0%nat); [|lia].
    rewrite size_non_empty_iff. intros Hempty.
    assert (token ∈ ({[token]} ∪ X)) as Hin by (apply elem_of_union_l, elem_of_singleton; done).
    rewrite Hempty in Hin. by apply not_elem_of_empty in Hin.
  - pose proof (size_union_alt ({[token]} : gset string) X) as Hs.
    rewrite size_singleton in Hs.
    assert (Hsub : X ∖ {[token]} ⊆ X) by (apply subseteq_difference_l; done).
    apply subseteq_size in Hsub. lia.
Qed.

Lemma mtld_scan_spec (tokens : list string) :
  ∀ (i factors start : Z) (st : Spec.scan_state),
    Spec.segment_count st = i - start →
    Spec.factor_count st = factors →
    0 ≤ set_len (Spec.segment st) ≤ i - start →
    i - start + len tokens < 2 ^ 48 →
    mtld_scan tokens default_threshold i factors start (Spec.segment st)
    = Ok (Spec.factor_count (foldl Spec.scan_step st tokens)).
Proof.
  induction tokens as [|token rest IH]; intros i factors start st Hcount Hfactors Hsize Hlen.
  - cbn. by rewrite Hfactors.
  - cbn [mtld_scan foldl]. unfold len in Hlen. cbn [length] in Hlen.
    pose proof (set_len_insert_bounds token (Spec.segment st)) as Hins.
    unfold int_truediv. destruct (decide (i - start + 1 = 0)) as [|_]; [lia|].
    cbn [mbind res_bind]. unfold default_threshold.
    rewrite ttr_below_threshold by lia.
    unfold Spec.scan_step at 2. unfold Spec.below_threshold. rewrite Hcount.
    case_bool_decide.
    + rewrite <- (IH (i + 1) (factors + 1) (i + 1)
        {| Spec.segment := ∅; Spec.segment_count := 0;
           Spec.factor_count := Spec.factor_count st + 1 |});
        cbn; unfold len; try done; try lia.
      unfold set_len. rewrite size_empty. lia.
    + rewrite <- (IH (i + 1) factors start
        {| Spec.segment := {[token]} ∪ Spec.segment st; Spec.segment_count := i - start + 1;
           Spec.factor_count := Spec.factor_count st |});
        cbn; unfold len; try done; lia.
Qed.

Lemma prefix_snoc_cases {A} (p l : list A) (x : A) :
  p `prefix_of` l ++ [x] → p = l ++ [x] ∨ p `prefix_of` l.
Proof.
  intros [k Hk]. destruct k as [|y k _] using rev_ind.
  - left. by rewrite app_nil_r in Hk.
  - right. rewrite app_assoc in Hk. apply app_inj_tail in Hk as [-> _]. by exists k.
Qed.

Lemma scan_snoc (tokens : list string) (token : string) :
  Spec.scan (tokens ++ [token]) = Spec.scan_step (Spec.scan tokens) token.
Proof. unfold Spec.scan. by rewrite foldl_snoc. Qed.

Lemma scan_decomposition (tokens : list string) :
  ∃ (fs : list (list string)) (trailing : list string),
    tokens = concat fs ++ trailing ∧
    Forall Spec.factor fs ∧
    Spec.partial_segment trailing ∧
    Spec.factor_count (Spec.scan tokens) = len fs ∧
    Spec.segment (Spec.scan tokens) = set trailing ∧
    Spec.segment_count (Spec.scan tokens) = len trailing.
Proof.
  induction tokens as [|token tokens IH] using rev_ind.
  - exists [], []. repeat split; try done.
    intros p Hp Hpre. by apply prefix_nil_inv in Hpre.
  - destruct IH as (fs & cur & Heq & Hfs & Hcur & Hk & Hseg & Hcount).
    rewrite scan_snoc. unfold Spec.scan_step. rewrite Hseg, Hcount, Hk.
    assert (Hbelow : Spec.below_threshold (set_len ({[token]} ∪ set cur)) (len cur + 1)
                     = Spec.ttr_below (cur ++ [token])).
    { unfold Spec.ttr_below, set, len. rewrite list_to_set_app_L, length_app. cbn.
      rewrite (right_id_L ∅ (∪)), (comm_L (∪)). do 2 f_equal. lia. }
    rewrite Hbelow. destruct (Spec.ttr_below (cur ++ [token])) eqn:Httr.
    + exists (fs ++ [cur ++ [token]]), []. cbn.
      split; [rewrite concat_app, Heq; cbn; by rewrite !app_nil_r, app_assoc|].
      split; [|split; [|split; [|done]]].
      * apply Forall_app. split; [done|]. apply Forall_singleton. split; [done|].
        intros p Hp Hpre Hne. apply prefix_snoc_cases in Hpre as [->|Hpre]; [done|].
        by apply Hcur.
      * intros p Hp Hpre. by apply prefix_nil_inv in Hpre.
      * unfold len. rewrite length_app. cbn. lia.
    + exists fs, (cur ++ [token]). cbn.
      split; [by rewrite Heq, app_assoc|].
      split; [done|]. split; [|split; [done|split]].
      * intros p Hp Hpre. apply prefix_snoc_cases in Hpre as [->|Hpre]; [done|].
        by apply Hcur.
      * unfold set. rewrite list_to_set_app_L. cbn.
        by rewrite (right_id_L ∅ (∪)), (comm_L (∪)).
      * unfold len. rewrite length_app. cbn. lia.
Qed.

Lemma factor_not_nil (f : list string) : Spec.factor f → f ≠ [].
Proof. intros [Hb _] ->. done. Qed.

Lemma factor_not_in_partial (f rest seg : list string) :
  Spec.factor f → Spec.partial_segment seg → seg ≠ f ++ rest.
Proof.
  intros Hf Hseg ->. destruct Hf as [Hb Hmin].
  rewrite Hseg in Hb; [done| |by exists rest]. intros ->. done.
Qed.

Lemma factor_prefix_eq (f1 f2 : list string) :
  Spec.factor f1 → Spec.factor f2 → f1 `prefix_of` f2 → f1 = f2.
Proof.
  intros Hf1 [_ Hmin] Hpre. destruct (decide (f1 = f2)) as [|Hne]; [done|].
  destruct Hf1 as [Hb Hmin1]. rewrite Hmin in Hb; [done| |done|done].
  intros ->. done.
Qed.

(** The decomposition into factors and a trailing segment is unique. *)
Lemma factorisation_unique (fs1 : list (list string)) :
  ∀ (fs2 : list (list string)) (tr1 tr2 : list string),
    concat fs1 ++ tr1 = concat fs2 ++ tr2 →
    Forall Spec.factor fs1 → Spec.partial_segment tr1 →
    Forall Spec.factor fs2 → Spec.partial_segment tr2 →
    fs1 = fs2 ∧ tr1 = tr2.
Proof.
  induction fs1 as [|f1 fs1 IH]; intros [|f2 fs2] tr1 tr2 Heq H1 Ht1 H2 Ht2.
  - done.
  - cbn in Heq. apply Forall_cons in H2 as [Hf2 _]. rewrite <- app_assoc in Heq.
    by destruct (factor_not_in_partial f2 (concat fs2 ++ tr2) tr1).
  - cbn in Heq. apply Forall_cons in H1 as [Hf1 _]. rewrite <- app_assoc in Heq.
    by destruct (factor_not_in_partial f1 (concat fs1 ++ tr1) tr2).
  - cbn in Heq. rewrite <- !app_assoc in Heq.
    apply Forall_cons in H1 as [Hf1 H1]. apply Forall_cons in H2 as [Hf2 H2].
    assert (f1 = f2) as ->.
    { destruct (prefix_weak_total f1 f2 (f1 ++ concat fs1 ++ tr1)) as [Hp|Hp].
      - by eexists.
      - rewrite Heq. by eexists.
      - by apply factor_prefix_eq.
      - symmetry. by apply factor_prefix_eq. }
    apply app_inv_head in Heq. destruct (IH fs2 tr1 tr2) as [-> ->]; done.
Qed.

(** [_calculate_mtld] computes the value of the specification and does not
    raise. *)
Lemma calculate_mtld_eq (tokens : list string) :
  len tokens < 2 ^ 48 →
  _calculate_mtld tokens default_threshold = Ok (Spec.mtld tokens).
Proof.
  intros Hlen. unfold _calculate_mtld, Spec.mtld, Spec.mtld_value.
  destruct (len tokens <? 50); [done|].
  pose proof (mtld_scan_spec tokens 0 0 0
    {| Spec.segment := ∅; Spec.segment_count := 0; Spec.factor_count := 0 |}) as Hscan.
  cbn in Hscan. rewrite Hscan; [|done|done|unfold set_len; rewrite size_empty; lia|lia].
  fold (Spec.scan tokens). cbn [mbind res_bind].
  destruct (decide (Spec.factor_count (Spec.scan tokens) = 0)) as [->|Hne]; [done|].
  destruct (Z.eqb_spec (Spec.factor_count (Spec.scan tokens)) 0); [done|].
  unfold int_truediv. destruct (decide _); [done|]. done.
Qed.

(** C1. For a sequence of fewer than [2^48] tokens, [_calculate_mtld]
    returns without raising, and its result is the one the specification
    defines: [0] below 50 tokens; otherwise the sequence splits, from left
    to right, into completed factors -- each closed at the first token at which
    the type-token ratio of the segment, distinct tokens over tokens, is
    strictly below [72/100] -- followed by a trailing partial segment whose
    ratio never drops below it, and in one way only; the result is the full
    length when no factor was completed, and else the full length, trailing
    segment included, divided by the number of factors. *)
Theorem calculate_mtld_piecewise (tokens : list string) :
  len tokens < 2 ^ 48 →
  _calculate_mtld tokens default_threshold = Ok (Spec.mtld tokens) ∧
  ∃ (fs : list (list string)) (trailing : list string),
    tokens = concat fs ++ trailing ∧
    Forall Spec.factor fs ∧
    Spec.partial_segment trailing ∧
    (∀ fs' trailing',
       tokens = concat fs' ++ trailing' →
       Forall Spec.factor fs' → Spec.partial_segment trailing' →
       fs' = fs ∧ trailing' = trailing) ∧
    Spec.mtld tokens =
      if len tokens <? 50 then Int 0
      else if len fs =? 0 then Int (len tokens)
      else Float (float_div (float_of_int (len tokens)) (float_of_int (len fs))).
Proof.
  intros Hlen. split; [by apply calculate_mtld_eq|].
  destruct (scan_decomposition tokens) as (fs & trailing & Heq & Hfs & Htr & Hk & _ & _).
  exists fs, trailing. split; [done|]. split; [done|]. split; [done|]. split.
  - intros fs' trailing' Heq' Hfs' Htr'.
    apply (factorisation_unique fs' fs trailing' trailing); congruence || done.
  - unfold Spec.mtld, Spec.mtld_value. by rewrite Hk.
Qed.

(** Fifty times the same token: a factor closes at every second token. *)
Lemma calculate_mtld_piecewise_witness :
  _calculate_mtld (replicate 50 "a") default_threshold = Ok (Float (float_of_int 2)).
Proof.
  destruct (calculate_mtld_piecewise (replicate 50 "a")) as [Hcode _].
  - vm_compute. reflexivity.
  - rewrite Hcode. vm_compute. reflexivity.
Defined.

End Mtld.

(** ** Frequency ranking: [sorted], [Counter] and [get_top_words] *)

Module Ranking.
Import Py TextAnalyzer.

Section sorted_with.
Context {A : Type} (before : A → A → bool).

Lemma insert_sorted_perm (x : A) (l : list A) : insert_sorted before x l ≡ₚ x :: l.
Proof.
  induction l as [|y l IH]; cbn; [done|].
  destruct (before y x); [|done]. rewrite IH. apply Permutation_swap.
Qed.

Lemma sorted_with_perm (l : list A) : sorted_with before l ≡ₚ l.
Proof.
  induction l as [|x l IH]; cbn; [done|].
  fold (sorted_with before l). by rewrite insert_sorted_perm, IH.
Qed.

End sorted_with.

Section stable.
Context {A : Type} (key : A → Z) (R0 : relation A).

Lemma insert_sorted_stable (x : A) (s : list A) :
  StronglySorted (key_desc_then key R0) s → Forall (R0 x) s →
  StronglySorted (key_desc_then key R0) (insert_sorted (λ y x, key x <? key y) x s).
Proof.
  induction s as [|y s IH]; intros Hs Hx; cbn.
  - repeat constructor.
  - apply StronglySorted_inv in Hs as [Hs Hy]. apply Forall_cons in Hx as [Hxy Hx].
    destruct (Z.ltb_spec (key x) (key y)) as [Hlt|Hge].
    + constructor; [by apply IH|].
      rewrite insert_sorted_perm. constructor; [by left|done].
    + constructor; [by constructor|].
      constructor.
      * destruct (decide (key x = key y)); [right; done|left; lia].
      * rewrite Forall_forall in Hy, Hx |- *. intros z Hz.
        specialize (Hy z Hz). specialize (Hx z Hz).
        destruct Hy as [Hy|[Hy _]]; [left; lia|].
        destruct (decide (key x = key z)); [right; done|left; lia].
Qed.

Lemma sorted_by_key_desc_stable (l : list A) :
  StronglySorted R0 l → StronglySorted (key_desc_then key R0) (sorted_by_key_desc key l).
Proof.
  induction l as [|x l IH]; intros Hl; cbn; [constructor|].
  apply StronglySorted_inv in Hl as [Hl Hx].
  apply insert_sorted_stable; [by apply IH|].
  fold (sorted_with (λ y x, key x <? key y) l). by rewrite sorted_with_perm.
Qed.

End stable.

Lemma Counter_snoc (l : list string) (k : string) :
  Counter (l ++ [k]) = counter_incr k (Counter l).
Proof. unfold Counter. by rewrite foldl_snoc. Qed.

Lemma counter_incr_keys (k : string) (c : list (string * Z)) :
  (counter_incr k c).*1 = if decide (k ∈ c.*1) then c.*1 else c.*1 ++ [k].
Proof.
  induction c as [|[k' n] c IH]; cbn.
  - rewrite decide_False; [done|]. apply not_elem_of_nil.
  - destruct (decide (k = k')) as [->|Hne]; cbn.
    + rewrite decide_True; [done|]. apply elem_of_cons. by left.
    + rewrite IH. destruct (decide (k ∈ c.*1)) as [Hin|Hnin].
      * rewrite decide_True; [done|]. apply elem_of_cons. by right.
      * rewrite decide_False; [done|]. rewrite elem_of_cons. intros [?|?]; done.
Qed.

Lemma counter_get_incr (k x : string) (c : list (string * Z)) :
  counter_get (counter_incr k c) x = counter_get c x + (if decide (x = k) then 1 else 0).
Proof.
  induction c as [|[k' n] c IH]; cbn.
  - destruct (decide (x = k)); lia.
  - destruct (decide (k = k')) as [->|Hne]; cbn.
    + destruct (decide (x = k')); lia.
    + destruct (decide (x = k')) as [->|Hne'].
      * rewrite decide_False by done. lia.
      * apply IH.
Qed.

Lemma occurrences_snoc (x k : string) (l : list string) :
  Spec.occurrences x (l ++ [k]) = Spec.occurrences x l + (if decide (x = k) then 1 else 0).
Proof.
  unfold Spec.occurrences, len. rewrite filter_app, length_app, filter_cons, filter_nil.
  destruct (decide (k = x)) as [->|Hne].
  - rewrite decide_True by done. cbn. lia.
  - rewrite decide_False by done. cbn. lia.
Qed.

Lemma counter_get_Counter (l : list string) (x : string) :
  counter_get (Counter l) x = Spec.occurrences x l.
Proof.
  induction l as [|k l IH] using rev_ind; [done|].
  by rewrite Counter_snoc, counter_get_incr, occurrences_snoc, IH.
Qed.

Lemma occurrences_pos (x : string) (l : list string) : x ∈ l ↔ 0 < Spec.occurrences x l.
Proof.
  unfold Spec.occurrences, len. split.
  - intros Hin. assert (x ∈ filter (λ y, y = x) l) as Hf by (by apply list_elem_of_filter).
    destruct (filter (λ y, y = x) l); [by apply not_elem_of_nil in Hf|cbn; lia].
  - intros Hpos. destruct (filter (λ y, y = x) l) as [|y f] eqn:Hf; [cbn in Hpos; lia|].
    assert (y ∈ filter (λ y, y = x) l) as Hy by (rewrite Hf; apply elem_of_cons; by left).
    apply list_elem_of_filter in Hy as [-> Hy]. done.
Qed.

Lemma first_index_snoc_in (x k : string) (l : list string) :
  x ∈ l → Spec.first_index x (l ++ [k]) = Spec.first_index x l.
Proof.
  induction l as [|y l IH]; intros Hin; [by apply not_elem_of_nil in Hin|].
  cbn. destruct (decide (x = y)); [done|]. f_equal. apply IH.
  apply elem_of_cons in Hin as [?|?]; done.
Qed.

Lemma first_index_snoc_new (k : string) (l : list string) :
  k ∉ l → Spec.first_index k (l ++ [k]) = length l.
Proof.
  induction l as [|y l IH]; intros Hnin; cbn.
  - by rewrite decide_True.
  - rewrite not_elem_of_cons in Hnin. destruct Hnin as [Hne Hnin].
    rewrite decide_False by done. f_equal. by apply IH.
Qed.

Lemma first_index_lt (x : string) (l : list string) :
  x ∈ l → (Spec.first_index x l < length l)%nat.
Proof.
  induction l as [|y l IH]; intros Hin; [by apply not_elem_of_nil in Hin|].
  cbn. destruct (decide (x = y)); [lia|].
  apply elem_of_cons in Hin as [?|?]; [done|]. specialize (IH H). lia.
Qed.

Lemma first_index_inj (x y : string) (l : list string) :
  x ∈ l → Spec.first_index x l = Spec.first_index y l → x = y.
Proof.
  induction l as [|z l IH]; intros Hin Heq; [by apply not_elem_of_nil in Hin|].
  cbn in Heq. destruct (decide (x = z)) as [->|Hx], (decide (y = z)) as [->|Hy]; try done.
  apply IH; [|lia]. apply elem_of_cons in Hin as [?|?]; done.
Qed.

Lemma first_index_sorted_snoc (ks l : list string) (k : string) :
  (∀ x, x ∈ ks → x ∈ l) →
  StronglySorted (λ x y, Spec.first_index x l < Spec.first_index y l)%nat ks →
  StronglySorted (λ x y, Spec.first_index x (l ++ [k]) < Spec.first_index y (l ++ [k]))%nat ks.
Proof.
  induction ks as [|a ks IH]; intros Hin Hs; [constructor|].
  apply StronglySorted_inv in Hs as [Hs Ha].
  constructor.
  - apply IH; [|done]. intros x Hx. apply Hin, elem_of_cons. by right.
  - rewrite Forall_forall in Ha |- *. intros y Hy.
    rewrite !first_index_snoc_in; [by apply Ha| |].
    + apply Hin, elem_of_cons. by right.
    + apply Hin, elem_of_cons. by left.
Qed.

(** The keys of a [Counter] are the distinct elements, in the order of
    their first occurrence. *)
Lemma Counter_keys (l : list string) :
  NoDup (Counter l).*1 ∧
  (∀ x, x ∈ (Counter l).*1 ↔ x ∈ l) ∧
  StronglySorted (λ x y, Spec.first_index x l < Spec.first_index y l)%nat (Counter l).*1.
Proof.
  induction l as [|k l (Hnd & Hin & Hs)] using rev_ind.
  - cbn. split; [constructor|]. split; [done|constructor].
  - rewrite Counter_snoc, counter_incr_keys.
    assert (Hmono : StronglySorted
      (λ x y, Spec.first_index x (l ++ [k]) < Spec.first_index y (l ++ [k]))%nat (Counter l).*1).
    { apply first_index_sorted_snoc; [|done]. intros x. apply Hin. }
    destruct (decide (k ∈ (Counter l).*1)) as [Hk|Hk].
    + split; [done|]. split; [|done].
      intros x. rewrite Hin, elem_of_app, list_elem_of_singleton.
      split; [by left|]. intros [? | ->]; [done|]. by apply Hin.
    + split; [|split].
      * apply NoDup_app. split; [done|]. split; [|apply NoDup_singleton].
        intros x Hx ->%list_elem_of_singleton. done.
      * intros x. rewrite !elem_of_app, Hin. done.
      * apply StronglySorted_app_2; [|done|repeat constructor].
        intros x y Hx ->%list_elem_of_singleton.
        assert (k ∉ l) by (by rewrite <- Hin).
        rewrite first_index_snoc_new by done.
        rewrite first_index_snoc_in by (by apply Hin).
        apply first_index_lt. by apply Hin.
Qed.

Lemma Counter_item (l : list string) (x : string) (n : Z) :
  (x, n) ∈ Counter l → x ∈ l ∧ n = Spec.occurrences x l.
Proof.
  intros Hin. destruct (Counter_keys l) as (Hnd & Hkeys & _).
  split.
  - apply Hkeys. by apply (list_elem_of_fmap_2 fst) in Hin.
  - rewrite <- counter_get_Counter. revert Hnd Hin. generalize (Counter l) as c.
    induction c as [|[k m] c IH]; intros Hnd Hin; [by apply not_elem_of_nil in Hin|].
    cbn in *. apply NoDup_cons in Hnd as [Hk Hnd].
    apply elem_of_cons in Hin as [[= -> ->]|Hin].
    + by rewrite decide_True.
    + rewrite decide_False; [by apply IH|].
      intros ->. apply Hk. by apply (list_elem_of_fmap_2 fst) in Hin.
Qed.

Lemma StronglySorted_fmap_inv {A B} (f : A → B) (R : relation B) (l : list A) :
  StronglySorted R (f <$> l) → StronglySorted (λ x y, R (f x) (f y)) l.
Proof.
  induction l as [|x l IH]; intros Hs; [constructor|].
  csimpl in Hs. apply StronglySorted_inv in Hs as [Hs Hx].
  constructor; [by apply IH|].
  apply Forall_forall. intros y Hy. rewrite Forall_forall in Hx.
  by apply Hx, list_elem_of_fmap_2.
Qed.

Lemma Counter_has (l : list string) (x : string) :
  x ∈ l → (x, Spec.occurrences x l) ∈ Counter l.
Proof.
  intros Hin. destruct (Counter_keys l) as (_ & Hkeys & _).
  apply Hkeys, list_elem_of_fmap in Hin as ([k n] & -> & Hin). cbn.
  by destruct (Counter_item l k n Hin) as [_ <-].
Qed.

Lemma Counter_length (l : list string) : length (Counter l) = size (set l).
Proof.
  destruct (Counter_keys l) as (Hnd & Hkeys & _).
  rewrite <- (length_fmap fst), <- (size_list_to_set (C:=gset string)) by done.
  f_equal. apply set_eq. intros x. unfold set. rewrite !elem_of_list_to_set. apply Hkeys.
Qed.

Lemma most_common_ranking (l : list string) (n : Z) :
  let top := most_common n (Counter l) in
  length top = Nat.min (Z.to_nat n) (size (set l)) ∧
  NoDup top.*1 ∧
  (∀ t c, (t, c) ∈ top → t ∈ l ∧ c = Spec.occurrences t l ∧ 0 < c) ∧
  StronglySorted (Spec.ranks_before l) top ∧
  (∀ t, t ∈ l → t ∉ top.*1 →
     ∀ x, x ∈ top → Spec.ranks_before l x (t, Spec.occurrences t l)).
Proof.
  intros top. unfold most_common, slice_to in top.
  set (S := sorted_by_key_desc snd (Counter l)) in *.
  assert (Hperm : S ≡ₚ Counter l) by apply sorted_with_perm.
  destruct (Counter_keys l) as (Hnd & Hkeys & Hord).
  assert (HS : StronglySorted (Spec.ranks_before l) S).
  { apply (sorted_by_key_desc_stable snd
      (λ x y, Spec.first_index x.1 l < Spec.first_index y.1 l)%nat).
    by apply StronglySorted_fmap_inv in Hord. }
  assert (Hsplit : S = top ++ drop (Z.to_nat n) S) by (symmetry; apply take_drop).
  split; [|split; [|split; [|split]]].
  - unfold top. by rewrite length_take, Hperm, Counter_length.
  - apply (sublist_NoDup top.*1 S.*1).
    + by rewrite Hperm.
    + unfold top. rewrite fmap_take. apply sublist_take.
  - intros t c Hin. apply subseteq_take in Hin. rewrite Hperm in Hin.
    destruct (Counter_item l t c Hin) as [Ht ->]. split; [done|]. split; [done|].
    by apply occurrences_pos.
  - rewrite Hsplit in HS. by apply StronglySorted_app_1_l in HS.
  - intros t Ht Hnot x Hx.
    assert (Hin : (t, Spec.occurrences t l) ∈ S) by (rewrite Hperm; by apply Counter_has).
    rewrite Hsplit in Hin, HS. apply elem_of_app in Hin as [Hin|Hin].
    + destruct Hnot. by apply (list_elem_of_fmap_2 fst) in Hin.
    + by apply (StronglySorted_app_1_elem_of _ _ _ _ _ HS).
Qed.

(** C2. With the exclusion enabled, [get_top_words] returns at most [n]
    pairs -- exactly [n] when that many distinct tokens remain -- of distinct
    tokens; every returned token occurs in the input and is not in the
    exclusion set, and its count is the number of its occurrences in the
    filtered sequence, hence never zero; the pairs are in descending order
    of count, equal counts in the order of first occurrence in the filtered
    sequence; every remaining token that is left out ranks after every
    returned one; and the top 2 of [b a b a c] is [(b, 2)] before [(a, 2)]. *)
Theorem get_top_words_ranking (tokens : list string) (n : Z) :
  let kept := filter (λ t, t ∉ common) tokens in
  let top := get_top_words tokens n true in
  (length top ≤ Z.to_nat n)%nat ∧
  length top = Nat.min (Z.to_nat n) (size (set kept)) ∧
  NoDup top.*1 ∧
  (∀ t c, (t, c) ∈ top →
     t ∈ tokens ∧ (t ∉ common) ∧ c = Spec.occurrences t kept ∧ 0 < c) ∧
  StronglySorted (Spec.ranks_before kept) top ∧
  (∀ t, t ∈ kept → t ∉ top.*1 →
     ∀ x, x ∈ top → Spec.ranks_before kept x (t, Spec.occurrences t kept)) ∧
  get_top_words ["b"; "a"; "b"; "a"; "c"] 2 true = [("b", 2); ("a", 2)].
Proof.
  intros kept top.
  destruct (most_common_ranking kept n) as (Hlen & Hnd & Hitems & Hsorted & Htop).
  change (most_common n (Counter kept)) with top in Hlen, Hnd, Hitems, Hsorted, Htop.
  split; [rewrite Hlen; apply Nat.le_min_l|]. split; [done|]. split; [done|].
  split; [|split; [done|split; [done|]]].
  - intros t c Hin. destruct (Hitems t c Hin) as (Ht & Hc & Hpos).
    apply list_elem_of_filter in Ht as [Hnc Ht]. done.
  - vm_compute. reflexivity.
Qed.

End Ranking.

(** ** Vocabulary overlap *)

Module Overlap.
Import Py TextAnalyzer.

Lemma set_len_nonneg (X : gset string) : 0 ≤ set_len X.
Proof. unfold set_len. lia. Qed.

Lemma set_len_zero (X : gset string) : set_len X = 0 ↔ X = ∅.
Proof.
  unfold set_len. split.
  - intros Hs. apply leibniz_equiv, size_empty_iff. lia.
  - intros ->. by rewrite size_empty.
Qed.

Lemma int_truediv_ok (a b : Z) : b ≠ 0 → int_truediv a b = Ok (Spec.ratio a b).
Proof. intros Hb. unfold int_truediv. by rewrite decide_False. Qed.

Lemma int_truediv_zero (a : Z) : int_truediv a 0 = Raise ZeroDivisionError.
Proof. done. Qed.

Lemma overlap_percentage_of_spec (vocab1 vocab2 : gset string) :
  overlap_percentage_of (vocab1 ∩ vocab2) vocab1 = Ok (Spec.overlap_percentage vocab1 vocab2).
Proof.
  unfold overlap_percentage_of, Spec.overlap_percentage.
  destruct (decide (vocab1 = ∅)) as [|Hne]; [done|].
  rewrite int_truediv_ok; [done|]. by rewrite set_len_zero.
Qed.

(** What [calculate_vocabulary_overlap] returns, field by field; it never
    raises. *)
Lemma calculate_vocabulary_overlap_eq (h : hash_order) (tokens1 tokens2 : list string) :
  calculate_vocabulary_overlap h tokens1 tokens2 =
  Ok {| shared_words := set_len (set tokens1 ∩ set tokens2);
        unique_to_first := set_len (set tokens1 ∖ set tokens2);
        unique_to_second := set_len (set tokens2 ∖ set tokens1);
        jaccard_similarity := Spec.jaccard (set tokens1) (set tokens2);
        overlap_percentage_first := Spec.overlap_percentage (set tokens1) (set tokens2);
        overlap_percentage_second := Spec.overlap_percentage (set tokens2) (set tokens1);
        shared_words_list := slice_to 100 (sorted (h (set tokens1 ∩ set tokens2))) |}.
Proof.
  unfold calculate_vocabulary_overlap. cbv zeta.
  rewrite overlap_percentage_of_spec.
  replace (overlap_percentage_of (set tokens1 ∩ set tokens2) (set tokens2))
    with (Ok (Spec.overlap_percentage (set tokens2) (set tokens1)))
    by (rewrite (comm_L (∩)); symmetry; apply overlap_percentage_of_spec).
  unfold Spec.jaccard.
  destruct (decide (set tokens1 ∪ set tokens2 = ∅)) as [He|Hne].
  - apply empty_union_L in He. rewrite decide_True by done. done.
  - rewrite decide_False by (by rewrite <- empty_union_L).
    rewrite int_truediv_ok; [done|]. by rewrite set_len_zero.
Qed.

Lemma set_len_partition (X Y : gset string) :
  set_len (X ∩ Y) + set_len (X ∖ Y) = set_len X.
Proof.
  unfold set_len. rewrite <- Nat2Z.inj_add, <- size_union by set_solver.
  do 2 f_equal. apply set_eq. intros x.
  rewrite elem_of_union, elem_of_intersection, elem_of_difference.
  destruct (decide (x ∈ Y)); naive_solver.
Qed.

Lemma set_len_union (X Y : gset string) :
  set_len (X ∪ Y) = set_len (X ∩ Y) + set_len (X ∖ Y) + set_len (Y ∖ X).
Proof.
  rewrite set_len_partition. unfold set_len.
  rewrite <- Nat2Z.inj_add. f_equal. apply size_union_alt.
Qed.

(** C10. The counts returned by [calculate_vocabulary_overlap] partition
    the vocabularies: shared plus unique-to-first is the size of the first
    vocabulary, shared plus unique-to-second the size of the second, and the
    size of the union, which is the denominator of the Jaccard similarity,
    is the sum of the three counts. *)
Theorem vocabulary_counts_partition (h : hash_order) (tokens1 tokens2 : list string) :
  ∃ r, calculate_vocabulary_overlap h tokens1 tokens2 = Ok r ∧
    shared_words r + unique_to_first r = set_len (set tokens1) ∧
    shared_words r + unique_to_second r = set_len (set tokens2) ∧
    set_len (set tokens1 ∪ set tokens2)
      = shared_words r + unique_to_first r + unique_to_second r ∧
    jaccard_similarity r =
      (if decide (set tokens1 = ∅ ∧ set tokens2 = ∅) then Int 0
       else Float (float_round
                     (Spec.ratio (shared_words r)
                        (shared_words r + unique_to_first r + unique_to_second r)) 4)).
Proof.
  eexists. split; [apply calculate_vocabulary_overlap_eq|]. cbn.
  split; [apply set_len_partition|].
  split; [rewrite (comm_L (∩)); apply set_len_partition|].
  split; [apply set_len_union|].
  unfold Spec.jaccard. by rewrite <- set_len_union.
Qed.

(** C6. [calculate_vocabulary_overlap] never raises; its Jaccard similarity
    is |intersection| / |union| rounded to 4 decimals, and [0] when both
    vocabularies are empty; its overlap percentage of the first vocabulary is
    shared / |vocab1| x 100 rounded to 2 decimals, and [0] when that
    vocabulary is empty, and likewise for the second. For
    [good truth form] against [truth form virtue] it returns 2 shared words,
    Jaccard 0.5 and both percentages 66.67. *)
Theorem vocabulary_overlap_formulas (h : hash_order) (tokens1 tokens2 : list string) :
  let vocab1 := set tokens1 in
  let vocab2 := set tokens2 in
  (∃ r, calculate_vocabulary_overlap h tokens1 tokens2 = Ok r ∧
     shared_words r = set_len (vocab1 ∩ vocab2) ∧
     jaccard_similarity r =
       (if decide (vocab1 = ∅ ∧ vocab2 = ∅) then Int 0
        else Float (float_round
                      (Spec.ratio (set_len (vocab1 ∩ vocab2)) (set_len (vocab1 ∪ vocab2))) 4)) ∧
     overlap_percentage_first r =
       (if decide (vocab1 = ∅) then Int 0
        else Float (float_round
                      (float_mul (Spec.ratio (shared_words r) (set_len vocab1))
                                 (float_of_int 100)) 2)) ∧
     overlap_percentage_second r =
       (if decide (vocab2 = ∅) then Int 0
        else Float (float_round
                      (float_mul (Spec.ratio (shared_words r) (set_len vocab2))
                                 (float_of_int 100)) 2))) ∧
  (∃ r, calculate_vocabulary_overlap h ["good"; "truth"; "form"] ["truth"; "form"; "virtue"]
        = Ok r ∧
     shared_words r = 2 ∧
     jaccard_similarity r = Float (float_lit 5 1) ∧
     overlap_percentage_first r = Float (float_lit 6667 2) ∧
     overlap_percentage_second r = Float (float_lit 6667 2)).
Proof.
  intros vocab1 vocab2. split.
  - eexists. split; [apply calculate_vocabulary_overlap_eq|]. cbn.
    split; [done|]. split; [done|]. split; [done|].
    unfold Spec.overlap_percentage. by rewrite (comm_L (∩)).
  - eexists. split; [apply calculate_vocabulary_overlap_eq|]. cbn.
    split; [|split; [|split]]; vm_compute; reflexivity.
Qed.

(** C7. Swapping the two sequences leaves the shared count and the Jaccard
    similarity unchanged and exchanges the two directional percentages,
    whatever the set iteration order of either call; and the two percentages
    of one call differ in general: [a] against [a b] gives 100.0 and 50.0. *)
Theorem vocabulary_overlap_symmetry (h1 h2 : hash_order) (A B : list string) :
  (∃ r1 r2,
     calculate_vocabulary_overlap h1 A B = Ok r1 ∧
     calculate_vocabulary_overlap h2 B A = Ok r2 ∧
     shared_words r1 = shared_words r2 ∧
     jaccard_similarity r1 = jaccard_similarity r2 ∧
     overlap_percentage_first r1 = overlap_percentage_second r2 ∧
     overlap_percentage_second r1 = overlap_percentage_first r2) ∧
  (∃ r, calculate_vocabulary_overlap h1 ["a"] ["a"; "b"] = Ok r ∧
     overlap_percentage_first r = Float (float_lit 1000 1) ∧
     overlap_percentage_second r = Float (float_lit 500 1) ∧
     overlap_percentage_first r ≠ overlap_percentage_second r).
Proof.
  split.
  - do 2 eexists. split; [apply calculate_vocabulary_overlap_eq|].
    split; [apply calculate_vocabulary_overlap_eq|]. cbn.
    split; [by rewrite (comm_L (∩))|]. split; [|done].
    unfold Spec.jaccard. rewrite (comm_L (∩) (set A) (set B)), (comm_L (∪) (set A) (set B)).
    destruct (decide (set A = ∅ ∧ set B = ∅)) as [[? ?]|Hne].
    + by rewrite decide_True.
    + rewrite decide_False; [done|]. intros [? ?]. by apply Hne.
  - eexists. split; [apply calculate_vocabulary_overlap_eq|]. cbn.
    split; [vm_compute; reflexivity|]. split; [vm_compute; reflexivity|].
    vm_compute. discriminate.
Qed.

End Overlap.

(** ** Lexical diversity *)

Module Diversity.
Import Py TextAnalyzer FloatFacts.

Lemma round_half_even_bounds (n d c : Z) :
  0 < d → 0 ≤ n ≤ c * d → 0 ≤ round_half_even n d ≤ c.
Proof.
  intros Hd Hn. unfold round_half_even.
  pose proof (Z.div_mod n d ltac:(lia)) as Hdm.
  pose proof (Z.mod_pos_bound n d Hd) as Hmod.
  assert (0 ≤ n / d) by (apply Z.div_pos; lia).
  assert (n / d ≤ c) by (apply Z.div_le_upper_bound; lia).
  destruct (Z.compare_spec (2 * (n mod d)) d); [destruct (Z.even (n / d))|..]; try lia.
  all: destruct (decide (n / d = c)) as [Heq|]; [rewrite Heq in Hdm; nia|lia].
Qed.

(** Rounding a value of the unit interval to a few decimals stays in it. *)
Lemma float_round_unit (m : positive) (E : Z) (ndigits : nat) :
  2 ^ 52 ≤ Z.pos m → 52 ≤ E → Z.pos m ≤ 2 ^ E → 10 ^ Z.of_nat ndigits < 2 ^ 53 →
  float_le float_zero (float_round (S754_finite false m (- E)) ndigits) = true ∧
  float_le (float_round (S754_finite false m (- E)) ndigits) float_one = true.
Proof.
  intros Hm HE Hle Hp. destruct E as [|e|e]; try lia.
  unfold float_round. change (- Z.pos e) with (Z.neg e). cbv beta iota zeta.
  set (p := 10 ^ Z.of_nat ndigits) in *.
  assert (0 < p) by (apply Z.pow_pos_nonneg; lia).
  pose proof (round_half_even_bounds (Z.pos m * p) (2 ^ Z.pos e) p) as Hk.
  set (k := round_half_even (Z.pos m * p) (2 ^ Z.pos e)) in *.
  destruct Hk as [Hk0 Hkp]; [lia|nia|].
  destruct (decide (k = 0)); [split; reflexivity|].
  apply float_div_int_unit; lia.
Qed.

Lemma ttr_unit (u t : Z) :
  0 < u ≤ t → t < 2 ^ 53 →
  float_le float_zero (float_round (Spec.ratio u t) 4) = true ∧
  float_le (float_round (Spec.ratio u t) 4) float_one = true.
Proof.
  intros Hu Ht. unfold Spec.ratio.
  destruct (float_div_int_le_one u t Hu Ht) as (m & E & -> & Hm & HE & Hle & _).
  apply float_round_unit; done || lia.
Qed.

Lemma ttr_all_distinct (t : Z) :
  0 < t < 2 ^ 53 → float_round (Spec.ratio t t) 4 = float_one.
Proof.
  intros Ht. unfold Spec.ratio. rewrite float_div_int_same by done.
  vm_compute. reflexivity.
Qed.

Lemma float_div_int_lt_one (a b : Z) :
  0 < a < b → b < 2 ^ 53 → float_div (float_of_int a) (float_of_int b) ≠ float_one.
Proof.
  intros Ha Hb Heq.
  destruct (float_div_int_le_one a b) as (m & E & Hdiv & Hm & HE & Hle & Hbound); [lia|lia|].
  rewrite Hdiv in Heq. unfold float_one in Heq. injection Heq as Hm' HE'.
  assert (E = 52) as -> by lia. rewrite Hm' in Hbound.
  change (2 ^ 52) with 4503599627370496 in *. change (2 ^ 53) with 9007199254740992 in *. nia.
Qed.

(** Below 20000 tokens a repeated token keeps the rounded ratio away from
    one. *)
Lemma ttr_repeated (u t : Z) :
  0 < u < t → t < 20000 → float_round (Spec.ratio u t) 4 ≠ float_one.
Proof.
  intros Hu Ht. unfold Spec.ratio.
  assert (Ht53 : t < 2 ^ 53) by (change (2 ^ 53) with 9007199254740992; lia).
  destruct (float_div_int_le_one u t) as (m & E & -> & Hm & HE & Hle & Hbound); [lia|lia|].
  destruct E as [|e|e]; try lia.
  unfold float_round. change (- Z.pos e) with (Z.neg e). cbv beta iota zeta.
  change (10 ^ Z.of_nat 4) with 10000.
  set (P := 2 ^ Z.pos e) in *.
  assert (HP : 2 ^ 52 ≤ P) by (apply Z.pow_le_mono_r; lia).
  change (2 ^ 52) with 4503599627370496 in *.
  assert (Hk : round_half_even (Z.pos m * 10000) P ≤ 9999).
  { unfold round_half_even.
    pose proof (Z.div_mod (Z.pos m * 10000) P ltac:(lia)) as Hdm.
    pose proof (Z.mod_pos_bound (Z.pos m * 10000) P ltac:(lia)) as Hmod.
    set (q := Z.pos m * 10000 / P) in *. set (r := (Z.pos m * 10000) mod P) in *.
    assert (Hlt : 2 * (Z.pos m * 10000) * t < 19999 * P * t) by nia.
    assert (Hlt' : 2 * (Z.pos m * 10000) < 19999 * P) by nia.
    destruct (Z.compare_spec (2 * r) P); [destruct (Z.even q)|..]; nia. }
  pose proof (round_half_even_bounds (Z.pos m * 10000) P 10000 ltac:(lia) ltac:(nia)) as [Hk0 _].
  set (k := round_half_even (Z.pos m * 10000) P) in *.
  destruct (decide (k = 0)); [done|].
  apply float_div_int_lt_one; [lia|done].
Qed.

Lemma set_cons (x : string) (l : list string) : set (x :: l) = {[ x ]} ∪ set l.
Proof. done. Qed.

Lemma set_len_le_len (l : list string) : set_len (set l) ≤ len l.
Proof.
  induction l as [|x l IH]; [done|].
  rewrite set_cons. pose proof (Mtld.set_len_insert_bounds x (set l)).
  unfold len in *. cbn [length]. lia.
Qed.

Lemma set_len_pos (l : list string) : l ≠ [] → 0 < set_len (set l).
Proof.
  destruct l as [|x l]; [done|]. intros _. rewrite set_cons.
  apply Mtld.set_len_insert_bounds.
Qed.

Lemma set_len_NoDup (l : list string) : NoDup l ↔ set_len (set l) = len l.
Proof.
  split.
  - intros Hnd. unfold set_len, len, set. by rewrite size_list_to_set.
  - induction l as [|x l IH]; intros Heq; [constructor|].
    pose proof (set_len_le_len l) as Hle.
    rewrite set_cons in Heq. unfold set_len, len in *. cbn [length] in Heq.
    destruct (decide (x ∈ l)) as [Hin|Hnin].
    + assert ({[x]} ∪ set l = set l) as Hsub.
      { apply set_eq. intros y. unfold set.
        rewrite elem_of_union, elem_of_singleton, elem_of_list_to_set.
        split; [intros [-> | ?]; done|by right]. }
      rewrite Hsub in Heq. lia.
    + constructor; [done|]. apply IH.
      rewrite size_union, size_singleton in Heq; [lia|].
      apply disjoint_singleton_l. unfold set. by rewrite elem_of_list_to_set.
Qed.

(** The record that [calculate_lexical_diversity] returns; it never raises. *)
Lemma calculate_lexical_diversity_eq (tokens : list string) :
  len tokens < 2 ^ 48 →
  calculate_lexical_diversity tokens =
  Ok (match tokens with
      | [] => dict [("ttr", Int 0); ("unique_words", Int 0); ("total_words", Int 0)]
      | _ :: _ =>
          dict [("ttr", Float (float_round (Spec.ratio (set_len (set tokens)) (len tokens)) 4));
                ("unique_words", Int (set_len (set tokens)));
                ("total_words", Int (len tokens));
                ("mtld", round (Spec.mtld tokens) 2)]
      end).
Proof.
  intros Hlen. unfold calculate_lexical_diversity. cbv zeta.
  destruct tokens as [|x l]; [done|].
  rewrite decide_False by (unfold len; cbn [length]; lia).
  rewrite Overlap.int_truediv_ok by (unfold len; cbn [length]; lia).
  rewrite Mtld.calculate_mtld_eq by done. done.
Qed.

(** C5, amended. For a sequence of fewer than [2^48] tokens
    [calculate_lexical_diversity] does not raise. On the empty sequence it
    returns the record of the three fields ttr = 0, unique_words = 0 and
    total_words = 0, without an MTLD field. On a non-empty sequence it
    returns the four fields: the type-token ratio is unique / total rounded
    to 4 decimals and lies between 0 and 1; it is 1 when all tokens are
    distinct, and below 20000 tokens only then. *)
Theorem calculate_lexical_diversity_record (tokens : list string) :
  len tokens < 2 ^ 48 →
  ∃ d, calculate_lexical_diversity tokens = Ok d ∧
    match tokens with
    | [] => d = dict [("ttr", Int 0); ("unique_words", Int 0); ("total_words", Int 0)]
    | _ :: _ =>
        ∃ ttr,
          d = dict [("ttr", Float ttr);
                    ("unique_words", Int (set_len (set tokens)));
                    ("total_words", Int (len tokens));
                    ("mtld", round (Spec.mtld tokens) 2)] ∧
          ttr = float_round (Spec.ratio (set_len (set tokens)) (len tokens)) 4 ∧
          float_le float_zero ttr = true ∧
          float_le ttr float_one = true ∧
          (NoDup tokens → ttr = float_one) ∧
          (len tokens < 20000 → ttr = float_one → NoDup tokens)
    end.
Proof.
  intros Hlen. eexists. split; [by apply calculate_lexical_diversity_eq|].
  destruct tokens as [|x l]; [done|].
  set (tokens := x :: l) in *.
  assert (Hpos : 0 < set_len (set tokens)) by (by apply set_len_pos).
  pose proof (set_len_le_len tokens) as Hle.
  assert (H53 : len tokens < 2 ^ 53) by (change (2 ^ 53) with (32 * 2 ^ 48); lia).
  eexists. split; [done|]. split; [done|].
  destruct (ttr_unit (set_len (set tokens)) (len tokens)) as [H0 H1]; [lia|lia|].
  split; [done|]. split; [done|]. split.
  - intros Hnd%set_len_NoDup. rewrite Hnd. apply ttr_all_distinct. lia.
  - intros Hshort Hone. apply set_len_NoDup.
    destruct (decide (set_len (set tokens) = len tokens)) as [|Hne]; [done|].
    by destruct (ttr_repeated (set_len (set tokens)) (len tokens)); [lia|lia|].
Qed.

(** Section 8: [the cat sat on the mat] has 5 distinct tokens among 6 and a
    type-token ratio of 0.8333. *)
Lemma calculate_lexical_diversity_record_witness :
  ∃ d, calculate_lexical_diversity ["the"; "cat"; "sat"; "on"; "the"; "mat"] = Ok d ∧
    d !! "ttr" = Some (Float (float_lit 8333 4)) ∧
    d !! "unique_words" = Some (Int 5) ∧
    d !! "total_words" = Some (Int 6).
Proof.
  destruct (calculate_lexical_diversity_record ["the"; "cat"; "sat"; "on"; "the"; "mat"])
    as (d & Hd & ttr & -> & -> & _).
  - vm_compute. reflexivity.
  - eexists. split; [exact Hd|]. vm_compute. repeat split; reflexivity.
Defined.

Lemma numerals_NoDup (n : Z) : NoDup (Inputs.numerals n).
Proof. unfold Inputs.numerals. apply NoDup_fmap_2; [apply _|apply NoDup_seqZ]. Qed.

Lemma nearly_distinct_counts :
  len Inputs.nearly_distinct = 20001 ∧ set_len (set Inputs.nearly_distinct) = 20000 ∧
  ¬ NoDup Inputs.nearly_distinct.
Proof.
  assert (Hin : "0" ∈ Inputs.numerals 20000).
  { unfold Inputs.numerals. apply list_elem_of_fmap. exists 0. split; [reflexivity|].
    apply elem_of_seqZ. lia. }
  assert (Hlen : length (Inputs.numerals 20000) = Z.to_nat 20000).
  { unfold Inputs.numerals. by rewrite length_fmap, length_seqZ. }
  unfold Inputs.nearly_distinct. split; [|split].
  - unfold len. cbn [length]. rewrite Hlen. lia.
  - rewrite set_cons.
    assert ({[ "0" ]} ∪ set (Inputs.numerals 20000) = set (Inputs.numerals 20000)) as ->.
    { apply set_eq. intros y. unfold set.
      rewrite elem_of_union, elem_of_singleton, elem_of_list_to_set.
      split; [intros [-> | Hy]; [exact Hin|exact Hy]|intros Hy; right; exact Hy]. }
    pose proof (numerals_NoDup 20000) as Hnd. apply set_len_NoDup in Hnd.
    rewrite Hnd. unfold len. rewrite Hlen. lia.
  - intros Hnd. apply NoDup_cons in Hnd as [Hnin _]. exact (Hnin Hin).
Qed.

(** C5 as stated fails twice: the record of the empty sequence has no MTLD
    field, and 20001 tokens of which 20000 are distinct have a rounded
    type-token ratio of exactly 1. *)
Lemma lexical_diversity_counterexample :
  (∃ d, calculate_lexical_diversity [] = Ok d ∧ d !! "mtld" = None) ∧
  (∃ d, calculate_lexical_diversity Inputs.nearly_distinct = Ok d ∧
        d !! "ttr" = Some (Float float_one) ∧ ¬ NoDup Inputs.nearly_distinct).
Proof.
  split.
  - eexists. split; [reflexivity|]. vm_compute. reflexivity.
  - destruct nearly_distinct_counts as (Hlen & Hset & Hdup).
    eexists. split; [apply calculate_lexical_diversity_eq; rewrite Hlen; reflexivity|].
    split; [|exact Hdup]. unfold Inputs.nearly_distinct at 1.
    rewrite Hlen, Hset. unfold dict. cbn [list_to_map foldr].
    rewrite lookup_insert_eq. vm_compute. reflexivity.
Qed.

End Diversity.

(** ** Comparison of two author groups *)

Module Comparator.
Import Py TextAnalyzer.

Lemma set_empty_iff (l : list string) : set l = ∅ ↔ l = [].
Proof.
  split; [|by intros ->]. destruct l as [|x l]; [done|]. intros He.
  assert (x ∈ set (x :: l)) as Hin by (apply elem_of_list_to_set, elem_of_cons; by left).
  rewrite He in Hin. by apply not_elem_of_empty in Hin.
Qed.

(** C4. [compare_author_vocabularies] raises [ZeroDivisionError] on two
    empty groups, where the claim promises a fallback; it returns exactly
    when the first group has at least one token. *)
Theorem compare_author_vocabularies_raises (h : hash_order) :
  compare_author_vocabularies h [] [] = Raise ZeroDivisionError ∧
  ∀ plato_texts aristotle_texts,
    returns (compare_author_vocabularies h plato_texts aristotle_texts)
    ↔ combine_tokens plato_texts ≠ [].
Proof.
  split; [done|]. intros P A. unfold compare_author_vocabularies. cbv zeta.
  set (pv := set (combine_tokens P)). set (av := set (combine_tokens A)).
  destruct (decide (combine_tokens P = [])) as [He|Hne].
  - assert (pv = ∅) as Hpv by (by apply set_empty_iff).
    split; [|done]. intros [r Hr]. exfalso.
    rewrite Hpv in Hr. change (set_len ∅) with 0 in Hr.
    rewrite Overlap.int_truediv_zero in Hr.
    by destruct (int_truediv _ _) in Hr.
  - split; [done|]. intros _.
    assert (pv ≠ ∅) by (unfold pv; by rewrite set_empty_iff).
    rewrite !Overlap.int_truediv_ok; [by eexists| |].
    + rewrite Overlap.set_len_zero. intros [? ?]%empty_union_L. done.
    + by rewrite Overlap.set_len_zero.
Qed.

(** C3. Two runs that enumerate the set of shared tokens in opposite orders
    return different rankings of the shared tokens for the same two groups:
    both tokens have the same summed frequency, and the tie is left in the
    order of the enumeration. *)
Theorem top_shared_words_depend_on_set_order :
  ∃ r1 r2,
    compare_author_vocabularies Runs.forward Inputs.plato_ab Inputs.aristotle_ab = Ok r1 ∧
    compare_author_vocabularies Runs.backward Inputs.plato_ab Inputs.aristotle_ab = Ok r2 ∧
    top_shared_words r1 = [ {| word := "a"; plato_count := 1; aristotle_count := 1 |};
                            {| word := "b"; plato_count := 1; aristotle_count := 1 |} ] ∧
    top_shared_words r2 = [ {| word := "b"; plato_count := 1; aristotle_count := 1 |};
                            {| word := "a"; plato_count := 1; aristotle_count := 1 |} ] ∧
    r1 ≠ r2.
Proof.
  do 2 eexists. split; [vm_compute; reflexivity|]. split; [vm_compute; reflexivity|].
  split; [reflexivity|]. split; [reflexivity|]. discriminate.
Qed.

(** Every other entry of the comparison is the same in any two runs. *)
Lemma compare_author_vocabularies_other_entries (h1 h2 : hash_order)
    (plato_texts aristotle_texts : list (string * text_data)) (r1 r2 : author_comparison) :
  compare_author_vocabularies h1 plato_texts aristotle_texts = Ok r1 →
  compare_author_vocabularies h2 plato_texts aristotle_texts = Ok r2 →
  r2 = {| plato_vocabulary_size := plato_vocabulary_size r1;
          aristotle_vocabulary_size := aristotle_vocabulary_size r1;
          shared_vocabulary := shared_vocabulary r1;
          plato_unique := plato_unique r1;
          aristotle_unique := aristotle_unique r1;
          overlap_percentage := overlap_percentage r1;
          aristotle_uses_plato := aristotle_uses_plato r1;
          top_shared_words := top_shared_words r2;
          top_plato_unique := top_plato_unique r1;
          top_aristotle_unique := top_aristotle_unique r1 |}.
Proof.
  unfold compare_author_vocabularies. cbv zeta.
  destruct (int_truediv _ (set_len (_ ∪ _))) as [both|]; [|intros [=]].
  destruct (int_truediv _ _) as [uses|]; [|intros [=]].
  unfold mbind, res_bind. intros H1 H2.
  injection H1 as <-. injection H2 as <-. reflexivity.
Qed.

End Comparator.

(** ** Descriptive statistics *)

Module Descriptive.
Import Py TextAnalyzer.

(** C8. On the empty sentence list [calculate_sentence_stats] returns the
    empty record without raising, and so does [calculate_word_stats] on the
    empty token sequence, whatever NumPy computes; the empty input is the
    only one with an empty record. *)
Theorem descriptive_stats_empty `{Numpy} :
  calculate_sentence_stats [] = Ok ∅ ∧
  calculate_word_stats [] = Ok ∅ ∧
  (∀ sentences, calculate_sentence_stats sentences = Ok ∅ ↔ sentences = []) ∧
  (∀ tokens, calculate_word_stats tokens = Ok ∅ ↔ tokens = []).
Proof.
  split; [done|]. split; [done|]. split.
  - intros [|s ss]; [done|]. split; [|done].
    unfold calculate_sentence_stats, list_min, list_max. cbn [fmap list_fmap mbind res_bind].
    intros He. apply (f_equal (fmap (lookup "sentence_count"))) in He.
    unfold dict in He. cbn [list_to_map foldr fmap res_fmap] in He.
    rewrite lookup_insert_eq, lookup_empty in He. discriminate.
  - intros [|t ts]; [done|]. split; [|done].
    unfold calculate_word_stats. cbv zeta.
    rewrite Overlap.int_truediv_ok by (unfold len; cbn [length]; lia).
    cbn [mbind res_bind]. intros He.
    apply (f_equal (fmap (lookup "long_words"))) in He. unfold dict in He.
    cbn [list_to_map foldr fmap res_fmap] in He.
    rewrite lookup_insert_ne, lookup_insert_ne, lookup_insert_eq, lookup_empty in He by done.
    discriminate.
Qed.

End Descriptive.

(** ** The comparison matrix *)

Module Matrix.
Import Py TextAnalyzer Analyze.

Lemma dict_get_ok {V} (d : list (string * V)) (k : string) :
  k ∈ d.*1 → ∃ v, dict_get d k = Ok v.
Proof.
  induction d as [|[k' v] d IH]; intros Hin; [by apply not_elem_of_nil in Hin|].
  cbn. destruct (decide (k = k')); [by eexists|]. apply IH.
  cbn in Hin. apply elem_of_cons in Hin as [?|?]; done.
Qed.

Lemma pairwise_inner_dom (h : hash_order) (all_texts : list (string * text_data))
    (id1 : string) (rest : list string) :
  id1 ∈ all_texts.*1 → (∀ x, x ∈ rest → x ∈ all_texts.*1) →
  ∀ acc, ∃ m,
    pairwise_inner h all_texts id1 rest acc = Ok m ∧
    dom m = dom acc ∪ list_to_set (pair_key id1 <$> rest).
Proof.
  intros H1. induction rest as [|id2 rest IH]; intros Hrest acc.
  - exists acc. split; [done|]. cbn. by rewrite (right_id_L ∅ (∪)).
  - cbn [pairwise_inner].
    destruct (dict_get_ok all_texts id1 H1) as [d1 ->].
    destruct (dict_get_ok all_texts id2) as [d2 ->]; [apply Hrest, elem_of_cons; by left|].
    cbn [mbind res_bind]. rewrite Overlap.calculate_vocabulary_overlap_eq.
    cbn [mbind res_bind].
    edestruct IH as (m & -> & Hdom); [intros x Hx; apply Hrest, elem_of_cons; by right|].
    exists m. split; [done|]. rewrite Hdom, dom_insert_L. csimpl.
    by rewrite (assoc_L (∪)), (comm_L (∪) _ (dom acc)).
Qed.

Lemma pairwise_outer_dom (h : hash_order) (all_texts : list (string * text_data))
    (ids : list string) :
  (∀ x, x ∈ ids → x ∈ all_texts.*1) →
  ∀ acc, ∃ m,
    pairwise_outer h all_texts ids acc = Ok m ∧
    dom m = dom acc ∪ list_to_set (Spec.pair_keys ids).
Proof.
  induction ids as [|id1 rest IH]; intros Hids acc.
  - exists acc. split; [done|]. cbn. by rewrite (right_id_L ∅ (∪)).
  - cbn [pairwise_outer].
    destruct (pairwise_inner_dom h all_texts id1 rest) with (acc := acc) as (m1 & -> & Hdom1).
    { apply Hids, elem_of_cons. by left. }
    { intros x Hx. apply Hids, elem_of_cons. by right. }
    cbn [mbind res_bind].
    destruct (IH ltac:(intros x Hx; apply Hids, elem_of_cons; by right) m1) as (m & -> & Hdom).
    exists m. split; [done|]. rewrite Hdom, Hdom1.
    unfold Spec.pair_keys. cbn [Spec.all_pairs].
    rewrite fmap_app, list_to_set_app_L, <- list_fmap_compose.
    by rewrite (assoc_L (∪)).
Qed.

Lemma all_pairs_length (ids : list string) :
  (2 * length (Spec.all_pairs ids) = length ids * (length ids - 1))%nat.
Proof.
  induction ids as [|x ids IH]; [done|].
  cbn [Spec.all_pairs length]. rewrite length_app, length_fmap. nia.
Qed.

Lemma all_pairs_elem (ids : list string) (x y : string) :
  (x, y) ∈ Spec.all_pairs ids → x ∈ ids ∧ y ∈ ids.
Proof.
  induction ids as [|z ids IH]; cbn; [by intros ?%not_elem_of_nil|].
  rewrite elem_of_app, list_elem_of_fmap. intros [(y' & [= -> ->] & Hy)|Hin].
  - split; [apply elem_of_cons; by left|apply elem_of_cons; by right].
  - destruct (IH Hin). split; apply elem_of_cons; by right.
Qed.

(** With distinct identifiers the loop visits every unordered pair of
    distinct documents once, and no document with itself. *)
Lemma all_pairs_distinct (ids : list string) :
  NoDup ids →
  NoDup (Spec.all_pairs ids) ∧
  (∀ x y, (x, y) ∈ Spec.all_pairs ids → x ≠ y ∧ (y, x) ∉ Spec.all_pairs ids) ∧
  (∀ x y, x ∈ ids → y ∈ ids → x ≠ y →
     (x, y) ∈ Spec.all_pairs ids ∨ (y, x) ∈ Spec.all_pairs ids).
Proof.
  induction ids as [|z ids IH]; intros Hnd.
  - split; [constructor|]. split; [by intros x y ?%not_elem_of_nil|].
    by intros x y ?%not_elem_of_nil.
  - apply NoDup_cons in Hnd as [Hz Hnd]. destruct (IH Hnd) as (IH1 & IH2 & IH3).
    cbn [Spec.all_pairs]. split; [|split].
    + apply NoDup_app. split; [|split; [|done]].
      * apply NoDup_fmap_2; [|done]. by intros a b [= ->].
      * intros [a b] (y' & [= -> ->] & Hy)%list_elem_of_fmap Hin.
        by apply all_pairs_elem in Hin as [? _].
    + intros x y. rewrite !elem_of_app, !list_elem_of_fmap.
      intros [(y' & [= -> ->] & Hy)|Hin].
      * split; [by intros ->|]. intros [(y'' & [= -> ->] & _)|Hin]; [done|].
        by apply all_pairs_elem in Hin as [_ ?].
      * destruct (IH2 x y Hin) as [Hne Hrev]. split; [done|].
        intros [(y' & [= -> ->] & _)|?]; [|done].
        by apply all_pairs_elem in Hin as [_ ?].
    + intros x y Hx Hy Hne. rewrite !elem_of_app, !list_elem_of_fmap.
      apply elem_of_cons in Hx as [->|Hx]; apply elem_of_cons in Hy as [->|Hy].
      * done.
      * left. left. by exists y.
      * right. left. by exists x.
      * destruct (IH3 x y Hx Hy Hne); [left|right]; by right.
Qed.

(** The comparison matrix has one entry per distinct pair key. *)
Lemma pairwise_overlaps_entries (h : hash_order) (all_texts : list (string * text_data)) :
  ∃ m, pairwise_overlaps h all_texts = Ok m ∧
    dom m = list_to_set (Spec.pair_keys all_texts.*1) ∧
    (2 * length (Spec.pair_keys all_texts.*1) = length all_texts * (length all_texts - 1))%nat ∧
    (size m = length (Spec.pair_keys all_texts.*1) ↔ NoDup (Spec.pair_keys all_texts.*1)).
Proof.
  unfold pairwise_overlaps. cbv zeta.
  destruct (pairwise_outer_dom h all_texts all_texts.*1 ltac:(done) ∅) as (m & -> & Hdom).
  rewrite dom_empty_L, (left_id_L ∅ (∪)) in Hdom.
  exists m. split; [done|]. split; [done|]. split.
  - unfold Spec.pair_keys. rewrite length_fmap, all_pairs_length, length_fmap. done.
  - rewrite <- size_dom, Hdom. rewrite Diversity.set_len_NoDup. unfold set_len, len, set. lia.
Qed.

(** C9. Four documents with the distinct identifiers [a], [a vs b],
    [b vs c] and [c] give a comparison matrix of 5 entries instead of
    4 x 3 / 2 = 6: the pairs ([a], [b vs c]) and ([a vs b], [c]) receive the
    same key. *)
Theorem pairwise_overlaps_key_collision (h : hash_order) :
  NoDup Inputs.four_texts.*1 ∧
  length Inputs.four_texts = 4%nat ∧
  pair_key "a" "b vs c" = pair_key "a vs b" "c" ∧
  ∃ m, pairwise_overlaps h Inputs.four_texts = Ok m ∧ size m = 5%nat.
Proof.
  split; [apply (bool_decide_unpack _); vm_compute; exact I|].
  split; [reflexivity|]. split; [reflexivity|].
  destruct (pairwise_overlaps_entries h Inputs.four_texts) as (m & -> & Hdom & _).
  exists m. split; [done|]. rewrite <- size_dom, Hdom. vm_compute. reflexivity.
Qed.

End Matrix.

(** ** What does not depend on the set iteration order *)

Module Determinism.
Import Py TextAnalyzer Analyze.

Lemma ascii_compare_eq (a b : Ascii.ascii) : Ascii.compare a b = Eq ↔ a = b.
Proof.
  split; [apply Ascii.compare_eq_iff|]. intros ->. unfold Ascii.compare. apply N.compare_refl.
Qed.

Lemma string_compare_lt_trans (s1 : string) :
  ∀ s2 s3, String.compare s1 s2 = Lt → String.compare s2 s3 = Lt → String.compare s1 s3 = Lt.
Proof.
  induction s1 as [|c1 s1 IH]; intros [|c2 s2] [|c3 s3]; cbn; try done.
  destruct (Ascii.compare c1 c2) eqn:H12; try done;
    destruct (Ascii.compare c2 c3) eqn:H23; try done.
  - apply ascii_compare_eq in H12 as ->, H23 as ->.
    rewrite (proj2 (ascii_compare_eq c3 c3) eq_refl). apply IH.
  - apply ascii_compare_eq in H12 as ->. by rewrite H23.
  - apply ascii_compare_eq in H23 as ->. by rewrite H12.
  - unfold Ascii.compare in *. rewrite N.compare_lt_iff in H12, H23.
    assert (N.compare (Ascii.N_of_ascii c1) (Ascii.N_of_ascii c3) = Lt) as ->; [|done].
    apply N.compare_lt_iff. lia.
Qed.

Lemma string_ltb_trans (s1 s2 s3 : string) :
  String.ltb s1 s2 = true → String.ltb s2 s3 = true → String.ltb s1 s3 = true.
Proof.
  unfold String.ltb. intros H12 H23.
  destruct (String.compare s1 s2) eqn:E12; try done.
  destruct (String.compare s2 s3) eqn:E23; try done.
  by rewrite (string_compare_lt_trans s1 s2 s3).
Qed.

Lemma string_ltb_total (s1 s2 : string) :
  s1 ≠ s2 → String.ltb s2 s1 = false → String.ltb s1 s2 = true.
Proof.
  unfold String.ltb. intros Hne. rewrite (String.compare_antisym s2 s1).
  destruct (String.compare s1 s2) eqn:E; try done.
  by apply String.compare_eq_iff in E.
Qed.

Lemma string_ltb_asym (s1 s2 : string) :
  String.ltb s1 s2 = true → String.ltb s2 s1 = true → s1 = s2.
Proof.
  unfold String.ltb. rewrite (String.compare_antisym s2 s1).
  by destruct (String.compare s1 s2).
Qed.

Lemma insert_sorted_strings (x : string) (s : list string) :
  StronglySorted (λ a b, String.ltb a b = true) s → x ∉ s →
  StronglySorted (λ a b, String.ltb a b = true) (insert_sorted String.ltb x s).
Proof.
  induction s as [|y s IH]; intros Hs Hx; cbn; [repeat constructor|].
  apply StronglySorted_inv in Hs as [Hs Hy].
  apply not_elem_of_cons in Hx as [Hne Hx].
  destruct (String.ltb y x) eqn:Hyx.
  - constructor; [by apply IH|].
    rewrite Ranking.insert_sorted_perm. by constructor.
  - assert (Hxy : String.ltb x y = true) by (by apply string_ltb_total).
    constructor; [by constructor|]. constructor; [done|].
    apply Forall_forall. intros z Hz. rewrite Forall_forall in Hy.
    by apply (string_ltb_trans x y z), Hy.
Qed.

Lemma sorted_strings (l : list string) :
  NoDup l → StronglySorted (λ a b, String.ltb a b = true) (sorted l).
Proof.
  induction l as [|x l IH]; intros Hnd; [constructor|].
  apply NoDup_cons in Hnd as [Hx Hnd]. cbn.
  apply insert_sorted_strings; [by apply IH|].
  fold (sorted_with String.ltb l). by rewrite Ranking.sorted_with_perm.
Qed.

(** [sorted(list(X))] does not depend on the order in which the set is
    enumerated. *)
Lemma sorted_set_order (h1 h2 : hash_order) (X : gset string) :
  sorted (h1 X) = sorted (h2 X).
Proof.
  assert (Hnd : ∀ h : hash_order, NoDup (h X)).
  { intros h. rewrite set_iter_perm. apply NoDup_elements. }
  eapply (@StronglySorted_unique _ (λ a b, String.ltb a b = true)).
  - intros a b. apply string_ltb_asym.
  - by apply sorted_strings.
  - by apply sorted_strings.
  - unfold sorted. by rewrite !Ranking.sorted_with_perm, !set_iter_perm.
Qed.

(** [calculate_vocabulary_overlap] and the comparison matrix are the same
    in any two runs. *)
Lemma calculate_vocabulary_overlap_deterministic (h1 h2 : hash_order) (A B : list string) :
  calculate_vocabulary_overlap h1 A B = calculate_vocabulary_overlap h2 A B.
Proof.
  rewrite !Overlap.calculate_vocabulary_overlap_eq. do 3 f_equal. apply sorted_set_order.
Qed.

Lemma pairwise_inner_deterministic (h1 h2 : hash_order) all_texts id1 rest acc :
  pairwise_inner h1 all_texts id1 rest acc = pairwise_inner h2 all_texts id1 rest acc.
Proof.
  revert acc. induction rest as [|id2 rest IH]; intros acc; [done|].
  cbn [pairwise_inner]. destruct (dict_get all_texts id1); [|done].
  destruct (dict_get all_texts id2); [|done]. cbn [mbind res_bind].
  rewrite (calculate_vocabulary_overlap_deterministic h1 h2).
  destruct (calculate_vocabulary_overlap h2 _ _); [|done]. cbn [mbind res_bind]. apply IH.
Qed.

Lemma pairwise_overlaps_deterministic (h1 h2 : hash_order) all_texts :
  pairwise_overlaps h1 all_texts = pairwise_overlaps h2 all_texts.
Proof.
  unfold pairwise_overlaps. cbv zeta. generalize (∅ : gmap string overlap).
  induction (all_texts.*1) as [|id1 rest IH]; intros acc; [done|].
  cbn [pairwise_outer]. rewrite (pairwise_inner_deterministic h1 h2).
  destruct (pairwise_inner h2 _ _ _ _); [|done]. cbn [mbind res_bind]. apply IH.
Qed.

End Determinism.

(** * Further properties of the code *)

(** ** Shared facts on lists *)

Module ListFacts.
Import Py.

Lemma elem_of_set (w : string) (l : list string) : w ∈ set l ↔ w ∈ l.
Proof. unfold set. apply elem_of_list_to_set. Qed.

Lemma StronglySorted_take {A} (R : relation A) (n : nat) (l : list A) :
  StronglySorted R l → StronglySorted R (take n l).
Proof.
  intros Hs. rewrite <- (take_drop n l) in Hs. by apply StronglySorted_app_1_l in Hs.
Qed.

Lemma StronglySorted_take_drop {A} (R : relation A) (n : nat) (l : list A) (x y : A) :
  StronglySorted R l → x ∈ take n l → y ∈ drop n l → R x y.
Proof.
  intros Hs Hx Hy. rewrite <- (take_drop n l) in Hs.
  by apply (StronglySorted_app_1_elem_of _ _ _ _ _ Hs).
Qed.

Lemma elem_of_take_l {A} (n : nat) (l : list A) (x : A) : x ∈ take n l → x ∈ l.
Proof. intros Hx. rewrite <- (take_drop n l). apply elem_of_app. by left. Qed.

Lemma StronglySorted_impl_elem {A} (R1 R2 : relation A) (l : list A) :
  (∀ x y, x ∈ l → y ∈ l → R1 x y → R2 x y) → StronglySorted R1 l → StronglySorted R2 l.
Proof.
  induction l as [|x l IH]; intros Himpl Hs; [constructor|].
  apply StronglySorted_inv in Hs as [Hs Hx]. constructor.
  - apply IH; [|done]. intros y z Hy Hz. apply Himpl; by right.
  - rewrite Forall_forall in Hx. apply Forall_forall. intros y Hy.
    apply Himpl; [by left|by right|by apply Hx].
Qed.

Lemma StronglySorted_NoDup_ne {A} (l : list A) :
  NoDup l → StronglySorted (λ x y, x ≠ y) l.
Proof.
  induction 1 as [|x l Hx Hnd IH]; constructor; [done|].
  apply Forall_forall. intros y Hy ->. done.
Qed.

Lemma StronglySorted_fmap_2 {A B} (f : A → B) (R : relation B) (l : list A) :
  StronglySorted (λ x y, R (f x) (f y)) l → StronglySorted R (f <$> l).
Proof.
  induction 1 as [|x l Hs IH Hx]; cbn; constructor; [done|].
  apply Forall_fmap. done.
Qed.

Lemma filter_none {A} (P : A → Prop) `{∀ x, Decision (P x)} (l : list A) :
  Forall (λ x, ¬ P x) l → filter P l = [].
Proof.
  induction 1 as [|x l Hx _ IH]; [done|]. rewrite filter_cons. by destruct (decide (P x)).
Qed.

Lemma length_filter_le {A} (P : A → Prop) `{∀ x, Decision (P x)} (l : list A) :
  (length (filter P l) ≤ length l)%nat.
Proof. apply sublist_length, sublist_filter. Qed.

Lemma length_filter_split {A} (P : A → Prop) `{∀ x, Decision (P x)} (l : list A) :
  (length (filter P l) + length (filter (λ x, ¬ P x) l) = length l)%nat.
Proof.
  induction l as [|x l IH]; [done|]. rewrite !filter_cons.
  destruct (decide (P x)), (decide (¬ P x)); cbn; try done; lia.
Qed.

Lemma filter_fmap_fst {V} (P : string → Prop) `{∀ x, Decision (P x)} (d : list (string * V)) :
  (filter (λ kv, P kv.1) d).*1 = filter P d.*1.
Proof.
  induction d as [|[k v] d IH]; [done|]. rewrite fmap_cons, !filter_cons. cbn [fst].
  destruct (decide (P k)); [rewrite fmap_cons; cbn [fst]|]; by rewrite IH.
Qed.

Lemma length_filter_fmap {A B} (f : A → B) (P : B → Prop) `{∀ x, Decision (P x)} (l : list A) :
  length (filter P (f <$> l)) = length (filter (λ x, P (f x)) l).
Proof.
  induction l as [|x l IH]; [done|]. rewrite fmap_cons, !filter_cons.
  destruct (decide (P (f x))); cbn; by rewrite IH.
Qed.

End ListFacts.

(** ** [_calculate_mtld] for sequences of any length *)

Module MtldBounds.
Import Py TextAnalyzer FloatFacts.

(** The loop never raises, whatever the length, and needs at least two
    tokens for each factor: the first token of a segment has ratio 1. *)
Lemma mtld_scan_factors (tokens : list string) :
  ∀ (i factors start : Z) (token_types : gset string),
    start ≤ i → (i = start → token_types = ∅) →
    ∃ f, mtld_scan tokens default_threshold i factors start token_types = Ok f ∧
      factors ≤ f ∧ 2 * (f - factors) ≤ i - start + len tokens.
Proof.
  induction tokens as [|token rest IH]; intros i factors start token_types Hle Hfirst.
  - exists factors. cbn. unfold len. cbn. split; [done|lia].
  - cbn [mtld_scan]. unfold int_truediv.
    destruct (decide (i - start + 1 = 0)) as [|_]; [lia|].
    cbn [mbind res_bind]. unfold len. cbn [length]. fold (len rest).
    destruct (float_lt _ default_threshold) eqn:Hlt.
    + destruct (decide (i = start)) as [->|Hne].
      * rewrite (Hfirst eq_refl) in Hlt.
        replace (start - start + 1) with 1 in Hlt by lia.
        rewrite (right_id_L ∅ (∪)) in Hlt. unfold set_len in Hlt.
        rewrite size_singleton in Hlt. vm_compute in Hlt. discriminate.
      * destruct (IH (i + 1) (factors + 1) (i + 1) ∅) as (f & -> & Hf1 & Hf2); [lia|done|].
        exists f. split; [done|]. unfold len in *. lia.
    + destruct (IH (i + 1) factors start ({[token]} ∪ token_types)) as (f & -> & Hf1 & Hf2);
        [lia|lia|].
      exists f. split; [done|]. unfold len in *. lia.
Qed.

Lemma float_two : float_of_int 2 = S754_finite false 4503599627370496 (-51).
Proof. vm_compute. reflexivity. Qed.

Lemma float_div_int_ge_two (a b : Z) :
  0 < b → 2 * b ≤ a → a < 2 ^ 53 →
  float_le (float_of_int 2) (float_div (float_of_int a) (float_of_int b)) = true.
Proof.
  intros Hb Hab Ha.
  destruct (float_div_int_error a b) as (m & E & -> & Hm & HE & Herr); [lia|lia|].
  rewrite float_two, float_le_finite. apply bool_decide_eq_true.
  assert (2 ^ (E + 1) ≤ Z.pos m) as Hlow.
  { rewrite Z.pow_add_r by lia. change (2 ^ 1) with 2.
    assert (0 < 2 ^ E) by (apply Z.pow_pos_nonneg; lia).
    nia. }
  assert (E + 1 < 53) as HE1.
  { apply (Z.pow_lt_mono_r_iff 2); lia. }
  destruct (decide (E = 51)) as [->|]; [right; split; [done|]; lia|left; lia].
Qed.

Lemma calculate_mtld_returns (tokens : list string) :
  ∃ factors,
    mtld_scan tokens default_threshold 0 0 0 ∅ = Ok factors ∧
    0 ≤ factors ∧ 2 * factors ≤ len tokens ∧
    _calculate_mtld tokens default_threshold =
      Ok (if len tokens <? 50 then Int 0
          else if decide (factors = 0) then Int (len tokens)
          else Float (Spec.ratio (len tokens) factors)).
Proof.
  destruct (mtld_scan_factors tokens 0 0 0 ∅) as (f & Hscan & Hf0 & Hf2); [done|done|].
  exists f. split; [done|]. split; [done|]. split; [lia|].
  unfold _calculate_mtld. destruct (len tokens <? 50); [done|].
  rewrite Hscan. cbn [mbind res_bind]. destruct (decide (f = 0)); [done|].
  unfold int_truediv. destruct (decide (f = 0)); done.
Qed.

(** X1. [_calculate_mtld] returns for a token sequence of any length. The
    number of factors that the loop counts is at most half the number of
    tokens, since a factor is never closed on the first token of a segment.
    The result is [0] below 50 tokens, the length when no factor was
    counted, and else the quotient of the length by the number of factors,
    which is at least [2.0] (for fewer than [2^53] tokens). *)
Theorem calculate_mtld_factor_bound (tokens : list string) :
  ∃ factors,
    mtld_scan tokens default_threshold 0 0 0 ∅ = Ok factors ∧
    0 ≤ factors ∧ 2 * factors ≤ len tokens ∧
    _calculate_mtld tokens default_threshold =
      Ok (if len tokens <? 50 then Int 0
          else if decide (factors = 0) then Int (len tokens)
          else Float (Spec.ratio (len tokens) factors)) ∧
    (len tokens < 2 ^ 53 → factors ≠ 0 →
     float_le (float_of_int 2) (Spec.ratio (len tokens) factors) = true).
Proof.
  destruct (calculate_mtld_returns tokens) as (f & Hscan & Hf0 & Hf2 & Hm).
  exists f. do 4 (split; [done|]).
  intros Hlen Hne. apply float_div_int_ge_two; lia.
Qed.

Lemma scan_NoDup (tokens : list string) :
  NoDup tokens →
  Spec.scan tokens = {| Spec.segment := set tokens; Spec.segment_count := len tokens;
                        Spec.factor_count := 0 |}.
Proof.
  induction tokens as [|token tokens IH] using rev_ind; intros Hnd; [done|].
  apply NoDup_app in Hnd as (Hnd & Hnotin & _).
  rewrite Mtld.scan_snoc, IH by done. unfold Spec.scan_step. cbn.
  assert (set (tokens ++ [token]) = {[token]} ∪ set tokens) as Hset.
  { unfold set. rewrite list_to_set_app_L. cbn. set_solver. }
  assert (len (tokens ++ [token]) = len tokens + 1) as Hlen.
  { unfold len. rewrite length_app. cbn. lia. }
  assert (set_len ({[token]} ∪ set tokens) = len tokens + 1) as Hsize.
  { rewrite <- Hset, <- Hlen. apply Diversity.set_len_NoDup.
    apply NoDup_app. split; [done|]. split; [done|]. apply NoDup_singleton. }
  unfold Spec.below_threshold. rewrite Hsize.
  rewrite bool_decide_eq_false_2; [|unfold len; lia].
  by rewrite Hset, Hlen.
Qed.

(** X2. A sequence of at least 50 tokens without any repetition never closes
    a factor: its MTLD is its length. *)
Theorem calculate_mtld_all_distinct (tokens : list string) :
  NoDup tokens → 50 ≤ len tokens → len tokens < 2 ^ 48 →
  _calculate_mtld tokens default_threshold = Ok (Int (len tokens)).
Proof.
  intros Hnd Hmin Hmax. rewrite Mtld.calculate_mtld_eq by done.
  unfold Spec.mtld, Spec.mtld_value. rewrite scan_NoDup by done. cbn.
  destruct (Z.ltb_spec (len tokens) 50); [lia|done].
Qed.

(** Fifty different numerals. *)
Lemma calculate_mtld_all_distinct_witness :
  _calculate_mtld (Inputs.numerals 50) default_threshold = Ok (Int 50).
Proof.
  apply (calculate_mtld_all_distinct (Inputs.numerals 50)).
  - apply Diversity.numerals_NoDup.
  - vm_compute. discriminate.
  - vm_compute. reflexivity.
Defined.

End MtldBounds.

(** ** More on [calculate_vocabulary_overlap] *)

Module OverlapFacts.
Import Py TextAnalyzer FloatFacts ListFacts.

(** X3. The word list of an overlap record holds the first 100 shared words
    in the order of [<] on strings: it is strictly increasing, its length is
    the smaller of 100 and [shared_words], its members occur in both token
    sequences, and a shared word that is left out is greater than every
    listed one. *)
Theorem shared_words_list_sorted (h : hash_order) (tokens1 tokens2 : list string) :
  ∃ r, calculate_vocabulary_overlap h tokens1 tokens2 = Ok r ∧
    StronglySorted (λ a b, String.ltb a b = true) (shared_words_list r) ∧
    len (shared_words_list r) = Z.min 100 (shared_words r) ∧
    (∀ w, w ∈ shared_words_list r → w ∈ tokens1 ∧ w ∈ tokens2) ∧
    (∀ w, w ∈ tokens1 → w ∈ tokens2 → w ∉ shared_words_list r →
       ∀ x, x ∈ shared_words_list r → String.ltb x w = true).
Proof.
  rewrite Overlap.calculate_vocabulary_overlap_eq. eexists. split; [done|]. cbn.
  set (S := set tokens1 ∩ set tokens2).
  assert (Hnd : NoDup (h S)) by (rewrite set_iter_perm; apply NoDup_elements).
  assert (Hperm : sorted (h S) ≡ₚ elements S).
  { unfold sorted. by rewrite Ranking.sorted_with_perm, set_iter_perm. }
  pose proof (Determinism.sorted_strings (h S) Hnd) as Hsorted.
  assert (Hin : ∀ w, w ∈ sorted (h S) ↔ w ∈ tokens1 ∧ w ∈ tokens2).
  { intros w. rewrite Hperm, elem_of_elements. unfold S.
    by rewrite elem_of_intersection, !elem_of_set. }
  unfold slice_to. split; [by apply StronglySorted_take|]. split.
  - unfold len, set_len. rewrite length_take, Hperm.
    change (length (elements S)) with (size S). lia.
  - split.
    + intros w Hw. apply Hin. by eapply elem_of_take_l.
    + intros w H1 H2 Hout x Hx.
      apply (StronglySorted_take_drop (λ a b, String.ltb a b = true) 100 (sorted (h S)));
        [done|done|].
      assert (w ∈ take 100 (sorted (h S)) ++ drop 100 (sorted (h S))) as Hw.
      { rewrite take_drop. by apply Hin. }
      apply elem_of_app in Hw as [Hw|Hw]; done.
Qed.

Lemma float_div_zero (b : Z) :
  0 < b < 2 ^ 53 → float_div (float_of_int 0) (float_of_int b) = float_zero.
Proof.
  intros Hb. destruct (float_of_int_pos b Hb) as (m & k & -> & _). reflexivity.
Qed.

(** X4. The overlap of a non-empty token sequence with itself: every word
    is shared, none is unique, the Jaccard similarity is [1.0] and both
    percentages are [100.0]. *)
Theorem vocabulary_overlap_self (h : hash_order) (tokens : list string) :
  tokens ≠ [] → len tokens < 2 ^ 53 →
  ∃ r, calculate_vocabulary_overlap h tokens tokens = Ok r ∧
    shared_words r = set_len (set tokens) ∧
    unique_to_first r = 0 ∧
    unique_to_second r = 0 ∧
    jaccard_similarity r = Float float_one ∧
    overlap_percentage_first r = Float (float_of_int 100) ∧
    overlap_percentage_second r = Float (float_of_int 100).
Proof.
  intros Hne Hlen. rewrite Overlap.calculate_vocabulary_overlap_eq. eexists. split; [done|].
  cbn. pose proof (Diversity.set_len_pos tokens Hne) as Hpos.
  pose proof (Diversity.set_len_le_len tokens) as Hle.
  assert (set tokens ≠ ∅) as Hset by (by rewrite Comparator.set_empty_iff).
  assert (set tokens ∩ set tokens = set tokens) as Hi by set_solver.
  assert (set tokens ∪ set tokens = set tokens) as Hu by set_solver.
  assert (set tokens ∖ set tokens = ∅) as Hd by set_solver.
  split; [by rewrite Hi|].
  split; [by rewrite Hd|]. split; [by rewrite Hd|].
  unfold Spec.jaccard, Spec.overlap_percentage.
  rewrite Hi, Hu. destruct (decide (set tokens = ∅ ∧ _)) as [[? _]|_]; [done|].
  destruct (decide (set tokens = ∅)); [done|].
  rewrite Diversity.ttr_all_distinct by lia.
  unfold Spec.ratio. rewrite float_div_int_same by lia.
  split; [done|]. split; vm_compute; reflexivity.
Qed.

(** A text of three tokens, two of them different, against itself. *)
Lemma vocabulary_overlap_self_witness :
  ∃ r, calculate_vocabulary_overlap Runs.forward ["being"; "form"; "being"]
         ["being"; "form"; "being"] = Ok r ∧
    shared_words r = 2 ∧ jaccard_similarity r = Float float_one.
Proof.
  destruct (vocabulary_overlap_self Runs.forward ["being"; "form"; "being"])
    as (r & Hr & Hs & _ & _ & Hj & _).
  - discriminate.
  - vm_compute. reflexivity.
  - exists r. split; [exact Hr|]. split; [|exact Hj]. rewrite Hs. vm_compute. reflexivity.
Defined.

(** X5. Two token sequences without a common word: nothing is shared, each
    vocabulary is unique to its side, the word list is empty and every
    ratio is zero ([0.0], or the integer [0] of the guard for an empty
    vocabulary). *)
Theorem vocabulary_overlap_disjoint (h : hash_order) (tokens1 tokens2 : list string) :
  (∀ w, w ∈ tokens1 → w ∉ tokens2) → len tokens1 + len tokens2 < 2 ^ 53 →
  ∃ r, calculate_vocabulary_overlap h tokens1 tokens2 = Ok r ∧
    shared_words r = 0 ∧
    unique_to_first r = set_len (set tokens1) ∧
    unique_to_second r = set_len (set tokens2) ∧
    jaccard_similarity r =
      (if decide (tokens1 = [] ∧ tokens2 = []) then Int 0 else Float float_zero) ∧
    overlap_percentage_first r =
      (if decide (tokens1 = []) then Int 0 else Float float_zero) ∧
    overlap_percentage_second r =
      (if decide (tokens2 = []) then Int 0 else Float float_zero) ∧
    shared_words_list r = [].
Proof.
  intros Hdisj Hlen. rewrite Overlap.calculate_vocabulary_overlap_eq. eexists. split; [done|].
  cbn.
  assert (set tokens1 ∩ set tokens2 = ∅) as Hi.
  { apply elem_of_equiv_empty_L. intros w [H1 H2]%elem_of_intersection.
    apply elem_of_set in H1, H2. by apply (Hdisj w). }
  assert (set tokens1 ∖ set tokens2 = set tokens1) as Hd1.
  { apply set_eq. intros w. rewrite elem_of_difference, !elem_of_set. naive_solver. }
  assert (set tokens2 ∖ set tokens1 = set tokens2) as Hd2.
  { apply set_eq. intros w. rewrite elem_of_difference, !elem_of_set. naive_solver. }
  assert (set tokens2 ∩ set tokens1 = ∅) as Hi' by (by rewrite (comm_L (∩))).
  pose proof (Diversity.set_len_le_len tokens1) as Hle1.
  pose proof (Diversity.set_len_le_len tokens2) as Hle2.
  assert (∀ V : gset string, 0 < set_len V < 2 ^ 53 →
            float_round (float_mul (Spec.ratio 0 (set_len V)) (float_of_int 100)) 2
            = float_zero) as Hpct.
  { intros V HV. unfold Spec.ratio. by rewrite float_div_zero. }
  split; [by rewrite Hi|]. split; [by rewrite Hd1|]. split; [by rewrite Hd2|].
  unfold Spec.jaccard, Spec.overlap_percentage. rewrite Hi, Hi'.
  change (set_len ∅) with 0.
  split; [|split; [|split]].
  - destruct (decide (tokens1 = [] ∧ tokens2 = [])) as [[-> ->]|Hne]; [done|].
    destruct (decide (set tokens1 = ∅ ∧ set tokens2 = ∅)) as [[He1 He2]|_].
    { apply Comparator.set_empty_iff in He1, He2. naive_solver. }
    unfold Spec.ratio. rewrite float_div_zero; [done|].
    rewrite Overlap.set_len_union, Hi, Hd1, Hd2. change (set_len ∅) with 0.
    pose proof (Overlap.set_len_nonneg (set tokens1)).
    pose proof (Overlap.set_len_nonneg (set tokens2)).
    assert (0 < set_len (set tokens1) ∨ 0 < set_len (set tokens2)); [|lia].
    destruct tokens1 as [|t l]; [right|left]; apply Diversity.set_len_pos; naive_solver.
  - destruct (decide (tokens1 = [])) as [->|Hne]; [done|].
    destruct (decide (set tokens1 = ∅)) as [He|_].
    { by apply Comparator.set_empty_iff in He. }
    rewrite Hpct; [done|].
    pose proof (Diversity.set_len_pos tokens1 Hne). unfold len in *. lia.
  - destruct (decide (tokens2 = [])) as [->|Hne]; [done|].
    destruct (decide (set tokens2 = ∅)) as [He|_].
    { by apply Comparator.set_empty_iff in He. }
    rewrite Hpct; [done|].
    pose proof (Diversity.set_len_pos tokens2 Hne). unfold len in *. lia.
  - pose proof (set_iter_perm h ∅) as Hp. rewrite elements_empty in Hp.
    apply Permutation_nil_r in Hp. by rewrite Hp.
Qed.

(** One word of Plato against two of Aristotle. *)
Lemma vocabulary_overlap_disjoint_witness :
  ∃ r, calculate_vocabulary_overlap Runs.forward ["form"] ["cause"; "motion"] = Ok r ∧
    shared_words r = 0 ∧ jaccard_similarity r = Float float_zero.
Proof.
  destruct (vocabulary_overlap_disjoint Runs.forward ["form"] ["cause"; "motion"])
    as (r & Hr & Hs & _ & _ & Hj & _).
  - intros w Hw. apply list_elem_of_singleton in Hw as ->. vm_compute.
    intros H. repeat (apply elem_of_cons in H as [H|H]; [discriminate|]).
    by apply elem_of_nil in H.
  - vm_compute. reflexivity.
  - exists r. split; [exact Hr|]. split; [exact Hs|]. exact Hj.
Defined.

(** X6. The Jaccard similarity of an overlap record is the integer [0] or a
    float between [0.0] and [1.0]. *)
Theorem jaccard_similarity_unit (h : hash_order) (tokens1 tokens2 : list string) :
  len tokens1 + len tokens2 < 2 ^ 53 →
  ∃ r, calculate_vocabulary_overlap h tokens1 tokens2 = Ok r ∧
    (jaccard_similarity r = Int 0 ∨
     ∃ j, jaccard_similarity r = Float j ∧
          float_le float_zero j = true ∧ float_le j float_one = true).
Proof.
  intros Hlen. rewrite Overlap.calculate_vocabulary_overlap_eq. eexists. split; [done|]. cbn.
  unfold Spec.jaccard. destruct (decide _) as [|Hne]; [by left|]. right.
  eexists. split; [done|].
  pose proof (Diversity.set_len_le_len tokens1) as Hle1.
  pose proof (Diversity.set_len_le_len tokens2) as Hle2.
  pose proof (Overlap.set_len_union (set tokens1) (set tokens2)) as Hu.
  pose proof (Overlap.set_len_partition (set tokens1) (set tokens2)) as Hp1.
  pose proof (Overlap.set_len_partition (set tokens2) (set tokens1)) as Hp2.
  rewrite (comm_L (∩) (set tokens2)) in Hp2.
  pose proof (Overlap.set_len_nonneg (set tokens1 ∩ set tokens2)).
  pose proof (Overlap.set_len_nonneg (set tokens1 ∖ set tokens2)).
  pose proof (Overlap.set_len_nonneg (set tokens2 ∖ set tokens1)).
  assert (0 < set_len (set tokens1 ∪ set tokens2)) as Hpos.
  { assert (set_len (set tokens1 ∪ set tokens2) ≠ 0); [|lia].
    rewrite Overlap.set_len_zero. intros He. apply Hne.
    apply empty_union_L in He. done. }
  destruct (decide (set_len (set tokens1 ∩ set tokens2) = 0)) as [->|Hs].
  - unfold Spec.ratio. rewrite float_div_zero by lia. done.
  - apply Diversity.ttr_unit; lia.
Qed.

(** One word shared among three: a third, [0.3333]. *)
Lemma jaccard_similarity_unit_witness :
  ∃ r, calculate_vocabulary_overlap Runs.forward ["good"; "form"] ["form"; "cause"] = Ok r ∧
    jaccard_similarity r = Float (float_lit 3333 4).
Proof.
  destruct (jaccard_similarity_unit Runs.forward ["good"; "form"] ["form"; "cause"])
    as (r & Hr & _).
  - vm_compute. reflexivity.
  - exists r. split; [exact Hr|].
    assert (Some (jaccard_similarity r) = Some (Float (float_lit 3333 4))) as [= ->]; [|done].
    change (Some (jaccard_similarity r)) with
      (match Ok r with Ok r => Some (jaccard_similarity r) | Raise _ => None end).
    rewrite <- Hr. vm_compute. reflexivity.
Defined.

End OverlapFacts.

(** ** More on [get_top_words] *)

Module RankingFacts.
Import Py TextAnalyzer Props ListFacts.

Lemma total_count_perm (l1 l2 : list (string * Z)) :
  l1 ≡ₚ l2 → total_count l1 = total_count l2.
Proof.
  induction 1 as [|x l1 l2 _ IH|x y l|l1 l2 l3 _ IH1 _ IH2]; cbn; unfold total_count in *;
    cbn; lia.
Qed.

Lemma total_count_incr (k : string) (c : list (string * Z)) :
  total_count (counter_incr k c) = total_count c + 1.
Proof.
  induction c as [|[k' n] c IH]; [done|]. cbn [counter_incr].
  destruct (decide (k = k')); unfold total_count in *; cbn; lia.
Qed.

Lemma total_count_Counter (l : list string) : total_count (Counter l) = len l.
Proof.
  induction l as [|k l IH] using rev_ind; [done|].
  rewrite Ranking.Counter_snoc, total_count_incr, IH. unfold len. rewrite length_app. cbn. lia.
Qed.

(** X7. [get_top_words] for the two settings of [exclude_common] and any
    two cut-offs: the list for the smaller cut-off is the head of the list
    for the larger one (the top 50 of [analyze_all_texts] is the head of
    the top 100 of [run_all_analyses]); it is empty for a cut-off of zero
    or less; and when the cut-off reaches the number of distinct words that
    are counted, every such word is listed and the counts add up to the
    number of tokens that are counted. *)
Theorem get_top_words_cut_off (tokens : list string) (exclude_common : bool) (n m : Z) :
  let counted := if exclude_common then filter (λ t, t ∉ common) tokens else tokens in
  (n ≤ m →
   get_top_words tokens n exclude_common
   = take (Z.to_nat n) (get_top_words tokens m exclude_common)) ∧
  (n ≤ 0 → get_top_words tokens n exclude_common = []) ∧
  (set_len (set counted) ≤ n →
   (∀ t, t ∈ counted → (t, Spec.occurrences t counted) ∈ get_top_words tokens n exclude_common) ∧
   total_count (get_top_words tokens n exclude_common) = len counted).
Proof.
  intros counted. unfold get_top_words. fold counted. unfold most_common, slice_to.
  set (ranked := sorted_by_key_desc snd (Counter counted)).
  assert (Hperm : ranked ≡ₚ Counter counted) by apply Ranking.sorted_with_perm.
  split; [|split].
  - intros Hnm. rewrite take_take. f_equal. lia.
  - intros Hn. replace (Z.to_nat n) with 0%nat by lia. done.
  - intros Hall. rewrite take_ge.
    + split.
      * intros t Ht. rewrite Hperm. by apply Ranking.Counter_has.
      * by rewrite (total_count_perm _ _ Hperm), total_count_Counter.
    + rewrite Hperm, Ranking.Counter_length. unfold set_len in Hall. lia.
Qed.

End RankingFacts.

(** ** More on [compare_author_vocabularies] *)

Module ComparatorFacts.
Import Py TextAnalyzer FloatFacts Props ListFacts.

(** The value of [compare_author_vocabularies] when the first group has a
    token. *)
Lemma compare_author_vocabularies_eq (h : hash_order)
    (plato_texts aristotle_texts : list (string * text_data)) :
  let pt := combine_tokens plato_texts in
  let at_ := combine_tokens aristotle_texts in
  pt ≠ [] →
  compare_author_vocabularies h plato_texts aristotle_texts =
  Ok {| plato_vocabulary_size := set_len (set pt);
        aristotle_vocabulary_size := set_len (set at_);
        shared_vocabulary := set_len (set pt ∩ set at_);
        plato_unique := set_len (set pt ∖ set at_);
        aristotle_unique := set_len (set at_ ∖ set pt);
        overlap_percentage :=
          float_round (float_mul_int (Spec.ratio (set_len (set pt ∩ set at_))
                                        (set_len (set pt ∪ set at_))) 100) 2;
        aristotle_uses_plato :=
          float_round (float_mul_int (Spec.ratio (set_len (set pt ∩ set at_))
                                        (set_len (set pt))) 100) 2;
        top_shared_words :=
          to_shared_word <$>
            take 50 (sorted_by_key_desc (λ x, SharedFreq.total x.2)
                       (shared_entry pt at_ <$> h (set pt ∩ set at_)));
        top_plato_unique :=
          most_common 30 (Counter (filter (λ t, t ∈ set pt ∖ set at_) pt));
        top_aristotle_unique :=
          most_common 30 (Counter (filter (λ t, t ∈ set at_ ∖ set pt) at_)) |}.
Proof.
  intros pt at_ Hne. unfold compare_author_vocabularies. cbv zeta.
  fold pt at_.
  assert (set pt ≠ ∅) as Hset by (by rewrite Comparator.set_empty_iff).
  rewrite !Overlap.int_truediv_ok.
  - unfold mbind, res_bind, slice_to. rewrite take_take. reflexivity.
  - rewrite Overlap.set_len_zero. intros [? ?]%empty_union_L. done.
  - by rewrite Overlap.set_len_zero.
Qed.

Lemma compare_author_vocabularies_no_plato (h : hash_order)
    (plato_texts aristotle_texts : list (string * text_data)) :
  combine_tokens plato_texts = [] →
  compare_author_vocabularies h plato_texts aristotle_texts = Raise ZeroDivisionError.
Proof.
  intros He. unfold compare_author_vocabularies. cbv zeta. rewrite He.
  change (set_len (set [])) with 0. rewrite Overlap.int_truediv_zero.
  unfold int_truediv. destruct (decide _); reflexivity.
Qed.

(** X8. The ranking of shared words, in any run: at most 50 entries (all of
    them when fewer words are shared), one per word; each entry is a word
    that occurs in both groups, with its numbers of occurrences in the
    tokens of each group; the summed counts never increase along the list;
    and a shared word that is left out has a summed count no greater than
    that of any listed word. *)
Theorem top_shared_words_ranking (h : hash_order)
    (plato_texts aristotle_texts : list (string * text_data)) :
  let pt := combine_tokens plato_texts in
  let at_ := combine_tokens aristotle_texts in
  pt ≠ [] →
  ∃ r, compare_author_vocabularies h plato_texts aristotle_texts = Ok r ∧
    len (top_shared_words r) = Z.min 50 (shared_vocabulary r) ∧
    NoDup (word <$> top_shared_words r) ∧
    (∀ e, e ∈ top_shared_words r →
       word e ∈ pt ∧ word e ∈ at_ ∧
       plato_count e = Spec.occurrences (word e) pt ∧
       aristotle_count e = Spec.occurrences (word e) at_) ∧
    StronglySorted (λ x y, plato_count y + aristotle_count y ≤ plato_count x + aristotle_count x)
      (top_shared_words r) ∧
    (∀ w, w ∈ pt → w ∈ at_ → w ∉ word <$> top_shared_words r →
       ∀ e, e ∈ top_shared_words r →
         Spec.occurrences w pt + Spec.occurrences w at_ ≤ plato_count e + aristotle_count e).
Proof.
  intros pt at_ Hne.
  rewrite (compare_author_vocabularies_eq h plato_texts aristotle_texts Hne).
  fold pt at_. eexists. split; [done|]. cbn.
  set (S := set pt ∩ set at_).
  set (key := λ x : string * SharedFreq.t, SharedFreq.total x.2).
  set (freq := shared_entry pt at_ <$> h S).
  set (ranked := sorted_by_key_desc key freq).
  assert (Hperm : ranked ≡ₚ freq) by apply Ranking.sorted_with_perm.
  assert (Hnd : NoDup (h S)) by (rewrite set_iter_perm; apply NoDup_elements).
  assert (Hfst : ranked.*1 ≡ₚ h S).
  { rewrite Hperm. unfold freq. rewrite <- list_fmap_compose.
    replace (h S) with (id <$> h S) at 2 by apply list_fmap_id. done. }
  assert (Hword : ∀ l : list (string * SharedFreq.t), word <$> (to_shared_word <$> l) = l.*1).
  { intros l. by rewrite <- list_fmap_compose. }
  assert (Hmem : ∀ x, x ∈ ranked → ∃ w, x = shared_entry pt at_ w ∧ w ∈ pt ∧ w ∈ at_).
  { intros x Hx. rewrite Hperm in Hx. apply list_elem_of_fmap in Hx as (w & -> & Hw).
    exists w. split; [done|]. rewrite set_iter_perm, elem_of_elements in Hw.
    apply elem_of_intersection in Hw as [H1 H2]. by rewrite !elem_of_set in *. }
  assert (Hsorted : StronglySorted (λ x y, key y ≤ key x) ranked).
  { apply (StronglySorted_impl_elem (key_desc_then key (λ _ _, True))).
    - intros x y _ _ [?|[? _]]; lia.
    - apply Ranking.sorted_by_key_desc_stable.
      clear. induction freq; constructor; [done|]. by apply Forall_forall. }
  split; [|split; [|split; [|split]]].
  - unfold len, set_len. rewrite length_fmap, length_take, Hperm. unfold freq.
    rewrite length_fmap, set_iter_perm. change (length (elements S)) with (size S). lia.
  - rewrite Hword, fmap_take. apply (sublist_NoDup _ ranked.*1); [|apply sublist_take].
    by rewrite Hfst.
  - intros e He. apply list_elem_of_fmap in He as (x & -> & Hx).
    apply elem_of_take_l in Hx. destruct (Hmem x Hx) as (w & -> & H1 & H2).
    cbn. by rewrite !Ranking.counter_get_Counter.
  - apply StronglySorted_fmap_2. apply StronglySorted_take.
    apply (StronglySorted_impl_elem (λ x y, key y ≤ key x)); [|done].
    intros x y Hx Hy. destruct (Hmem x Hx) as (w1 & -> & _).
    destruct (Hmem y Hy) as (w2 & -> & _). done.
  - intros w H1 H2 Hout e He. apply list_elem_of_fmap in He as (x & -> & Hx).
    rewrite Hword, fmap_take in Hout.
    assert (shared_entry pt at_ w ∈ ranked) as Hw.
    { rewrite Hperm. apply list_elem_of_fmap_2.
      rewrite set_iter_perm, elem_of_elements. apply elem_of_intersection.
      by rewrite !elem_of_set. }
    rewrite <- (take_drop 50 ranked) in Hw. apply elem_of_app in Hw as [Hw|Hw].
    { destruct Hout. rewrite <- fmap_take. by apply (list_elem_of_fmap_2 fst) in Hw. }
    pose proof (StronglySorted_take_drop _ 50 ranked x _ Hsorted Hx Hw) as Hle.
    destruct (Hmem x (elem_of_take_l _ _ _ Hx)) as (w1 & -> & _).
    unfold key in Hle. cbn in Hle |- *.
    rewrite <- !Ranking.counter_get_Counter. exact Hle.
Qed.

(** Both authors use [a] and [b] once: two shared words. *)
Lemma top_shared_words_ranking_witness :
  ∃ r, compare_author_vocabularies Runs.forward Inputs.plato_ab Inputs.aristotle_ab = Ok r ∧
    len (top_shared_words r) = 2.
Proof.
  destruct (top_shared_words_ranking Runs.forward Inputs.plato_ab Inputs.aristotle_ab)
    as (r & Hr & Hlen & _).
  - discriminate.
  - exists r. split; [exact Hr|]. rewrite Hlen.
    assert (Some (shared_vocabulary r) = Some 2) as [= ->]; [|reflexivity].
    change (Some (shared_vocabulary r)) with
      (match Ok r with Ok r => Some (shared_vocabulary r) | Raise _ => None end).
    rewrite <- Hr. vm_compute. reflexivity.
Defined.

(** X9. Without ties the comparison is the same in every run: if no two
    shared words have the same summed count, [compare_author_vocabularies]
    does not depend on the order in which sets are enumerated. *)
Theorem compare_author_vocabularies_without_ties (h1 h2 : hash_order)
    (plato_texts aristotle_texts : list (string * text_data)) :
  let pt := combine_tokens plato_texts in
  let at_ := combine_tokens aristotle_texts in
  (∀ w1 w2, w1 ∈ pt → w1 ∈ at_ → w2 ∈ pt → w2 ∈ at_ →
     Spec.occurrences w1 pt + Spec.occurrences w1 at_
     = Spec.occurrences w2 pt + Spec.occurrences w2 at_ → w1 = w2) →
  compare_author_vocabularies h1 plato_texts aristotle_texts
  = compare_author_vocabularies h2 plato_texts aristotle_texts.
Proof.
  intros pt at_ Hties.
  destruct (decide (pt = [])) as [He|Hne].
  { by rewrite !compare_author_vocabularies_no_plato. }
  rewrite !compare_author_vocabularies_eq by done. fold pt at_.
  do 4 f_equal.
  set (S := set pt ∩ set at_).
  set (key := λ x : string * SharedFreq.t, SharedFreq.total x.2).
  assert (Hsorted : ∀ h : hash_order,
            StronglySorted (λ x y, key y < key x)
              (sorted_by_key_desc key (shared_entry pt at_ <$> h S))).
  { intros h.
    assert (Hnd : NoDup (shared_entry pt at_ <$> h S)).
    { apply NoDup_fmap_2; [by intros w1 w2 [= ->]|].
      rewrite set_iter_perm. apply NoDup_elements. }
    apply (StronglySorted_impl_elem (key_desc_then key (λ x y, x ≠ y))).
    - intros x y Hx Hy [Hlt|[Heq Hxy]]; [done|]. destruct Hxy.
      unfold sorted_by_key_desc in Hx, Hy. rewrite Ranking.sorted_with_perm in Hx, Hy.
      apply list_elem_of_fmap in Hx as (w1 & -> & Hw1), Hy as (w2 & -> & Hw2).
      rewrite set_iter_perm, elem_of_elements in Hw1, Hw2.
      apply elem_of_intersection in Hw1 as [Hp1 Ha1], Hw2 as [Hp2 Ha2].
      rewrite !elem_of_set in *. unfold key in Heq. cbn in Heq.
      rewrite !Ranking.counter_get_Counter in Heq.
      by rewrite (Hties w1 w2 Hp1 Ha1 Hp2 Ha2 Heq).
    - apply Ranking.sorted_by_key_desc_stable. by apply StronglySorted_NoDup_ne. }
  eapply (@StronglySorted_unique _ (λ x y, key y < key x)).
  - intros x y Hxy Hyx. lia.
  - apply Hsorted.
  - apply Hsorted.
  - unfold sorted_by_key_desc. by rewrite !Ranking.sorted_with_perm, !set_iter_perm.
Qed.

(** [form] occurs three times in all and [good] twice: no tie, and the two
    runs agree. *)
Lemma compare_author_vocabularies_without_ties_witness :
  compare_author_vocabularies Runs.forward
    [("Plato", Inputs.doc ["form"; "good"; "form"])] [("Aristotle", Inputs.doc ["good"; "form"])]
  = compare_author_vocabularies Runs.backward
    [("Plato", Inputs.doc ["form"; "good"; "form"])] [("Aristotle", Inputs.doc ["good"; "form"])].
Proof.
  apply (compare_author_vocabularies_without_ties Runs.forward Runs.backward
           [("Plato", Inputs.doc ["form"; "good"; "form"])]
           [("Aristotle", Inputs.doc ["good"; "form"])]).
  intros w1 w2 H1 _ H2 _.
  vm_compute in H1, H2.
  repeat (apply elem_of_cons in H1 as [->|H1]); [| | |by apply elem_of_nil in H1];
    (repeat (apply elem_of_cons in H2 as [->|H2]); [| | |by apply elem_of_nil in H2]);
    vm_compute; intros [=]; reflexivity.
Defined.

Lemma occurrences_filter (P : string → Prop) `{∀ x, Decision (P x)} (t : string)
    (l : list string) :
  P t → Spec.occurrences t (filter P l) = Spec.occurrences t l.
Proof.
  intros Ht. unfold Spec.occurrences. f_equal.
  induction l as [|x l IH]; [done|].
  rewrite !filter_cons. destruct (decide (P x)) as [Hx|Hx].
  - rewrite filter_cons. destruct (decide (x = t)); [by rewrite IH|done].
  - destruct (decide (x = t)) as [->|]; [done|exact IH].
Qed.

Lemma unique_ranking_most_common (own other : list string) (n : Z) :
  0 ≤ n →
  unique_ranking own other n
    (most_common n (Counter (filter (λ t, t ∈ set own ∖ set other) own))).
Proof.
  intros Hn.
  set (kept := filter (λ t, t ∈ set own ∖ set other) own).
  destruct (Ranking.most_common_ranking kept n) as (Hlen & Hnd & Hitems & Hsorted & Hout).
  assert (Hkept : ∀ t, t ∈ kept ↔ t ∈ own ∧ t ∉ other).
  { intros t. unfold kept. rewrite list_elem_of_filter, elem_of_difference, !elem_of_set.
    naive_solver. }
  assert (Hocc : ∀ t, t ∈ kept → Spec.occurrences t kept = Spec.occurrences t own).
  { intros t Ht. apply (occurrences_filter (λ t, t ∈ set own ∖ set other)).
    apply Hkept in Ht. by rewrite elem_of_difference, !elem_of_set. }
  assert (Hset : set kept = set own ∖ set other).
  { apply set_eq. intros t. rewrite elem_of_set, Hkept, elem_of_difference, !elem_of_set.
    done. }
  split; [|split; [|split; [|split]]].
  - unfold len, set_len. rewrite Hlen, Hset. lia.
  - done.
  - intros t c Hin. destruct (Hitems t c Hin) as (Ht & -> & _).
    split; [by apply Hkept|]. split; [by apply Hkept|]. by apply Hocc.
  - apply (StronglySorted_impl_elem (Spec.ranks_before kept)); [|done].
    intros x y _ _ [?|[? _]]; lia.
  - intros t Ht1 Ht2 Hnot x Hx.
    assert (t ∈ kept) as Ht by (by apply Hkept).
    specialize (Hout t Ht Hnot x Hx). rewrite <- Hocc by done.
    destruct Hout as [?|[? _]]; cbn in *; lia.
Qed.

(** X10. The rankings of the words that only one author uses: at most 30
    entries each (all of them when there are fewer such words), one per
    word; each entry is a word of that author's tokens that the other
    author never uses, with its number of occurrences; counts never
    increase along the list, and a word that is left out has a count no
    greater than that of any listed word. *)
Theorem top_unique_words_ranking (h : hash_order)
    (plato_texts aristotle_texts : list (string * text_data)) :
  let pt := combine_tokens plato_texts in
  let at_ := combine_tokens aristotle_texts in
  pt ≠ [] →
  ∃ r, compare_author_vocabularies h plato_texts aristotle_texts = Ok r ∧
    plato_unique r = set_len (set pt ∖ set at_) ∧
    aristotle_unique r = set_len (set at_ ∖ set pt) ∧
    unique_ranking pt at_ 30 (top_plato_unique r) ∧
    unique_ranking at_ pt 30 (top_aristotle_unique r).
Proof.
  intros pt at_ Hne.
  rewrite (compare_author_vocabularies_eq h plato_texts aristotle_texts Hne).
  fold pt at_. eexists. split; [done|]. cbn.
  split; [done|]. split; [done|].
  split; by apply unique_ranking_most_common.
Qed.

(** Only [form] is unique to the first text. *)
Lemma top_unique_words_ranking_witness :
  ∃ r, compare_author_vocabularies Runs.forward
         [("Plato", Inputs.doc ["form"; "good"; "form"])]
         [("Aristotle", Inputs.doc ["good"; "cause"])] = Ok r ∧
    unique_ranking ["form"; "good"; "form"] ["good"; "cause"] 30 (top_plato_unique r).
Proof.
  destruct (top_unique_words_ranking Runs.forward
              [("Plato", Inputs.doc ["form"; "good"; "form"])]
              [("Aristotle", Inputs.doc ["good"; "cause"])]) as (r & Hr & _ & _ & Hp & _).
  - discriminate.
  - exists r. split; [exact Hr|exact Hp].
Defined.

(** X11. The counts of the author comparison partition the two
    vocabularies: the shared words and the words unique to an author make up
    that author's vocabulary, and the overlap percentage is the ratio of the
    shared words to the three parts together, times 100, to 2 decimals. *)
Theorem author_vocabulary_partition (h : hash_order)
    (plato_texts aristotle_texts : list (string * text_data)) :
  combine_tokens plato_texts ≠ [] →
  ∃ r, compare_author_vocabularies h plato_texts aristotle_texts = Ok r ∧
    plato_vocabulary_size r = shared_vocabulary r + plato_unique r ∧
    aristotle_vocabulary_size r = shared_vocabulary r + aristotle_unique r ∧
    0 < plato_vocabulary_size r ∧
    overlap_percentage r =
      float_round (float_mul_int
        (Spec.ratio (shared_vocabulary r)
           (shared_vocabulary r + plato_unique r + aristotle_unique r)) 100) 2 ∧
    aristotle_uses_plato r =
      float_round (float_mul_int
        (Spec.ratio (shared_vocabulary r) (shared_vocabulary r + plato_unique r)) 100) 2.
Proof.
  intros Hne.
  rewrite (compare_author_vocabularies_eq h plato_texts aristotle_texts Hne).
  eexists. split; [done|]. cbn.
  set (P := set (combine_tokens plato_texts)). set (A := set (combine_tokens aristotle_texts)).
  pose proof (Overlap.set_len_partition P A) as H1.
  pose proof (Overlap.set_len_partition A P) as H2.
  rewrite (comm_L (∩) A P) in H2.
  split; [done|]. split; [done|].
  split; [by apply Diversity.set_len_pos|].
  by rewrite <- Overlap.set_len_union, H1.
Qed.

(** Two shared words and none unique. *)
Lemma author_vocabulary_partition_witness :
  ∃ r, compare_author_vocabularies Runs.forward Inputs.plato_ab Inputs.aristotle_ab = Ok r ∧
    plato_vocabulary_size r = shared_vocabulary r + plato_unique r.
Proof.
  destruct (author_vocabulary_partition Runs.forward Inputs.plato_ab Inputs.aristotle_ab)
    as (r & Hr & Hp & _).
  - discriminate.
  - exists r. split; [exact Hr|exact Hp].
Defined.

End ComparatorFacts.

(** ** The descriptive statistics of input that is not empty *)

Module DescriptiveFacts.
Import Py PyStr TextAnalyzer FloatFacts ListFacts.

Lemma foldl_min_spec (l : list Z) (x : Z) :
  foldl Z.min x l ∈ x :: l ∧ ∀ y, y ∈ x :: l → foldl Z.min x l ≤ y.
Proof.
  revert x. induction l as [|a l IH]; intros x.
  - cbn. split; [by left|]. intros y ->%list_elem_of_singleton. done.
  - cbn [foldl]. destruct (IH (Z.min x a)) as [Hin Hle]. split.
    + apply elem_of_cons in Hin as [->|Hin].
      * destruct (Z.min_spec x a) as [[_ ->]|[_ ->]]; [by left|right; by left].
      * right. by right.
    + intros y [->|[->|Hy]%elem_of_cons]%elem_of_cons.
      * etransitivity; [apply Hle; by left|]. lia.
      * etransitivity; [apply Hle; by left|]. lia.
      * apply Hle. by right.
Qed.

Lemma foldl_max_spec (l : list Z) (x : Z) :
  foldl Z.max x l ∈ x :: l ∧ ∀ y, y ∈ x :: l → y ≤ foldl Z.max x l.
Proof.
  revert x. induction l as [|a l IH]; intros x.
  - cbn. split; [by left|]. intros y ->%list_elem_of_singleton. done.
  - cbn [foldl]. destruct (IH (Z.max x a)) as [Hin Hle]. split.
    + apply elem_of_cons in Hin as [->|Hin].
      * destruct (Z.max_spec x a) as [[_ ->]|[_ ->]]; [right; by left|by left].
      * right. by right.
    + intros y [->|[->|Hy]%elem_of_cons]%elem_of_cons.
      * etransitivity; [|apply Hle; by left]. lia.
      * etransitivity; [|apply Hle; by left]. lia.
      * apply Hle. by right.
Qed.

(** X12. The sentence statistics of a list of sentences that is not empty:
    the record has its six entries, [sentence_count] is the number of
    sentences, and [min_sentence_length] and [max_sentence_length] are the
    least and the greatest number of words, in the sense of [split], of a
    sentence of the list. *)
Theorem sentence_stats_extremes `{Numpy} (first : string) (others : list string) :
  let sentences := first :: others in
  ∃ d lo hi,
    calculate_sentence_stats sentences = Ok d ∧
    dom d = list_to_set ["sentence_count"; "avg_sentence_length"; "median_sentence_length";
                         "min_sentence_length"; "max_sentence_length";
                         "std_sentence_length"] ∧
    d !! "sentence_count" = Some (Int (len sentences)) ∧
    d !! "min_sentence_length" = Some (Int lo) ∧
    d !! "max_sentence_length" = Some (Int hi) ∧
    (∃ s, s ∈ sentences ∧ lo = len (split s)) ∧
    (∃ s, s ∈ sentences ∧ hi = len (split s)) ∧
    (∀ s, s ∈ sentences → lo ≤ len (split s) ≤ hi) ∧
    0 ≤ lo ≤ hi.
Proof.
  intros sentences.
  set (lengths := (λ s, len (split s)) <$> sentences).
  destruct (foldl_min_spec ((λ s, len (split s)) <$> others) (len (split first)))
    as [Hlo_in Hlo].
  destruct (foldl_max_spec ((λ s, len (split s)) <$> others) (len (split first)))
    as [Hhi_in Hhi].
  change (len (split first) :: _) with lengths in Hlo_in, Hlo, Hhi_in, Hhi.
  eexists _, (foldl Z.min (len (split first)) ((λ s, len (split s)) <$> others)),
    (foldl Z.max (len (split first)) ((λ s, len (split s)) <$> others)).
  split; [reflexivity|]. split; [|split; [done|]; split; [done|]; split; [done|]].
  { unfold dict. rewrite dom_list_to_map_L. done. }
  apply list_elem_of_fmap in Hlo_in as (slo & Hslo & Hslo_in).
  apply list_elem_of_fmap in Hhi_in as (shi & Hshi & Hshi_in).
  split; [by exists slo|]. split; [by exists shi|].
  assert (Hall : ∀ s, s ∈ sentences →
            foldl Z.min (len (split first)) ((λ s, len (split s)) <$> others)
            ≤ len (split s)
            ≤ foldl Z.max (len (split first)) ((λ s, len (split s)) <$> others)).
  { intros s Hs. split; [apply Hlo|apply Hhi];
      by apply (list_elem_of_fmap_2 (λ s, len (split s))). }
  split; [done|]. specialize (Hall slo Hslo_in).
  assert (0 ≤ len (split slo)) as Hnonneg by (unfold len; lia).
  rewrite <- Hslo in Hall, Hnonneg. lia.
Qed.

(** X13. The word statistics of a token list that is not empty:
    [long_words] is the number of tokens of more than six characters, and
    [long_word_ratio] is its quotient by the number of tokens, to four
    decimals; for fewer than [2^53] tokens this is a float between [0.0] and
    [1.0], [0.0] when no token is long and [1.0] when all are. *)
Theorem word_stats_long_words `{Numpy} (first : string) (others : list string) :
  let tokens := first :: others in
  let long := len (filter (λ t, 6 < str_len t) tokens) in
  ∃ d ratio,
    calculate_word_stats tokens = Ok d ∧
    d !! "long_words" = Some (Int long) ∧
    0 ≤ long ≤ len tokens ∧
    d !! "long_word_ratio" = Some (Float ratio) ∧
    ratio = float_round (Spec.ratio long (len tokens)) 4 ∧
    (len tokens < 2 ^ 53 →
     float_le float_zero ratio = true ∧ float_le ratio float_one = true ∧
     (long = 0 → ratio = float_zero) ∧
     (long = len tokens → ratio = float_one)).
Proof.
  intros tokens long.
  assert (Hlong : len (filter (λ w, 6 < w) (str_len <$> tokens)) = long).
  { unfold long, len. by rewrite length_filter_fmap. }
  assert (0 < len tokens) as Hpos by (unfold len; cbn; lia).
  assert (0 ≤ long ≤ len tokens) as Hbounds.
  { unfold long, len. split; [lia|]. apply inj_le, sublist_length, sublist_filter. }
  unfold calculate_word_stats. fold tokens. cbv zeta. rewrite Hlong.
  rewrite Overlap.int_truediv_ok by lia. cbn [mbind res_bind].
  eexists _, _. split; [reflexivity|]. split; [done|]. split; [done|]. split; [done|].
  split; [done|]. intros Hlen.
  destruct (decide (long = 0)) as [->|Hnz].
  - unfold Spec.ratio. rewrite OverlapFacts.float_div_zero by lia.
    split; [done|]. split; [done|]. split; [done|]. lia.
  - destruct (Diversity.ttr_unit long (len tokens)) as [H0 H1]; [lia|lia|].
    split; [done|]. split; [done|]. split; [done|].
    intros ->. by apply Diversity.ttr_all_distinct.
Qed.

End DescriptiveFacts.

(** ** Dictionaries in insertion order *)

Module DictFacts.
Import Py PyStr.

Lemma dict_set_keys {V} (d : list (string * V)) (k : string) (v : V) :
  (dict_set d k v).*1 = if decide (k ∈ d.*1) then d.*1 else d.*1 ++ [k].
Proof.
  induction d as [|[k' v'] d IH]; [done|]. cbn [dict_set].
  destruct (decide (k = k')) as [->|Hne].
  - cbn. rewrite decide_True; [done|by left].
  - cbn. rewrite IH. destruct (decide (k ∈ d.*1)) as [Hin|Hout].
    + rewrite decide_True; [done|by right].
    + rewrite decide_False; [done|]. by intros [?|?]%elem_of_cons.
Qed.

Lemma dict_set_NoDup {V} (d : list (string * V)) (k : string) (v : V) :
  NoDup d.*1 → NoDup (dict_set d k v).*1.
Proof.
  intros Hnd. rewrite dict_set_keys. destruct (decide _) as [|Hout]; [done|].
  apply NoDup_app. split; [done|]. split; [|apply NoDup_singleton].
  intros x Hx ->%list_elem_of_singleton. done.
Qed.

Lemma dict_set_new {V} (d : list (string * V)) (k : string) (v : V) :
  k ∉ d.*1 → dict_set d k v = d ++ [(k, v)].
Proof.
  induction d as [|[k' v'] d IH]; intros Hout; [done|]. cbn in Hout.
  apply not_elem_of_cons in Hout as [Hne Hout]. cbn [dict_set].
  rewrite decide_False by done. by rewrite IH.
Qed.

Lemma dict_set_elem {V} (d : list (string * V)) (k : string) (v : V) (x : string * V) :
  x ∈ dict_set d k v → x = (k, v) ∨ x ∈ d.
Proof.
  induction d as [|[k' v'] d IH]; cbn [dict_set].
  - intros ->%list_elem_of_singleton. by left.
  - destruct (decide (k = k')) as [->|Hne].
    + intros [->|Hx]%elem_of_cons; [by left|right; by right].
    + intros [->|Hx]%elem_of_cons; [right; by left|].
      destruct (IH Hx) as [->|?]; [by left|right; by right].
Qed.

Lemma filter_dict_set {V} (P : string → Prop) `{∀ k, Decision (P k)}
    (d : list (string * V)) (k : string) (v : V) :
  filter (λ kv, P kv.1) (dict_set d k v) =
  if decide (P k) then dict_set (filter (λ kv, P kv.1) d) k v else filter (λ kv, P kv.1) d.
Proof.
  induction d as [|[k' v'] d IH].
  - cbn [dict_set]. rewrite filter_cons, filter_nil. cbn. by destruct (decide (P k)).
  - cbn [dict_set]. destruct (decide (k = k')) as [->|Hne].
    + rewrite !filter_cons. cbn. destruct (decide (P k')); [|done].
      cbn [dict_set]. by rewrite decide_True.
    + rewrite !filter_cons, IH. cbn. destruct (decide (P k')), (decide (P k)); try done.
      cbn [dict_set]. by rewrite decide_False.
Qed.

End DictFacts.

(** ** The content of the comparison matrix *)

Module MatrixFacts.
Import Py PyStr TextAnalyzer Analyze Props.

Lemma pairwise_inner_values (h : hash_order) (all_texts : list (string * text_data))
    (id1 : string) (rest : list string) :
  ∀ acc m, pairwise_inner h all_texts id1 rest acc = Ok m →
    NoDup (pair_key id1 <$> rest) →
    (∀ id2, id2 ∈ rest → ∃ o, overlap_of h all_texts id1 id2 = Ok o ∧
                               m !! pair_key id1 id2 = Some o) ∧
    (∀ k, k ∉ pair_key id1 <$> rest → m !! k = acc !! k).
Proof.
  induction rest as [|id2 rest IH]; intros acc m Hm Hnd.
  - injection Hm as <-. split; [|done]. intros id2 Hin. by apply elem_of_nil in Hin.
  - cbn [pairwise_inner] in Hm. cbn [fmap list_fmap] in Hnd.
    apply NoDup_cons in Hnd as [Hnew Hnd].
    destruct (dict_get all_texts id1) as [d1|e1] eqn:H1; [|done].
    destruct (dict_get all_texts id2) as [d2|e2] eqn:H2; [|done].
    cbn [mbind res_bind] in Hm.
    destruct (calculate_vocabulary_overlap h _ _) as [o|e] eqn:Ho; [|done].
    cbn [mbind res_bind] in Hm.
    destruct (IH _ _ Hm Hnd) as [Hvals Hother]. split.
    + intros x [->|Hx]%elem_of_cons; [|by apply Hvals].
      exists o. split.
      * unfold overlap_of. rewrite H1, H2. exact Ho.
      * rewrite Hother by done. apply lookup_insert_eq.
    + intros k Hk. apply not_elem_of_cons in Hk as [Hne Hk].
      rewrite Hother by done. by rewrite lookup_insert_ne.
Qed.

Lemma pairwise_outer_values (h : hash_order) (all_texts : list (string * text_data))
    (ids : list string) :
  ∀ acc m, pairwise_outer h all_texts ids acc = Ok m →
    NoDup (Spec.pair_keys ids) →
    (∀ p, p ∈ Spec.all_pairs ids → ∃ o, overlap_of h all_texts p.1 p.2 = Ok o ∧
                                        m !! pair_key p.1 p.2 = Some o) ∧
    (∀ k, k ∉ Spec.pair_keys ids → m !! k = acc !! k).
Proof.
  induction ids as [|id1 rest IH]; intros acc m Hm Hnd.
  - injection Hm as <-. split; [|done]. intros p Hp. by apply elem_of_nil in Hp.
  - cbn [pairwise_outer] in Hm.
    destruct (pairwise_inner h all_texts id1 rest acc) as [m1|] eqn:Hinner; [|done].
    cbn [mbind res_bind] in Hm.
    unfold Spec.pair_keys in Hnd. cbn [Spec.all_pairs] in Hnd.
    rewrite fmap_app, <- list_fmap_compose in Hnd.
    change ((λ p : string * string, p.1 +:+ " vs " +:+ p.2) ∘ (λ id2, (id1, id2)))
      with (pair_key id1) in Hnd.
    apply NoDup_app in Hnd as (Hnd1 & Hdisj & Hnd2).
    fold (Spec.pair_keys rest) in Hnd2, Hdisj.
    destruct (pairwise_inner_values h all_texts id1 rest acc m1 Hinner Hnd1) as [Hv1 Ho1].
    destruct (IH m1 m Hm Hnd2) as [Hv2 Ho2]. split.
    + intros p Hp. cbn [Spec.all_pairs] in Hp. apply elem_of_app in Hp as [Hp|Hp].
      * apply list_elem_of_fmap in Hp as (id2 & -> & Hid2). cbn [fst snd].
        destruct (Hv1 id2 Hid2) as (o & Ho & Hlook). exists o. split; [done|].
        rewrite Ho2; [done|]. apply Hdisj. by apply list_elem_of_fmap_2.
      * by apply Hv2.
    + intros k Hk. unfold Spec.pair_keys in Hk. cbn [Spec.all_pairs] in Hk.
      rewrite fmap_app, <- list_fmap_compose in Hk.
      apply not_elem_of_app in Hk as [Hk1 Hk2].
      rewrite Ho2 by done. by apply Ho1.
Qed.

(** X14. The content of the comparison matrix of [analyze_all_texts], when
    the keys of all pairs are different: the entry under [id1 vs id2], for
    [id1] before [id2] in the order of the texts, is the vocabulary overlap
    of the lemmatized tokens of [id1] and of [id2], in this order, and the
    matrix has no other key. *)
Theorem pairwise_overlaps_values (h : hash_order) (all_texts : list (string * text_data)) :
  NoDup (Spec.pair_keys all_texts.*1) →
  ∃ m, pairwise_overlaps h all_texts = Ok m ∧
    (∀ id1 id2, (id1, id2) ∈ Spec.all_pairs all_texts.*1 →
       ∃ d1 d2 o,
         dict_get all_texts id1 = Ok d1 ∧ dict_get all_texts id2 = Ok d2 ∧
         calculate_vocabulary_overlap h (tokens_lemmatized d1) (tokens_lemmatized d2) = Ok o ∧
         m !! pair_key id1 id2 = Some o) ∧
    (∀ k, k ∉ Spec.pair_keys all_texts.*1 → m !! k = None).
Proof.
  intros Hnd. destruct (Matrix.pairwise_overlaps_entries h all_texts) as (m & Hm & _).
  exists m. split; [done|]. unfold pairwise_overlaps in Hm.
  destruct (pairwise_outer_values h all_texts all_texts.*1 ∅ m Hm Hnd) as [Hv Ho].
  split.
  - intros id1 id2 Hp. destruct (Hv (id1, id2) Hp) as (o & Hov & Hlook).
    cbn [fst snd] in Hov, Hlook. unfold overlap_of in Hov.
    destruct (dict_get all_texts id1) as [d1|]; [|done].
    destruct (dict_get all_texts id2) as [d2|]; [|done].
    by exists d1, d2, o.
  - intros k Hk. by rewrite Ho.
Qed.

(** Two texts have one pair, and no key but [Plato vs Aristotle]. *)
Lemma pairwise_overlaps_values_witness :
  ∃ m, pairwise_overlaps Runs.forward
         [("Plato", Inputs.doc ["form"]); ("Aristotle", Inputs.doc ["cause"])] = Ok m ∧
       m !! "Republic" = None.
Proof.
  destruct (pairwise_overlaps_values Runs.forward
              [("Plato", Inputs.doc ["form"]); ("Aristotle", Inputs.doc ["cause"])])
    as (m & Hm & _ & Hnone).
  - apply (bool_decide_unpack _). vm_compute. exact I.
  - exists m. split; [exact Hm|]. apply Hnone.
    apply (bool_decide_unpack _). vm_compute. exact I.
Defined.

(** X15. Apart from the ranking of the shared words, nothing depends on the
    order in which a run enumerates its sets: the overlap of two token
    lists, the comparison matrix of [analyze_all_texts] and the comparisons
    of [run_all_analyses] are the same in any two runs. *)
Theorem overlaps_run_independent (h1 h2 : hash_order)
    (all_texts : list (string * text_data)) (tokens1 tokens2 : list string) :
  calculate_vocabulary_overlap h1 tokens1 tokens2
  = calculate_vocabulary_overlap h2 tokens1 tokens2 ∧
  pairwise_overlaps h1 all_texts = pairwise_overlaps h2 all_texts ∧
  Generate.pairwise_comparisons h1 all_texts = Generate.pairwise_comparisons h2 all_texts.
Proof.
  split; [apply Determinism.calculate_vocabulary_overlap_deterministic|].
  split; [apply Determinism.pairwise_overlaps_deterministic|].
  unfold Generate.pairwise_comparisons. cbv zeta.
  generalize ([] : list (string * overlap)).
  induction (all_texts.*1) as [|id1 rest IH]; intros acc; [done|].
  cbn [Generate.pairwise_outer].
  assert (∀ acc, Generate.pairwise_inner h1 all_texts id1 rest acc
                 = Generate.pairwise_inner h2 all_texts id1 rest acc) as ->.
  { clear. induction rest as [|id2 rest IH]; intros acc; [done|].
    cbn [Generate.pairwise_inner]. destruct (dict_get all_texts id1); [|done].
    destruct (dict_get all_texts id2); [|done]. cbn [mbind res_bind].
    rewrite (Determinism.calculate_vocabulary_overlap_deterministic h1 h2).
    destruct (calculate_vocabulary_overlap h2 _ _); [|done]. cbn [mbind res_bind]. apply IH. }
  destruct (Generate.pairwise_inner h2 _ _ _ _); [|done]. cbn [mbind res_bind]. apply IH.
Qed.

End MatrixFacts.

(** ** The loading loop and the author groups *)

Module CorpusFacts.
Import Py PyStr TextPreprocessor Corpus Props ListFacts DictFacts.

Section load.
Context `{Nltk}.

Lemma load_texts_snoc (files : list (string * string)) (file : string * string) :
  load_texts (files ++ [file]) = load_text (load_texts files) file.
Proof. unfold load_texts. by rewrite foldl_app. Qed.

Lemma load_texts_groups (txt_files : list (string * string)) :
  let c := load_texts txt_files in
  plato_texts c = filter (λ kv, is_plato kv.1) (all_texts c) ∧
  aristotle_texts c = filter (λ kv, is_aristotle kv.1) (all_texts c) ∧
  NoDup (all_texts c).*1 ∧
  (∀ text_id, text_id ∈ (all_texts c).*1 ↔ text_id ∈ txt_files.*1) ∧
  (∀ kv, kv ∈ all_texts c →
     ∃ text, (kv.1, text) ∈ txt_files ∧ kv.2 = preprocess_for_analysis text).
Proof.
  induction txt_files as [|[text_id text] files IH] using rev_ind.
  - cbn. split; [done|]. split; [done|]. split; [constructor|]. split; [done|].
    intros kv Hkv. by apply elem_of_nil in Hkv.
  - rewrite load_texts_snoc. destruct IH as (IHp & IHa & IHnd & IHkeys & IHval).
    set (c := load_texts files) in *. cbv zeta.
    assert (Hall : all_texts (load_text c (text_id, text))
                   = dict_set (all_texts c) text_id (preprocess_for_analysis text)).
    { unfold load_text. cbn. destruct (str_in "Plato" text_id); [done|].
      by destruct (str_in "Aristotle" text_id || str_in "Artistotle" text_id). }
    assert (Hplato : plato_texts (load_text c (text_id, text))
                     = if decide (is_plato text_id)
                       then dict_set (plato_texts c) text_id (preprocess_for_analysis text)
                       else plato_texts c).
    { destruct (decide (is_plato text_id)) as [Hp|Hp]; unfold load_text, is_plato in *; cbn.
      - by rewrite Hp.
      - apply not_true_is_false in Hp. rewrite Hp.
        by destruct (str_in "Aristotle" text_id || str_in "Artistotle" text_id). }
    assert (Haristotle : aristotle_texts (load_text c (text_id, text))
                     = if decide (is_aristotle text_id)
                       then dict_set (aristotle_texts c) text_id (preprocess_for_analysis text)
                       else aristotle_texts c).
    { destruct (decide (is_aristotle text_id)) as [[Hp Ha]|Hn];
        unfold load_text, is_aristotle in *; cbn.
      - rewrite Hp. by destruct Ha as [-> | ->]; [|rewrite orb_true_r].
      - destruct (str_in "Plato" text_id); [done|].
        destruct (str_in "Aristotle" text_id); [naive_solver|].
        destruct (str_in "Artistotle" text_id); [naive_solver|done]. }
    rewrite Hall, Hplato, Haristotle, !filter_dict_set, <- IHp, <- IHa.
    split; [done|]. split; [done|]. split; [|split].
    + by apply dict_set_NoDup.
    + intros x. rewrite dict_set_keys, fmap_app, elem_of_app. cbn.
      rewrite list_elem_of_singleton, <- IHkeys.
      destruct (decide (text_id ∈ (all_texts c).*1)) as [Hin|Hout].
      * naive_solver.
      * rewrite elem_of_app, list_elem_of_singleton. done.
    + intros kv Hkv. apply dict_set_elem in Hkv as [->|Hkv].
      * exists text. split; [|done]. apply elem_of_app. right. by left.
      * destruct (IHval kv Hkv) as (text' & Hin & Heq). exists text'.
        split; [|done]. apply elem_of_app. by left.
Qed.

(** X16. The author groups that the loading loop builds are sub-dictionaries
    of [all_texts], in the same order: the texts whose name contains
    [Plato], and the texts whose name does not but contains [Aristotle] or
    [Artistotle]. No text is in both groups, a text whose name contains
    both names counts for Plato only, and a text whose name contains none of
    them is in [all_texts] and in neither group. [all_texts] has one entry
    for each file name. *)
Theorem author_groups (txt_files : list (string * string)) :
  let c := load_texts txt_files in
  plato_texts c = filter (λ kv, is_plato kv.1) (all_texts c) ∧
  aristotle_texts c = filter (λ kv, is_aristotle kv.1) (all_texts c) ∧
  (∀ text_id, text_id ∈ (plato_texts c).*1 → text_id ∉ (aristotle_texts c).*1) ∧
  (∀ text_id, text_id ∈ (aristotle_texts c).*1 → str_in "Plato" text_id = false) ∧
  (∀ text_id, str_in "Plato" text_id = false → str_in "Aristotle" text_id = false →
     str_in "Artistotle" text_id = false →
     (text_id ∉ (plato_texts c).*1) ∧ (text_id ∉ (aristotle_texts c).*1)) ∧
  NoDup (all_texts c).*1 ∧
  (∀ text_id, text_id ∈ (all_texts c).*1 ↔ text_id ∈ txt_files.*1).
Proof.
  intros c. destruct (load_texts_groups txt_files) as (Hp & Ha & Hnd & Hkeys & _).
  fold c in Hp, Ha, Hnd, Hkeys.
  assert (Hinp : ∀ text_id, text_id ∈ (plato_texts c).*1 → is_plato text_id).
  { intros text_id Hin. rewrite Hp in Hin.
    apply list_elem_of_fmap in Hin as (kv & -> & Hkv).
    by apply list_elem_of_filter in Hkv as [? _]. }
  assert (Hina : ∀ text_id, text_id ∈ (aristotle_texts c).*1 → is_aristotle text_id).
  { intros text_id Hin. rewrite Ha in Hin.
    apply list_elem_of_fmap in Hin as (kv & -> & Hkv).
    by apply list_elem_of_filter in Hkv as [? _]. }
  split; [done|]. split; [done|]. split; [|split; [|split; [|done]]].
  - intros text_id H1 H2. apply Hinp in H1. apply Hina in H2 as [H2 _].
    unfold is_plato in H1. congruence.
  - intros text_id Hin. by apply Hina in Hin as [? _].
  - intros text_id H1 H2 H3. split.
    + intros Hin. apply Hinp in Hin. unfold is_plato in Hin. congruence.
    + intros Hin. apply Hina in Hin as [_ [?|?]]; congruence.
Qed.

End load.

End CorpusFacts.

(** ** [clean_text] *)

Module CleanFacts.
Import Py PyStr Props.

Lemma adjacent_cons (R : Ascii.ascii → Ascii.ascii → bool) (a b : Ascii.ascii)
    (l : list Ascii.ascii) :
  adjacent R (a :: b :: l) = R a b && adjacent R (b :: l).
Proof. reflexivity. Qed.

Lemma adjacent_tail (R : Ascii.ascii → Ascii.ascii → bool) (a : Ascii.ascii)
    (l : list Ascii.ascii) :
  adjacent R (a :: l) = true → adjacent R l = true.
Proof. destruct l as [|b l]; [done|]. rewrite adjacent_cons. by intros [_ ?]%andb_true_iff. Qed.

Lemma adjacent_app_r (R : Ascii.ascii → Ascii.ascii → bool) (l1 l2 : list Ascii.ascii) :
  adjacent R (l1 ++ l2) = true → adjacent R l2 = true.
Proof. induction l1 as [|a l1 IH]; [done|]. intros H%adjacent_tail. by apply IH. Qed.

Lemma adjacent_app_l (R : Ascii.ascii → Ascii.ascii → bool) (l1 l2 : list Ascii.ascii) :
  adjacent R (l1 ++ l2) = true → adjacent R l1 = true.
Proof.
  induction l1 as [|a l1 IH]; [done|]. destruct l1 as [|b l1]; [done|].
  cbn [app] in *. rewrite !adjacent_cons. intros [HR Hrest]%andb_true_iff.
  by rewrite HR, (IH Hrest).
Qed.

(** A character that is not white space may be followed by any other. *)
Lemma tidy_cons (c : Ascii.ascii) (l : list Ascii.ascii) :
  is_space c = false → adjacent tidy (c :: l) = adjacent tidy l.
Proof. intros Hc. destruct l as [|b l]; [done|]. rewrite adjacent_cons. unfold tidy. by rewrite Hc. Qed.

Lemma no_double_cons (c : Ascii.ascii) (l : list Ascii.ascii) :
  is_space c = false → adjacent no_double (c :: l) = adjacent no_double l.
Proof.
  intros Hc. destruct l as [|b l]; [done|]. rewrite adjacent_cons. unfold no_double.
  by rewrite Hc.
Qed.

Lemma only_spaces_Forall (l : list Ascii.ascii) : only_spaces l = true ↔ spaces_are_spaces l.
Proof.
  unfold only_spaces, spaces_are_spaces. induction l as [|c l IH]; [done|].
  cbn [forallb]. rewrite andb_true_iff, Forall_cons, IH.
  destruct (is_space c); cbn; [rewrite bool_decide_eq_true|]; naive_solver.
Qed.

Lemma is_space_Space : is_space Ascii.Space = true.
Proof. reflexivity. Qed.

(** *** [re.sub(r'\s+', ' ', text)] *)

Lemma sub_spaces_form (l : list Ascii.ascii) :
  ∀ in_run,
    spaces_are_spaces (sub_spaces in_run l) ∧
    adjacent no_double (sub_spaces in_run l) = true ∧
    (in_run = true → starts_clean (sub_spaces in_run l) = true).
Proof.
  induction l as [|c l IH]; intros in_run; [split; [constructor|done]|].
  cbn [sub_spaces]. destruct (is_space c) eqn:Hc.
  - destruct in_run; [apply IH|].
    destruct (IH true) as (Hs & Hd & Hstart). specialize (Hstart eq_refl).
    split; [by constructor|]. split; [|done].
    destruct (sub_spaces true l) as [|b r]; [done|]. rewrite adjacent_cons, Hd.
    unfold no_double. cbn in Hstart. apply negb_true_iff in Hstart. by rewrite Hstart.
  - destruct (IH false) as (Hs & Hd & _).
    split; [constructor; [congruence|done]|]. split.
    + by rewrite no_double_cons.
    + intros _. cbn. by rewrite Hc.
Qed.

Lemma sub_spaces_letters (l : list Ascii.ascii) :
  ∀ in_run, filter (λ c, is_space c = false) (sub_spaces in_run l)
            = filter (λ c, is_space c = false) l.
Proof.
  induction l as [|c l IH]; intros in_run; [done|].
  cbn [sub_spaces]. destruct (is_space c) eqn:Hc.
  - rewrite (filter_cons _ c), decide_False by congruence.
    destruct in_run; [apply IH|].
    rewrite filter_cons, decide_False by (intros Hsp; vm_compute in Hsp; discriminate).
    apply IH.
  - rewrite !filter_cons. destruct (decide (is_space c = false)); [|done]. by rewrite IH.
Qed.

Lemma sub_spaces_fixed (l : list Ascii.ascii) :
  spaces_are_spaces l → adjacent no_double l = true →
  ∀ in_run, (in_run = true → starts_clean l = true) → sub_spaces in_run l = l.
Proof.
  induction l as [|c l IH]; intros Hs Hd in_run Hstart; [done|].
  apply Forall_cons in Hs as [Hc Hs]. pose proof (adjacent_tail _ _ _ Hd) as Hd'.
  cbn [sub_spaces]. destruct (is_space c) eqn:Hsp.
  - destruct in_run.
    + specialize (Hstart eq_refl). cbn in Hstart. by rewrite Hsp in Hstart.
    + rewrite (Hc eq_refl). f_equal. apply IH; [done|done|]. intros _.
      destruct l as [|b l]; [done|]. rewrite adjacent_cons in Hd.
      apply andb_true_iff in Hd as [Hd _]. unfold no_double in Hd.
      rewrite Hsp in Hd. cbn in Hd |- *. done.
  - f_equal. apply IH; [done|done|done].
Qed.

(** *** [re.sub(r'\s+([.,!?;:])', r'\1', text)] *)

Lemma pending_short (pending : list Ascii.ascii) :
  Forall (λ c, is_space c = true) pending → adjacent no_double pending = true →
  pending = [] ∨ ∃ c, pending = [c] ∧ is_space c = true.
Proof.
  intros Hsp Hd. destruct pending as [|a [|b p]]; [by left|right|exfalso].
  - apply Forall_cons in Hsp as [Ha _]. by exists a.
  - apply Forall_cons in Hsp as [Ha Hsp]. apply Forall_cons in Hsp as [Hb _].
    rewrite adjacent_cons in Hd. unfold no_double in Hd. by rewrite Ha, Hb in Hd.
Qed.

Lemma sub_space_punct_elem (l : list Ascii.ascii) :
  ∀ pending x, x ∈ sub_space_punct pending l → x ∈ pending ++ l.
Proof.
  induction l as [|c l IH]; intros pending x; cbn [sub_space_punct].
  - by rewrite app_nil_r.
  - destruct (is_space c).
    + intros Hx%IH. by rewrite <- app_assoc in Hx.
    + destruct (is_punct c).
      * intros [->|Hx%IH]%elem_of_cons; rewrite elem_of_app, elem_of_cons; naive_solver.
      * rewrite !elem_of_app, !elem_of_cons. intros [?|[?|Hx%IH]]; naive_solver.
Qed.

Lemma sub_space_punct_form (l : list Ascii.ascii) :
  ∀ pending,
    Forall (λ c, is_space c = true) pending →
    adjacent no_double (pending ++ l) = true →
    adjacent tidy (sub_space_punct pending l) = true.
Proof.
  induction l as [|c l IH]; intros pending Hsp Hd; cbn [sub_space_punct].
  - rewrite app_nil_r in Hd. by destruct (pending_short pending Hsp Hd) as [->|(s & -> & _)].
  - destruct (is_space c) eqn:Hc.
    + apply IH; [|by rewrite <- app_assoc].
      apply Forall_app. split; [done|]. by constructor.
    + assert (adjacent tidy (c :: sub_space_punct [] l) = true) as Hrest.
      { rewrite tidy_cons by done. apply IH; [constructor|].
        apply adjacent_app_r in Hd. by apply adjacent_tail in Hd. }
      destruct (is_punct c) eqn:Hp; [done|].
      destruct (pending_short pending Hsp (adjacent_app_l _ _ _ Hd)) as [->|(s & -> & Hs)];
        [done|].
      cbn [app]. rewrite adjacent_cons, Hrest. unfold tidy. by rewrite Hs, Hc, Hp.
Qed.

Lemma sub_space_punct_letters (l : list Ascii.ascii) :
  ∀ pending, Forall (λ c, is_space c = true) pending →
    filter (λ c, is_space c = false) (sub_space_punct pending l)
    = filter (λ c, is_space c = false) l.
Proof.
  assert (Hdrop : ∀ p : list Ascii.ascii, Forall (λ c, is_space c = true) p →
                    filter (λ c, is_space c = false) p = []).
  { induction 1 as [|a p Ha _ IH]; [done|]. rewrite filter_cons, decide_False by congruence.
    exact IH. }
  induction l as [|c l IH]; intros pending Hsp; cbn [sub_space_punct].
  - by apply Hdrop.
  - destruct (is_space c) eqn:Hc.
    + rewrite filter_cons, decide_False by congruence. apply IH.
      apply Forall_app. split; [done|]. by constructor.
    + destruct (is_punct c).
      * rewrite !filter_cons. destruct (decide (is_space c = false)); [|done].
        by rewrite IH.
      * rewrite filter_app, Hdrop by done. cbn [app].
        rewrite !filter_cons. destruct (decide (is_space c = false)); [|done].
        by rewrite IH.
Qed.

Lemma sub_space_punct_fixed (l : list Ascii.ascii) :
  ∀ pending, Forall (λ c, is_space c = true) pending →
    adjacent tidy (pending ++ l) = true →
    sub_space_punct pending l = pending ++ l.
Proof.
  induction l as [|c l IH]; intros pending Hsp Ht; cbn [sub_space_punct].
  - by rewrite app_nil_r.
  - destruct (is_space c) eqn:Hc.
    + rewrite IH; [by rewrite <- app_assoc| |by rewrite <- app_assoc].
      apply Forall_app. split; [done|]. by constructor.
    + assert (sub_space_punct [] l = l) as Hrest.
      { apply (IH []); [constructor|]. apply adjacent_app_r in Ht. by apply adjacent_tail in Ht. }
      rewrite Hrest. destruct (is_punct c) eqn:Hp; [|done].
      destruct pending as [|a p] using rev_ind; [done|]. exfalso.
      apply Forall_app in Hsp as [_ Ha]. apply Forall_cons in Ha as [Ha _].
      rewrite <- app_assoc in Ht. apply adjacent_app_r in Ht. cbn [app] in Ht.
      rewrite adjacent_cons in Ht. unfold tidy in Ht. rewrite Ha, Hp, orb_true_r in Ht. done.
Qed.

(** *** [s.strip()] *)

Lemma lstrip_spec (l : list Ascii.ascii) :
  ∃ sp, l = sp ++ lstrip l ∧ Forall (λ c, is_space c = true) sp ∧
        starts_clean (lstrip l) = true.
Proof.
  induction l as [|c l (sp & Hl & Hsp & Hstart)]; [by exists []|].
  cbn [lstrip]. destruct (is_space c) eqn:Hc.
  - exists (c :: sp). split; [cbn; by rewrite <- Hl|]. split; [by constructor|done].
  - exists []. split; [done|]. split; [constructor|]. cbn. by rewrite Hc.
Qed.

Lemma lstrip_fixed (l : list Ascii.ascii) : starts_clean l = true → lstrip l = l.
Proof. destruct l as [|c l]; [done|]. cbn. by intros ->%negb_true_iff. Qed.

Lemma starts_clean_app (l1 l2 : list Ascii.ascii) :
  starts_clean (l1 ++ l2) = true → l1 ≠ [] → starts_clean l1 = true.
Proof. by destruct l1. Qed.

Lemma strip_spec (l : list Ascii.ascii) :
  ∃ sp1 sp2, l = sp1 ++ strip l ++ sp2 ∧
    Forall (λ c, is_space c = true) sp1 ∧ Forall (λ c, is_space c = true) sp2 ∧
    starts_clean (strip l) = true ∧ starts_clean (reverse (strip l)) = true.
Proof.
  unfold strip.
  destruct (lstrip_spec l) as (sp1 & Hl & Hsp1 & Hstart1).
  destruct (lstrip_spec (reverse (lstrip l))) as (sp2 & Hr & Hsp2 & Hstart2).
  set (core := lstrip (reverse (lstrip l))) in *.
  assert (lstrip l = reverse core ++ reverse sp2) as Hcore.
  { rewrite <- reverse_app, <- Hr. by rewrite reverse_involutive. }
  exists sp1, (reverse sp2). split; [by rewrite <- Hcore|]. split; [done|].
  split; [by apply Forall_reverse|]. split.
  - destruct (decide (reverse core = [])) as [->|Hne]; [done|].
    rewrite Hcore in Hstart1. by apply starts_clean_app in Hstart1.
  - by rewrite reverse_involutive.
Qed.

Lemma strip_fixed (l : list Ascii.ascii) :
  starts_clean l = true → starts_clean (reverse l) = true → strip l = l.
Proof.
  intros H1 H2. unfold strip. rewrite (lstrip_fixed l H1), (lstrip_fixed _ H2).
  apply reverse_involutive.
Qed.

Lemma spaces_are_spaces_sub (l1 l2 : list Ascii.ascii) :
  (∀ x, x ∈ l1 → x ∈ l2) → spaces_are_spaces l2 → spaces_are_spaces l1.
Proof.
  unfold spaces_are_spaces. rewrite !Forall_forall. intros Hsub H x Hx. by apply H, Hsub.
Qed.

Section clean_text.
Context `{Nltk}.
Import TextPreprocessor.

Lemma chars_str (l : list Ascii.ascii) : chars (str l) = l.
Proof. apply String.list_ascii_of_string_of_list_ascii. Qed.

Lemma str_chars (s : string) : str (chars s) = s.
Proof. apply String.string_of_list_ascii_of_string. Qed.

Lemma clean_text_form (text : string) : is_clean (chars (clean_text text)) = true.
Proof.
  unfold clean_text. cbv zeta. rewrite chars_str.
  set (a := sub_spaces false (chars text)).
  set (b := sub_space_punct [] a).
  destruct (sub_spaces_form (chars text) false) as (Hsa & Hda & _). fold a in Hsa, Hda.
  assert (Hsb : spaces_are_spaces b).
  { apply (spaces_are_spaces_sub b a); [|done]. intros x Hx. by apply sub_space_punct_elem in Hx. }
  assert (Htb : adjacent tidy b = true) by (by apply sub_space_punct_form).
  destruct (strip_spec b) as (sp1 & sp2 & Hb & _ & _ & Hstart & Hend).
  unfold is_clean. rewrite Hstart, Hend, !andb_true_r. apply andb_true_iff. split.
  - apply only_spaces_Forall. apply (spaces_are_spaces_sub _ b); [|done].
    intros x Hx. rewrite Hb, !elem_of_app. naive_solver.
  - rewrite Hb in Htb. apply adjacent_app_r in Htb. by apply adjacent_app_l in Htb.
Qed.

Lemma adjacent_tidy_no_double (l : list Ascii.ascii) :
  adjacent tidy l = true → adjacent no_double l = true.
Proof.
  induction l as [|a l IH]; [done|]. destruct l as [|b l]; [done|].
  rewrite !adjacent_cons. intros [Ht Hrest]%andb_true_iff. rewrite (IH Hrest), andb_true_r.
  unfold tidy, no_double in *. destruct (is_space a), (is_space b); done.
Qed.

Lemma clean_text_fixed (text : string) :
  is_clean (chars text) = true → clean_text text = text.
Proof.
  unfold is_clean. intros (((Hs & Ht)%andb_true_iff & H1)%andb_true_iff & H2)%andb_true_iff.
  apply only_spaces_Forall in Hs.
  unfold clean_text. cbv zeta.
  rewrite sub_spaces_fixed; [|done|by apply adjacent_tidy_no_double|done].
  rewrite (sub_space_punct_fixed _ []); [|constructor|done].
  cbn [app]. rewrite strip_fixed by done. apply str_chars.
Qed.

Lemma clean_text_letters (text : string) :
  filter (λ c, is_space c = false) (chars (clean_text text))
  = filter (λ c, is_space c = false) (chars text).
Proof.
  unfold clean_text. cbv zeta. rewrite chars_str.
  set (b := sub_space_punct [] (sub_spaces false (chars text))).
  assert (Hdrop : ∀ p : list Ascii.ascii, Forall (λ c, is_space c = true) p →
                    filter (λ c, is_space c = false) p = []).
  { induction 1 as [|a p Ha _ IH]; [done|]. rewrite filter_cons, decide_False by congruence.
    exact IH. }
  destruct (strip_spec b) as (sp1 & sp2 & Hb & Hsp1 & Hsp2 & _).
  transitivity (filter (λ c, is_space c = false) b).
  - rewrite Hb at 2. by rewrite !filter_app, (Hdrop sp1 Hsp1), (Hdrop sp2 Hsp2), app_nil_r.
  - unfold b. rewrite sub_space_punct_letters by constructor. apply sub_spaces_letters.
Qed.

(** X17. [clean_text] puts a text in a form in which every white-space
    character is a single space that stands between two other characters
    and is not followed by one of the marks [. , ! ? ; :]; it changes
    nothing in a text that has this form already, so cleaning twice is
    cleaning once; and it keeps every character that is not white space, in
    order. *)
Theorem clean_text_normal_form (text : string) :
  is_clean (chars (clean_text text)) = true ∧
  (is_clean (chars text) = true ↔ clean_text text = text) ∧
  clean_text (clean_text text) = clean_text text ∧
  filter (λ c, is_space c = false) (chars (clean_text text))
  = filter (λ c, is_space c = false) (chars text).
Proof.
  split; [apply clean_text_form|]. split; [|split].
  - split; [apply clean_text_fixed|]. intros <-. apply clean_text_form.
  - apply clean_text_fixed, clean_text_form.
  - apply clean_text_letters.
Qed.

End clean_text.

End CleanFacts.

(** ** [preprocess_for_analysis] and [preprocess_all_texts] *)

Module PreprocessFacts.
Import Py PyStr TextPreprocessor Props ListFacts DictFacts.

Section methods.
Context `{Nltk}.

Lemma preprocess_counts (text : string) :
  let data := preprocess_for_analysis text in
  sentence_count data = len (sentences data) ∧
  token_count data = len (tokens_lower data) ∧
  vocabulary_size data = set_len (set (tokens_lower data)) ∧
  0 ≤ vocabulary_size data ≤ token_count data ∧
  len (tokens_lemmatized data) ≤ token_count data.
Proof.
  intros data. unfold data, preprocess_for_analysis.
  cbn [sentence_count token_count vocabulary_size sentences tokens_lower tokens_lemmatized].
  set (lower_tokens := tokenize_words (clean_text text) true).
  pose proof (Diversity.set_len_le_len lower_tokens) as Hle.
  pose proof (Overlap.set_len_nonneg (set lower_tokens)) as H0.
  split; [done|]. split; [done|]. split; [done|]. split; [lia|].
  unfold lemmatize, remove_stopwords, len. rewrite length_fmap.
  apply inj_le, length_filter_le.
Qed.


Lemma preprocess_files_spec (txt_files : list (string * string)) :
  ∀ all_data,
    (Forall (λ file, token_count (preprocess_for_analysis file.2) ≠ 0) txt_files →
     Forall (λ kv, token_count kv.2 ≠ 0) all_data →
     ∃ all_data', preprocess_files txt_files all_data = Ok all_data' ∧
       Forall (λ kv, token_count kv.2 ≠ 0) all_data' ∧
       (∀ k, k ∈ all_data'.*1 ↔ k ∈ all_data.*1 ∨ k ∈ txt_files.*1)) ∧
    (Exists (λ file, token_count (preprocess_for_analysis file.2) = 0) txt_files →
     preprocess_files txt_files all_data = Raise ZeroDivisionError).
Proof.
  induction txt_files as [|[text_id text] files IH]; intros all_data.
  - split.
    + intros _ Hall. exists all_data. split; [done|]. split; [done|].
      intros k. cbn. rewrite elem_of_nil. naive_solver.
    + intros Hex. by apply Exists_nil in Hex.
  - cbn [preprocess_files].
    set (data := preprocess_for_analysis text).
    destruct (IH (dict_set all_data text_id data)) as [IHok IHraise].
    split.
    + intros [Hne Hfiles]%Forall_cons Hall. change (token_count data ≠ 0) in Hne.
      rewrite Overlap.int_truediv_ok by done. cbn [mbind res_bind].
      destruct IHok as (all_data' & -> & Hall' & Hkeys); [done| |].
      { apply Forall_forall. intros kv [->|Hkv]%dict_set_elem; [done|].
        rewrite Forall_forall in Hall. by apply Hall. }
      exists all_data'. split; [done|]. split; [done|].
      intros k. rewrite Hkeys, dict_set_keys. cbn.
      destruct (decide (text_id ∈ all_data.*1)).
      * rewrite elem_of_cons. naive_solver.
      * rewrite elem_of_app, list_elem_of_singleton, elem_of_cons. naive_solver.
    + intros [He|Hex]%Exists_cons.
      * change (token_count data = 0) in He. rewrite He, Overlap.int_truediv_zero. done.
      * destruct (decide (token_count data = 0)) as [He|Hne].
        -- rewrite He, Overlap.int_truediv_zero. done.
        -- rewrite Overlap.int_truediv_ok by done. cbn [mbind res_bind]. by apply IHraise.
Qed.

Lemma collect_stats_returns (items : list (string * processed)) :
  Forall (λ kv, token_count kv.2 ≠ 0) items →
  ∀ output_data, ∃ output_data',
    collect_stats items output_data = Ok output_data' ∧
    (∀ k, k ∈ output_data'.*1 ↔ k ∈ output_data.*1 ∨ k ∈ items.*1).
Proof.
  induction 1 as [|[text_id data] items Hne _ IH]; intros output_data.
  - exists output_data. split; [done|]. intros k. cbn. rewrite elem_of_nil. naive_solver.
  - cbn [collect_stats]. change (token_count data ≠ 0) in Hne.
    rewrite Overlap.int_truediv_ok by done.
    cbn [mbind res_bind].
    match goal with |- context [dict_set output_data text_id ?s] =>
      destruct (IH (dict_set output_data text_id s)) as (out & -> & Hkeys) end.
    exists out. split; [done|]. intros k. rewrite Hkeys, dict_set_keys. cbn.
    destruct (decide (text_id ∈ output_data.*1)).
    * rewrite elem_of_cons. naive_solver.
    * rewrite elem_of_app, list_elem_of_singleton, elem_of_cons. naive_solver.
Qed.

(** X19. [preprocess_all_texts] divides the vocabulary size of each text by
    its number of tokens without a guard: it raises [ZeroDivisionError] as
    soon as one file has no alphabetic token (an empty file, for one), and
    otherwise returns the data of every file, with one entry of statistics
    for each. Without any file it returns nothing. *)
Theorem preprocess_all_texts_outcome (txt_files : list (string * string)) :
  (txt_files = [] → preprocess_all_texts txt_files = Ok None) ∧
  (Exists (λ file, tokenize_words (clean_text file.2) true = []) txt_files →
   preprocess_all_texts txt_files = Raise ZeroDivisionError) ∧
  (txt_files ≠ [] →
   Forall (λ file, tokenize_words (clean_text file.2) true ≠ []) txt_files →
   ∃ all_data output_data,
     preprocess_all_texts txt_files = Ok (Some (all_data, output_data)) ∧
     (∀ k, k ∈ all_data.*1 ↔ k ∈ txt_files.*1) ∧
     (∀ k, k ∈ output_data.*1 ↔ k ∈ txt_files.*1)).
Proof.
  assert (Hcount : ∀ text, token_count (preprocess_for_analysis text) = 0
                           ↔ tokenize_words (clean_text text) true = []).
  { intros text. unfold preprocess_for_analysis. cbn [token_count]. unfold len.
    destruct (tokenize_words _ _); cbn; [done|]. split; [lia|done]. }
  split; [by intros ->|]. split.
  - intros Hex. destruct txt_files as [|f fs]; [by apply Exists_nil in Hex|].
    unfold preprocess_all_texts.
    destruct (preprocess_files_spec (f :: fs) []) as [_ Hraise].
    rewrite Hraise; [done|].
    eapply Exists_impl; [exact Hex|]. intros file. cbv beta. by rewrite Hcount.
  - intros Hne Hall. destruct txt_files as [|f fs]; [done|].
    unfold preprocess_all_texts.
    destruct (preprocess_files_spec (f :: fs) []) as [Hok _].
    destruct Hok as (all_data & -> & Hdata & Hkeys); [|done|].
    { eapply Forall_impl; [exact Hall|]. intros file. cbv beta. by rewrite Hcount. }
    cbn [mbind res_bind].
    destruct (collect_stats_returns all_data Hdata []) as (out & -> & Hout).
    exists all_data, out. split; [done|]. split.
    + intros k. rewrite Hkeys. cbn. rewrite elem_of_nil. naive_solver.
    + intros k. rewrite Hout, Hkeys. cbn. rewrite !elem_of_nil. naive_solver.
Qed.

End methods.

End PreprocessFacts.

(** ** [analyze_all_texts] as a whole *)

Module DriverFacts.
Import Py PyStr TextAnalyzer AnalyzeAllTexts Props ListFacts DictFacts CorpusFacts.

Lemma calculate_lexical_diversity_returns (tokens : list string) :
  ∃ d, calculate_lexical_diversity tokens = Ok d ∧
    d !! "unique_words" = Some (Int (set_len (set tokens))) ∧
    d !! "total_words" = Some (Int (len tokens)).
Proof.
  unfold calculate_lexical_diversity. cbv zeta.
  destruct (decide (len tokens = 0)) as [He|Hne].
  - eexists. split; [done|]. rewrite He.
    assert (tokens = []) as -> by (destruct tokens; [done|unfold len in He; cbn in He; lia]).
    done.
  - rewrite Overlap.int_truediv_ok by done. cbn [mbind res_bind].
    destruct (MtldBounds.calculate_mtld_returns tokens) as (f & _ & _ & _ & ->).
    cbn [mbind res_bind]. eexists. split; [done|]. done.
Qed.

Lemma calculate_sentence_stats_returns `{Numpy} (sentences : list string) :
  ∃ d, calculate_sentence_stats sentences = Ok d ∧
    (sentences ≠ [] → d !! "sentence_count" = Some (Int (len sentences))) ∧
    (sentences = [] → d = ∅).
Proof.
  destruct sentences as [|s l]; [by eexists|].
  eexists. split; [done|]. done.
Qed.

Lemma calculate_word_stats_returns `{Numpy} (tokens : list string) :
  ∃ d, calculate_word_stats tokens = Ok d ∧ (tokens = [] ↔ d = ∅).
Proof.
  destruct tokens as [|t l]; [by eexists|].
  unfold calculate_word_stats. rewrite Overlap.int_truediv_ok.
  - eexists. split; [done|]. split; [done|]. intros He.
    apply (f_equal (lookup "long_words")) in He. done.
  - unfold len. cbn. lia.
Qed.

Section driver.
Context `{Numpy} `{Nltk}.

Lemma analyze_text_returns (data : TextPreprocessor.processed) :
  ∃ r, analyze_text data = Ok r.
Proof.
  unfold analyze_text.
  destruct (calculate_lexical_diversity_returns (TextPreprocessor.tokens_lower data))
    as (d & -> & _).
  destruct (calculate_sentence_stats_returns (TextPreprocessor.sentences data)) as (ss & -> & _).
  destruct (calculate_word_stats_returns (TextPreprocessor.tokens_lower data)) as (ws & -> & _).
  by eexists.
Qed.

Lemma individual_analysis_returns (items : list (string * TextPreprocessor.processed)) :
  ∀ results, NoDup (results.*1 ++ items.*1) →
    ∃ rs, individual_analysis items results = Ok (results ++ rs) ∧
      rs.*1 = items.*1 ∧
      Forall2 (λ kv r, analyze_text kv.2 = Ok r.2) items rs.
Proof.
  induction items as [|[text_id data] items IH]; intros results Hnd.
  - exists []. cbn. by rewrite app_nil_r.
  - cbn [individual_analysis]. destruct (analyze_text_returns data) as (r & Hr). rewrite Hr.
    cbn [mbind res_bind]. cbn in Hnd.
    assert (text_id ∉ results.*1) as Hnew.
    { apply NoDup_app in Hnd as (_ & Hd & _). intros Hin. apply (Hd _ Hin). by left. }
    rewrite dict_set_new by done.
    destruct (IH (results ++ [(text_id, r)])) as (rs & -> & Hkeys & Hall).
    { rewrite fmap_app. cbn. by rewrite <- app_assoc. }
    exists ((text_id, r) :: rs). rewrite <- app_assoc. split; [done|].
    split; [cbn; by rewrite Hkeys|]. by constructor.
Qed.

Lemma group_keys (texts : list (string * TextPreprocessor.processed)) :
  (Corpus.group texts).*1 = texts.*1.
Proof. unfold Corpus.group. rewrite <- list_fmap_compose. by apply list_fmap_ext. Qed.

(** X20. The outcome of a whole run of [analyze_all_texts]. Without any
    file it returns without a result. With files, it raises
    [ZeroDivisionError] -- after the statistics of every text and before
    anything is written -- when the texts whose name contains [Plato] have no
    lemmatized token between them, in particular when no name contains
    [Plato]; in every other case it returns a result with one entry per
    text, in the order of the files, and the comparison matrix. *)
Theorem analyze_all_texts_outcome (h : hash_order) (txt_files : list (string * string)) :
  let c := Corpus.load_texts txt_files in
  let plato_tokens := combine_tokens (Corpus.group (Corpus.plato_texts c)) in
  (txt_files = [] → analyze_all_texts h txt_files = Ok None) ∧
  (txt_files ≠ [] → plato_tokens = [] →
   analyze_all_texts h txt_files = Raise ZeroDivisionError) ∧
  (txt_files ≠ [] → plato_tokens ≠ [] →
   ∃ out, analyze_all_texts h txt_files = Ok (Some out) ∧
     (individual_texts out).*1 = (Corpus.all_texts c).*1 ∧
     Forall2 (λ kv r, analyze_text kv.2 = Ok r.2) (Corpus.all_texts c) (individual_texts out) ∧
     dom (pairwise_comparisons out) = list_to_set (Spec.pair_keys (Corpus.all_texts c).*1)) ∧
  ((∀ file, file ∈ txt_files → str_in "Plato" file.1 = false) → plato_tokens = []).
Proof.
  intros c plato_tokens.
  destruct (load_texts_groups txt_files) as (Hplato & _ & Hnd & Hkeys & _).
  fold c in Hplato, Hnd, Hkeys.
  destruct (individual_analysis_returns (Corpus.all_texts c) []) as (rs & Hrs & Hrk & Hall);
    [done|].
  destruct (Matrix.pairwise_overlaps_entries h (Corpus.group (Corpus.all_texts c)))
    as (m & Hm & Hdom & _).
  rewrite group_keys in Hdom.
  split; [by intros ->|]. split; [|split].
  - intros Hne He. destruct txt_files as [|f fs]; [done|].
    unfold analyze_all_texts. fold c. rewrite Hrs. cbn [mbind res_bind].
    rewrite ComparatorFacts.compare_author_vocabularies_no_plato; done.
  - intros Hne Hp. destruct txt_files as [|f fs]; [done|].
    unfold analyze_all_texts. fold c. rewrite Hrs. cbn [mbind res_bind].
    rewrite ComparatorFacts.compare_author_vocabularies_eq by done.
    cbn [mbind res_bind]. rewrite Hm. cbn [mbind res_bind].
    eexists. split; [done|]. cbn. done.
  - intros Hno. unfold plato_tokens. rewrite Hplato.
    rewrite filter_none; [done|].
    { apply Forall_forall. intros kv Hkv Hp.
      assert (kv.1 ∈ txt_files.*1) as Hin by (by apply Hkeys, list_elem_of_fmap_2).
      apply list_elem_of_fmap in Hin as (file & Hfst & Hfile).
      unfold is_plato in Hp. rewrite Hfst, (Hno file Hfile) in Hp. done. }
Qed.

Lemma total_count_sublist (l1 l2 : list (string * Z)) :
  l1 `sublist_of` l2 → Forall (λ x, 0 ≤ x.2) l2 → total_count l1 ≤ total_count l2.
Proof.
  induction 1 as [|x l1 l2 _ IH|x l1 l2 _ IH]; intros Hpos; [done| |].
  - apply Forall_cons in Hpos as [_ Hpos]. specialize (IH Hpos).
    unfold total_count in *. cbn. lia.
  - apply Forall_cons in Hpos as [Hx Hpos]. specialize (IH Hpos).
    unfold total_count in *. cbn. lia.
Qed.

Lemma total_count_top_words (tokens : list string) (n : Z) :
  total_count (get_top_words tokens n true) ≤ len tokens.
Proof.
  unfold get_top_words, most_common, slice_to.
  set (kept := filter (λ t, t ∉ common) tokens).
  set (ranked := sorted_by_key_desc snd (Counter kept)).
  assert (Hperm : ranked ≡ₚ Counter kept) by apply Ranking.sorted_with_perm.
  transitivity (total_count ranked).
  - apply total_count_sublist; [apply sublist_take|].
    apply Forall_forall. intros [t c] Hin. rewrite Hperm in Hin.
    destruct (Ranking.Counter_item kept t c Hin) as [Ht ->]. cbn.
    apply Ranking.occurrences_pos in Ht. lia.
  - rewrite (RankingFacts.total_count_perm _ _ Hperm), RankingFacts.total_count_Counter.
    unfold len. apply inj_le, sublist_length, sublist_filter.
Qed.

(** X21. The entry of a text in [results] is coherent: the word and
    vocabulary counts of [basic_stats] are the [total_words] and
    [unique_words] of its lexical diversity, the sentence count is the one of
    the sentence statistics (which are empty for a text without sentences),
    the word statistics are empty exactly for a text without tokens, there
    are at most 50 top words, and their counts add up to no more than the
    word count. *)
Theorem individual_result_coherent (text : string) :
  ∃ r, analyze_text (TextPreprocessor.preprocess_for_analysis text) = Ok r ∧
    lexical_diversity r !! "total_words" = Some (Int (BasicStats.word_count (basic_stats r))) ∧
    lexical_diversity r !! "unique_words"
    = Some (Int (BasicStats.vocabulary_size (basic_stats r))) ∧
    0 ≤ BasicStats.vocabulary_size (basic_stats r) ≤ BasicStats.word_count (basic_stats r) ∧
    (BasicStats.sentence_count (basic_stats r) ≠ 0 →
     sentence_stats r !! "sentence_count"
     = Some (Int (BasicStats.sentence_count (basic_stats r)))) ∧
    (BasicStats.sentence_count (basic_stats r) = 0 → sentence_stats r = ∅) ∧
    (BasicStats.word_count (basic_stats r) = 0 ↔ word_stats r = ∅) ∧
    len (top_words r) ≤ 50 ∧
    total_count (top_words r) ≤ BasicStats.word_count (basic_stats r).
Proof.
  set (data := TextPreprocessor.preprocess_for_analysis text).
  destruct (PreprocessFacts.preprocess_counts text) as (Hsc & Htc & Hvs & Hle & Hlem').
  fold data in Hsc, Htc, Hvs, Hle, Hlem'.
  unfold analyze_text.
  destruct (calculate_lexical_diversity_returns (TextPreprocessor.tokens_lower data))
    as (d & -> & Hu & Ht).
  destruct (calculate_sentence_stats_returns (TextPreprocessor.sentences data))
    as (ss & -> & Hss1 & Hss0).
  destruct (calculate_word_stats_returns (TextPreprocessor.tokens_lower data))
    as (ws & -> & Hws).
  cbn [mbind res_bind]. eexists. split; [done|].
  cbn [basic_stats lexical_diversity sentence_stats word_stats top_words
       BasicStats.sentence_count BasicStats.word_count BasicStats.vocabulary_size].
  rewrite Htc, Hvs. split; [done|]. split; [done|]. split; [by rewrite <- Htc, <- Hvs|].
  assert (Hnil : ∀ l : list string, len l = 0 ↔ l = []).
  { intros l. unfold len. destruct l; cbn; [done|]. split; [lia|done]. }
  split; [|split; [|split; [|split]]].
  - rewrite Hsc. intros Hne. apply Hss1. by rewrite <- Hnil.
  - rewrite Hsc. intros He. apply Hss0. by apply Hnil.
  - by rewrite Hnil.
  - destruct (Ranking.most_common_ranking
                (filter (λ t, t ∉ common) (TextPreprocessor.tokens_lemmatized data)) 50)
      as (Hlen & _).
    unfold get_top_words, len. rewrite Hlen. lia.
  - etransitivity; [apply total_count_top_words|]. by rewrite <- Htc.
Qed.

End driver.

End DriverFacts.

(** ** Strings and separators *)

Module StringFacts.
Import Py PyStr Generate.

Lemma string_app_cons (c : Ascii.ascii) (s1 s2 : string) :
  String c s1 +:+ s2 = String c (s1 +:+ s2).
Proof. reflexivity. Qed.

Lemma string_app_nil_l (s : string) : "" +:+ s = s.
Proof. reflexivity. Qed.

Lemma string_app_assoc (s1 s2 s3 : string) : (s1 +:+ s2) +:+ s3 = s1 +:+ (s2 +:+ s3).
Proof.
  induction s1 as [|c s1 IH]; [done|]. by rewrite !string_app_cons, IH.
Qed.

Lemma string_app_nil_r (s : string) : s +:+ "" = s.
Proof. induction s as [|c s IH]; [done|]. by rewrite string_app_cons, IH. Qed.

Lemma str_in_cons (sub : string) (c : Ascii.ascii) (s : string) :
  str_in sub (String c s) = String.prefix sub (String c s) || str_in sub s.
Proof. done. Qed.

Lemma prefix_cons (a b : Ascii.ascii) (s1 s2 : string) :
  String.prefix (String a s1) (String b s2)
  = if Ascii.ascii_dec a b then String.prefix s1 s2 else false.
Proof. reflexivity. Qed.

Lemma prefix_nil (s : string) : String.prefix "" s = true.
Proof. by destruct s. Qed.

Lemma prefix_app (sep s : string) : String.prefix sep (sep +:+ s) = true.
Proof.
  induction sep as [|c sep IH]; [apply prefix_nil|].
  rewrite string_app_cons, prefix_cons. by destruct (Ascii.ascii_dec c c).
Qed.

Lemma split_on_skip (sep s1 s2 word : string) :
  split_on sep (s1 +:+ s2) (String.length s1) word = split_on sep s2 0 word.
Proof. induction s1 as [|c s1 IH]; [done|]. rewrite string_app_cons. exact IH. Qed.

(** A separator at the head of the string closes the current piece. *)
Lemma split_on_sep (sep s word : string) :
  sep ≠ "" → split_on sep (sep +:+ s) 0 word = word :: split_on sep s 0 "".
Proof.
  destruct sep as [|c sep]; [done|]. intros _.
  rewrite string_app_cons. cbn [split_on]. rewrite <- string_app_cons, prefix_app.
  f_equal. cbn [String.length]. rewrite Nat.sub_succ, Nat.sub_0_r. apply split_on_skip.
Qed.

(** ['|' not in s]: no character of [s] is a bar. *)
Lemma no_bar_cons (c : Ascii.ascii) (s : string) :
  str_in "|" (String c s) = false → String c "" ≠ "|" ∧ str_in "|" s = false.
Proof.
  rewrite str_in_cons. intros [Hp Hs]%orb_false_elim. split; [|done].
  intros [= ->]. rewrite prefix_cons, prefix_nil in Hp.
  by destruct (Ascii.ascii_dec _ _).
Qed.

Lemma prefix_bars_no_bar (c : Ascii.ascii) (s : string) :
  String c "" ≠ "|" → String.prefix "|||" (String c s) = false.
Proof.
  intros Hc. rewrite prefix_cons. by destruct (Ascii.ascii_dec _ c) as [<-|].
Qed.

Lemma split_on_no_bar (s : string) :
  ∀ word, str_in "|" s = false → split_on "|||" s 0 word = [word +:+ s].
Proof.
  induction s as [|c s IH]; intros word Hs.
  - cbn. by rewrite string_app_nil_r.
  - apply no_bar_cons in Hs as [Hc Hs]. cbn [split_on].
    rewrite prefix_bars_no_bar by done. rewrite IH by done.
    by rewrite string_app_assoc.
Qed.

Lemma split_on_pair_key (id1 id2 : string) :
  ∀ word, str_in "|" id1 = false → str_in "|" id2 = false →
    split_on "|||" (Generate.pair_key id1 id2) 0 word = [word +:+ id1; id2].
Proof.
  unfold Generate.pair_key.
  induction id1 as [|c id1 IH]; intros word H1 H2.
  - rewrite string_app_nil_l, string_app_nil_r.
    rewrite split_on_sep by done. by rewrite split_on_no_bar.
  - apply no_bar_cons in H1 as [Hc H1]. rewrite string_app_cons. cbn [split_on].
    rewrite prefix_bars_no_bar by done. rewrite IH by done.
    by rewrite string_app_assoc.
Qed.

Lemma split_sep_pair_key (id1 id2 : string) :
  str_in "|" id1 = false → str_in "|" id2 = false →
  split_sep (Generate.pair_key id1 id2) "|||" = [id1; id2].
Proof. intros H1 H2. unfold split_sep. by rewrite split_on_pair_key. Qed.

Lemma string_app_length (s1 s2 : string) :
  String.length (s1 +:+ s2) = (String.length s1 + String.length s2)%nat.
Proof. induction s1 as [|c s1 IH]; [done|]. rewrite string_app_cons. cbn. by rewrite IH. Qed.

Lemma prefix_true (sep s : string) : String.prefix sep s = true → ∃ r, s = sep +:+ r.
Proof.
  revert s. induction sep as [|c sep IH]; intros s Hp; [by exists s|].
  destruct s as [|b s]; [done|]. rewrite prefix_cons in Hp.
  destruct (Ascii.ascii_dec c b) as [->|]; [|done].
  destruct (IH s Hp) as [r ->]. by exists r.
Qed.

(** [a + b == c + d] with [len(a) <= len(c)]: [c] starts with [a]. *)
Lemma string_app_eq_app (a b c d : string) :
  a +:+ b = c +:+ d → (String.length a ≤ String.length c)%nat →
  ∃ x, c = a +:+ x ∧ b = x +:+ d.
Proof.
  revert c. induction a as [|k a IH]; intros c Heq Hlen.
  - exists c. by rewrite !string_app_nil_l in *.
  - destruct c as [|k' c]; [cbn in Hlen; lia|].
    rewrite !string_app_cons in Heq. injection Heq as -> Heq.
    destruct (IH c Heq) as (x & -> & ->); [cbn in Hlen; lia|]. by exists x.
Qed.

Lemma str_in_app (sep u v : string) : str_in sep (u +:+ sep +:+ v) = true.
Proof.
  induction u as [|c u IH].
  - rewrite string_app_nil_l. destruct sep as [|k sep]; [by destruct v|].
    rewrite string_app_cons, str_in_cons, <- string_app_cons, prefix_app. done.
  - rewrite string_app_cons, str_in_cons, IH. apply orb_true_r.
Qed.

Lemma str_in_split (sep s : string) :
  str_in sep s = true → ∃ u v, s = u +:+ sep +:+ v.
Proof.
  induction s as [|c s IH].
  - change (str_in sep "") with (String.prefix sep "" || false). rewrite orb_false_r.
    intros [r Hr]%prefix_true. exists "", r. done.
  - rewrite str_in_cons. intros [Hp|Hs]%orb_true_iff.
    + apply prefix_true in Hp as [r ->]. by exists "", r.
    + destruct (IH Hs) as (u & v & ->). exists (String c u), v. done.
Qed.

Lemma split_on_length (sep s : string) :
  ∀ skip word, (1 ≤ length (split_on sep s skip word))%nat.
Proof.
  induction s as [|c s IH]; intros skip word; cbn [split_on]; [cbn; lia|].
  destruct skip; [|apply IH]. destruct (String.prefix _ _); [cbn; lia|apply IH].
Qed.

Lemma prefix_empty (sep : string) : sep ≠ "" → String.prefix sep "" = false.
Proof. by destruct sep. Qed.

(** A string that contains the separator splits in two pieces at least. *)
Lemma split_on_contains (sep s : string) :
  sep ≠ "" → str_in sep s = true → ∀ word, (2 ≤ length (split_on sep s 0 word))%nat.
Proof.
  intros Hsep. induction s as [|c s IH]; intros Hin word.
  - change (str_in sep "") with (String.prefix sep "" || false) in Hin.
    by rewrite prefix_empty in Hin.
  - cbn [split_on]. rewrite str_in_cons in Hin.
    destruct (String.prefix sep (String c s)).
    + cbn [length]. pose proof (split_on_length sep s (String.length sep - 1) ""). lia.
    + by apply IH.
Qed.

(** A string with two occurrences of the separator that do not overlap
    splits in three pieces at least. *)
Lemma split_on_two_separators (sep : string) (s : string) :
  sep ≠ "" →
  ∀ u w v word, s = u +:+ sep +:+ w +:+ sep +:+ v →
    (3 ≤ length (split_on sep s 0 word))%nat.
Proof.
  intros Hsep. induction s as [|c s IH]; intros u w v word Heq.
  - destruct u; [by destruct sep|done].
  - destruct (String.prefix sep (String c s)) eqn:Hp.
    + apply prefix_true in Hp as [r Hr]. rewrite Hr, split_on_sep by done.
      cbn [length]. rewrite Hr in Heq.
      replace (u +:+ sep +:+ w +:+ sep +:+ v) with ((u +:+ sep +:+ w) +:+ sep +:+ v) in Heq
        by (by rewrite !string_app_assoc).
      apply string_app_eq_app in Heq as (x & _ & ->).
      * pose proof (split_on_contains sep (x +:+ sep +:+ v) Hsep (str_in_app sep x v) "").
        lia.
      * rewrite !string_app_length. lia.
    + cbn [split_on]. rewrite Hp. destruct u as [|k u].
      * rewrite string_app_nil_l in Heq. rewrite Heq, prefix_app in Hp. done.
      * rewrite string_app_cons in Heq. injection Heq as _ Heq. by eapply IH.
Qed.

Lemma unpack2_long {A} (l : list A) : (3 ≤ length l)%nat → unpack2 l = Raise ValueError.
Proof. destruct l as [|a [|b [|c l]]]; cbn; [lia..|done]. Qed.

Lemma pair_key_separator (id1 id2 : string) :
  str_in "|||" id1 = true ∨ str_in "|||" id2 = true →
  unpack2 (split_sep (pair_key id1 id2) "|||") = Raise ValueError.
Proof.
  intros Hin. apply unpack2_long. unfold split_sep, pair_key.
  destruct Hin as [(u & w & ->)%str_in_split|(w & v & ->)%str_in_split].
  - apply (split_on_two_separators "|||" _ ltac:(done) u w id2).
    by rewrite !string_app_assoc.
  - by apply (split_on_two_separators "|||" _ ltac:(done) id1 w v).
Qed.

Lemma unpack2_raise {A} (l : list A) (e : exn) : unpack2 l = Raise e → e = ValueError.
Proof. destruct l as [|a [|b [|c l]]]; cbn; congruence. Qed.

End StringFacts.

(** ** The network of [src/generate.py] *)

Module NetworkFacts.
Import Py PyStr TextPreprocessor TextAnalyzer Corpus Generate Props.
Import ListFacts DictFacts StringFacts CorpusFacts.

Lemma pair_key_inj (id1 id2 id1' id2' : string) :
  str_in "|" id1 = false → str_in "|" id2 = false →
  str_in "|" id1' = false → str_in "|" id2' = false →
  pair_key id1 id2 = pair_key id1' id2' → id1 = id1' ∧ id2 = id2'.
Proof.
  intros H1 H2 H1' H2' Heq.
  pose proof (split_sep_pair_key id1 id2 H1 H2) as Hs.
  rewrite Heq, split_sep_pair_key in Hs by done. by injection Hs as -> ->.
Qed.

Lemma pair_keys_NoDup (ids : list string) :
  NoDup ids → Forall (λ text_id, str_in "|" text_id = false) ids →
  NoDup (key_of <$> Spec.all_pairs ids).
Proof.
  intros Hnd Hbar. rewrite Forall_forall in Hbar.
  apply NoDup_fmap_2_strong; [|by apply Matrix.all_pairs_distinct].
  intros [a b] [a' b'] [Ha Hb]%Matrix.all_pairs_elem [Ha' Hb']%Matrix.all_pairs_elem Heq.
  unfold key_of in Heq. cbn in Heq.
  apply pair_key_inj in Heq as [-> ->]; auto.
Qed.

Lemma overlap_of_returns (h : hash_order) (all_texts : list (string * text_data))
    (id1 id2 : string) :
  id1 ∈ all_texts.*1 → id2 ∈ all_texts.*1 → ∃ o, overlap_of h all_texts id1 id2 = Ok o.
Proof.
  intros H1 H2. unfold overlap_of.
  destruct (Matrix.dict_get_ok all_texts id1 H1) as [d1 ->].
  destruct (Matrix.dict_get_ok all_texts id2 H2) as [d2 ->].
  cbn [mbind res_bind]. rewrite Overlap.calculate_vocabulary_overlap_eq. by eexists.
Qed.

Lemma pairwise_inner_spec (h : hash_order) (all_texts : list (string * text_data))
    (id1 : string) (rest : list string) :
  id1 ∈ all_texts.*1 → (∀ x, x ∈ rest → x ∈ all_texts.*1) →
  ∀ acc, NoDup (acc.*1 ++ (pair_key id1 <$> rest)) →
    ∃ new, pairwise_inner h all_texts id1 rest acc = Ok (acc ++ new) ∧
      Forall2 (λ id2 kv, kv.1 = pair_key id1 id2 ∧ overlap_of h all_texts id1 id2 = Ok kv.2)
        rest new.
Proof.
  intros H1. induction rest as [|id2 rest IH]; intros Hrest acc Hnd.
  - exists []. by rewrite app_nil_r.
  - cbn [pairwise_inner].
    destruct (overlap_of_returns h all_texts id1 id2 H1) as [o Ho]; [apply Hrest; by left|].
    pose proof Ho as Ho'. unfold overlap_of in Ho'.
    destruct (Analyze.dict_get all_texts id1) as [d1|]; [|done].
    destruct (Analyze.dict_get all_texts id2) as [d2|]; [|done].
    cbn [mbind res_bind] in Ho' |- *. rewrite Ho'. cbn [mbind res_bind].
    cbn [fmap list_fmap] in Hnd.
    assert (pair_key id1 id2 ∉ acc.*1) as Hnew.
    { apply NoDup_app in Hnd as (_ & Hd & _). intros Hin. apply (Hd _ Hin). by left. }
    rewrite dict_set_new by done.
    destruct (IH (λ x Hx, Hrest x (list_elem_of_further _ _ _ Hx)) (acc ++ [(pair_key id1 id2, o)]))
      as (new & -> & Hall).
    { rewrite fmap_app. cbn. by rewrite <- app_assoc. }
    exists ((pair_key id1 id2, o) :: new). rewrite <- app_assoc. split; [done|].
    by constructor.
Qed.

Lemma pairwise_outer_spec (h : hash_order) (all_texts : list (string * text_data))
    (ids : list string) :
  (∀ x, x ∈ ids → x ∈ all_texts.*1) →
  ∀ acc, NoDup (acc.*1 ++ (key_of <$> Spec.all_pairs ids)) →
    ∃ new, pairwise_outer h all_texts ids acc = Ok (acc ++ new) ∧
      Forall2 (λ p kv, kv.1 = key_of p ∧ overlap_of h all_texts p.1 p.2 = Ok kv.2)
        (Spec.all_pairs ids) new.
Proof.
  induction ids as [|id1 rest IH]; intros Hids acc Hnd.
  - exists []. by rewrite app_nil_r.
  - cbn [pairwise_outer Spec.all_pairs]. cbn [Spec.all_pairs] in Hnd.
    rewrite fmap_app, <- list_fmap_compose in Hnd.
    change (key_of ∘ (λ id2, (id1, id2))) with (pair_key id1) in Hnd.
    destruct (pairwise_inner_spec h all_texts id1 rest) with (acc := acc)
      as (new1 & -> & Hall1).
    { apply Hids. by left. }
    { intros x Hx. apply Hids. by right. }
    { rewrite app_assoc in Hnd. by apply NoDup_app in Hnd as (? & _ & _). }
    cbn [mbind res_bind].
    assert (new1.*1 = pair_key id1 <$> rest) as Hkeys1.
    { clear -Hall1. induction Hall1 as [|id2 kv rest new [Hk _] _ IH]; [done|].
      cbn. by rewrite Hk, IH. }
    destruct (IH (λ x Hx, Hids x (list_elem_of_further _ _ _ Hx)) (acc ++ new1))
      as (new2 & -> & Hall2).
    { by rewrite fmap_app, Hkeys1, <- app_assoc. }
    exists (new1 ++ new2). rewrite <- app_assoc. split; [done|].
    apply Forall2_app; [|done].
    apply Forall2_fmap_l. eapply Forall2_impl; [exact Hall1|]. done.
Qed.

Lemma create_links_spec (pairs : list (string * string)) :
  ∀ (items : list (string * overlap)) (acc : list Link.t),
    Forall2 (λ p kv, kv.1 = key_of p) pairs items →
    Forall (λ p, str_in "|" p.1 = false ∧ str_in "|" p.2 = false) pairs →
    create_links items acc = Ok (acc ++ omap (λ x, link_of x.1 x.2.2) (zip pairs items)).
Proof.
  induction pairs as [|[id1 id2] pairs IH]; intros items acc Hitems Hbar.
  - apply Forall2_nil_inv_l in Hitems as ->. cbn. by rewrite app_nil_r.
  - apply Forall2_cons_inv_l in Hitems as ([k o] & items' & Hk & Hitems & ->).
    apply Forall_cons in Hbar as [[Hb1 Hb2] Hbar]. cbn in Hk, Hb1, Hb2. subst k.
    cbn [create_links]. unfold key_of. cbn [fst snd].
    rewrite split_sep_pair_key by done. cbn [unpack2 mbind res_bind zip zip_with fst snd].
    change (omap ?f (?x :: ?l)) with (match f x with Some y => y :: omap f l | None => omap f l end).
    cbv beta. cbn [fst snd]. unfold link_of at 1. cbn [fst snd].
    destruct (num_gt_float (jaccard_similarity o) (float_lit 5 2)).
    + rewrite IH by done. by rewrite <- app_assoc.
    + by rewrite IH.
Qed.

(** X22. The network of a corpus whose text names are distinct and contain no
    bar. The all-pairs loop of [run_all_analyses] and [create_network_data]
    both return: the comparisons are stored under pairwise distinct keys,
    one for each pair of texts in the order of the loop, each key splits
    back into its two names, there is one node for each text, and the links
    are exactly the pairs whose Jaccard similarity exceeds [0.05], in the
    order of the loop; so every link joins two different nodes. *)
Theorem network_of_texts (h : hash_order) (all_texts : list (string * text_data)) :
  let text_ids := all_texts.*1 in
  NoDup text_ids → Forall (λ text_id, str_in "|" text_id = false) text_ids →
  ∃ comparisons net,
    pairwise_comparisons h all_texts = Ok comparisons ∧
    create_network_data all_texts comparisons = Ok net ∧
    comparisons.*1 = (λ p, pair_key p.1 p.2) <$> Spec.all_pairs text_ids ∧
    NoDup comparisons.*1 ∧
    Forall2 (λ p kv, split_sep kv.1 "|||" = [p.1; p.2] ∧
                     overlap_of h all_texts p.1 p.2 = Ok kv.2)
      (Spec.all_pairs text_ids) comparisons ∧
    Node.id <$> nodes net = text_ids ∧
    links net = omap (λ x, link_of x.1 x.2.2) (zip (Spec.all_pairs text_ids) comparisons) ∧
    (∀ l, l ∈ links net →
       Link.source l ∈ text_ids ∧ Link.target l ∈ text_ids ∧
       Link.source l ≠ Link.target l ∧
       num_gt_float (Link.weight l) (float_lit 5 2) = true).
Proof.
  intros text_ids Hnd Hbar.
  pose proof (pair_keys_NoDup text_ids Hnd Hbar) as Hkeys.
  destruct (pairwise_outer_spec h all_texts text_ids (λ x Hx, Hx) []) as (pc & Hpc & Hall);
    [done|].
  cbn [app] in Hpc.
  assert (Hpairs : Forall (λ p, str_in "|" p.1 = false ∧ str_in "|" p.2 = false)
                     (Spec.all_pairs text_ids)).
  { apply Forall_forall. intros [a b] [Ha Hb]%Matrix.all_pairs_elem.
    rewrite Forall_forall in Hbar. split; by apply Hbar. }
  assert (Hk : pc.*1 = key_of <$> Spec.all_pairs text_ids).
  { clear -Hall. induction Hall as [|p kv ps kvs [Hk _] _ IH]; [done|].
    cbn. by rewrite Hk, IH. }
  assert (Hlinks : create_links pc []
                   = Ok (omap (λ x, link_of x.1 x.2.2) (zip (Spec.all_pairs text_ids) pc))).
  { rewrite (create_links_spec (Spec.all_pairs text_ids)); [done| |done].
    eapply Forall2_impl; [exact Hall|]. by intros p kv [? _]. }
  exists pc. eexists. split; [exact Hpc|]. split.
  { unfold create_network_data. rewrite Hlinks. cbn [mbind res_bind]. done. }
  cbn [nodes links]. split; [exact Hk|]. split; [by rewrite Hk|]. split; [|split; [|split]].
  - assert (Hall' : Forall2 (λ p kv, (str_in "|" p.1 = false ∧ str_in "|" p.2 = false) ∧
                       kv.1 = key_of p ∧ overlap_of h all_texts p.1 p.2 = Ok kv.2)
                      (Spec.all_pairs text_ids) pc).
    { clear -Hall Hpairs. induction Hall as [|p kv ps kvs Hp _ IH]; [constructor|].
      apply Forall_cons in Hpairs as [Hb Hpairs]. constructor; [done|by apply IH]. }
    eapply Forall2_impl; [exact Hall'|]. intros p kv ([H1 H2] & -> & Ho).
    split; [|done]. by apply split_sep_pair_key.
  - unfold create_nodes. rewrite <- list_fmap_compose. cbn.
    fold text_ids. by rewrite list_fmap_id.
  - done.
  - intros l Hl. apply list_elem_of_omap in Hl as ([p kv] & Hin & Hlink).
    apply elem_of_zip_l in Hin as Hp. cbn in Hp, Hlink.
    unfold link_of in Hlink. destruct (num_gt_float _ _) eqn:Hgt; [|done].
    injection Hlink as <-. cbn. destruct p as [a b].
    destruct (Matrix.all_pairs_distinct text_ids Hnd) as (_ & Hne & _).
    destruct (Matrix.all_pairs_elem text_ids a b Hp) as [Ha Hb].
    split; [done|]. split; [done|]. split; [|done]. by apply (Hne a b).
Qed.

(** Two texts whose names have a space and no bar. *)
Lemma network_of_texts_witness :
  ∃ comparisons net,
    pairwise_comparisons Runs.forward
      [("Plato Republic", Inputs.doc ["form"; "good"]);
       ("Aristotle Ethics", Inputs.doc ["good"; "virtue"])] = Ok comparisons ∧
    create_network_data
      [("Plato Republic", Inputs.doc ["form"; "good"]);
       ("Aristotle Ethics", Inputs.doc ["good"; "virtue"])] comparisons = Ok net ∧
    comparisons.*1 = ["Plato Republic|||Aristotle Ethics"].
Proof.
  destruct (network_of_texts Runs.forward
              [("Plato Republic", Inputs.doc ["form"; "good"]);
               ("Aristotle Ethics", Inputs.doc ["good"; "virtue"])])
    as (comparisons & net & Hc & Hn & Hk & _).
  - apply (bool_decide_unpack _). vm_compute. exact I.
  - apply (bool_decide_unpack _). vm_compute. exact I.
  - exists comparisons, net. split; [exact Hc|]. split; [exact Hn|]. exact Hk.
Defined.

Lemma create_links_raises (items : list (string * overlap)) :
  Exists (λ kv, unpack2 (split_sep kv.1 "|||") = Raise ValueError) items →
  ∀ links, create_links items links = Raise ValueError.
Proof.
  induction items as [|[k o] items IH]; intros Hex links.
  - by apply Exists_nil in Hex.
  - cbn [create_links].
    destruct (unpack2 (split_sep k "|||")) as [ids|e] eqn:He.
    + cbn [mbind res_bind].
      apply Exists_cons in Hex as [Hex|Hex]; [cbn [fst] in Hex; congruence|].
      destruct (num_gt_float _ _); by apply IH.
    + by apply unpack2_raise in He as ->.
Qed.

Lemma pairwise_inner_keys (h : hash_order) (all_texts : list (string * text_data))
    (id1 : string) (rest : list string) :
  id1 ∈ all_texts.*1 → (∀ x, x ∈ rest → x ∈ all_texts.*1) →
  ∀ acc, ∃ pc, pairwise_inner h all_texts id1 rest acc = Ok pc ∧
    ∀ k, k ∈ pc.*1 ↔ k ∈ acc.*1 ∨ k ∈ pair_key id1 <$> rest.
Proof.
  intros H1. induction rest as [|id2 rest IH]; intros Hrest acc.
  - exists acc. split; [done|]. intros k. cbn. rewrite elem_of_nil. naive_solver.
  - cbn [pairwise_inner].
    destruct (overlap_of_returns h all_texts id1 id2 H1) as [o Ho]; [apply Hrest; by left|].
    unfold overlap_of in Ho.
    destruct (Analyze.dict_get all_texts id1) as [d1|]; [|done].
    destruct (Analyze.dict_get all_texts id2) as [d2|]; [|done].
    cbn [mbind res_bind] in Ho |- *. rewrite Ho. cbn [mbind res_bind].
    destruct (IH (λ x Hx, Hrest x (list_elem_of_further _ _ _ Hx))
                (dict_set acc (pair_key id1 id2) o)) as (pc & -> & Hkeys).
    exists pc. split; [done|]. intros k. rewrite Hkeys, dict_set_keys. cbn.
    destruct (decide (pair_key id1 id2 ∈ acc.*1)).
    + rewrite elem_of_cons. naive_solver.
    + rewrite elem_of_app, list_elem_of_singleton, elem_of_cons. naive_solver.
Qed.

Lemma pairwise_outer_keys (h : hash_order) (all_texts : list (string * text_data))
    (ids : list string) :
  (∀ x, x ∈ ids → x ∈ all_texts.*1) →
  ∀ acc, ∃ pc, pairwise_outer h all_texts ids acc = Ok pc ∧
    ∀ k, k ∈ pc.*1 ↔ k ∈ acc.*1 ∨ k ∈ key_of <$> Spec.all_pairs ids.
Proof.
  induction ids as [|id1 rest IH]; intros Hids acc.
  - exists acc. split; [done|]. intros k. cbn. rewrite elem_of_nil. naive_solver.
  - cbn [pairwise_outer Spec.all_pairs].
    destruct (pairwise_inner_keys h all_texts id1 rest) with (acc := acc)
      as (pc1 & -> & Hkeys1).
    { apply Hids. by left. }
    { intros x Hx. apply Hids. by right. }
    cbn [mbind res_bind].
    destruct (IH (λ x Hx, Hids x (list_elem_of_further _ _ _ Hx)) pc1) as (pc & -> & Hkeys).
    exists pc. split; [done|]. intros k.
    rewrite Hkeys, Hkeys1, fmap_app, elem_of_app, <- list_fmap_compose.
    change (key_of ∘ (λ id2, (id1, id2))) with (pair_key id1). naive_solver.
Qed.

(** X23. A text name that contains the separator [|||] breaks the network:
    in a corpus of at least two texts, the key of any pair with that text
    splits in three pieces or more, and [create_network_data] raises
    [ValueError] on the comparisons that the all-pairs loop has returned. *)
Theorem network_separator_in_name (h : hash_order) (all_texts : list (string * text_data))
    (bad other : string) :
  NoDup all_texts.*1 → bad ∈ all_texts.*1 → other ∈ all_texts.*1 → bad ≠ other →
  str_in "|||" bad = true →
  ∃ comparisons,
    pairwise_comparisons h all_texts = Ok comparisons ∧
    create_network_data all_texts comparisons = Raise ValueError.
Proof.
  intros Hnd Hbad Hother Hne Hsep.
  destruct (pairwise_outer_keys h all_texts all_texts.*1 (λ x Hx, Hx) []) as (pc & Hpc & Hkeys).
  exists pc. split; [exact Hpc|].
  unfold create_network_data. rewrite create_links_raises; [done|].
  destruct (Matrix.all_pairs_distinct all_texts.*1 Hnd) as (_ & _ & Hpair).
  assert (∃ p, p ∈ Spec.all_pairs all_texts.*1 ∧
               (str_in "|||" p.1 = true ∨ str_in "|||" p.2 = true)) as (p & Hp & Hin).
  { destruct (Hpair bad other Hbad Hother Hne) as [Hp|Hp].
    - exists (bad, other). split; [done|]. by left.
    - exists (other, bad). split; [done|]. by right. }
  assert (key_of p ∈ pc.*1) as Hk by (apply Hkeys; right; by apply list_elem_of_fmap_2).
  apply list_elem_of_fmap in Hk as ([k o] & Hk & Hko). cbn in Hk. subst k.
  apply Exists_exists. exists (key_of p, o). split; [done|].
  cbn [fst]. by apply pair_key_separator.
Qed.

(** A file [Plato|||Republic.txt] beside [Aristotle.txt]. *)
Lemma network_separator_in_name_witness :
  ∃ comparisons,
    pairwise_comparisons Runs.forward
      [("Plato|||Republic", Inputs.doc ["form"]); ("Aristotle", Inputs.doc ["cause"])]
      = Ok comparisons ∧
    create_network_data
      [("Plato|||Republic", Inputs.doc ["form"]); ("Aristotle", Inputs.doc ["cause"])]
      comparisons = Raise ValueError.
Proof.
  apply (network_separator_in_name Runs.forward
           [("Plato|||Republic", Inputs.doc ["form"]); ("Aristotle", Inputs.doc ["cause"])]
           "Plato|||Republic" "Aristotle").
  - apply (bool_decide_unpack _). vm_compute. exact I.
  - apply (bool_decide_unpack _). vm_compute. exact I.
  - apply (bool_decide_unpack _). vm_compute. exact I.
  - discriminate.
  - vm_compute. reflexivity.
Defined.

Section load.
Context `{Nltk}.

Lemma create_nodes_cons (text_id : string) (l : list string) :
  create_nodes (text_id :: l)
  = {| Node.id := text_id;
       Node.author := if str_in "Plato" text_id then "Plato" else "Aristotle";
       Node.label := text_id |} :: create_nodes l.
Proof. reflexivity. Qed.

(** X24. The author of a node against the author groups. The nodes whose
    author is [Plato] are the texts of [plato_texts], in the same order; all
    other nodes have the author [Aristotle], also the texts that are in
    neither group, so that the nodes of Aristotle are [Metadata.text_count -
    Metadata.plato_count] in number, which is [Metadata.aristotle_count] or more. *)
Theorem node_authors (txt_files : list (string * string)) :
  let c := load_texts txt_files in
  let nodes := create_nodes (all_texts c).*1 in
  let meta := metadata_of c in
  Node.id <$> nodes = (all_texts c).*1 ∧
  Node.id <$> filter (λ n, Node.author n = "Plato") nodes = Metadata.texts_plato meta ∧
  (∀ n, n ∈ nodes → Node.author n = "Plato" ∨ Node.author n = "Aristotle") ∧
  (∀ n, n ∈ nodes →
     Node.id n ∉ Metadata.texts_plato meta → Node.id n ∉ Metadata.texts_aristotle meta →
     Node.author n = "Aristotle") ∧
  len (filter (λ n, Node.author n = "Aristotle") nodes)
  = Metadata.text_count meta - Metadata.plato_count meta ∧
  Metadata.aristotle_count meta ≤ Metadata.text_count meta - Metadata.plato_count meta.
Proof.
  intros c nodes meta. subst nodes.
  destruct (load_texts_groups txt_files) as (Hp & Ha & Hnd & _ & _). fold c in Hp, Ha, Hnd.
  unfold meta, metadata_of.
  cbn [Metadata.texts_plato Metadata.texts_aristotle Metadata.text_count
       Metadata.plato_count Metadata.aristotle_count].
  set (ids := (all_texts c).*1) in *.
  assert (Hauthor : ∀ text_id,
            Node.author {| Node.id := text_id;
                      Node.author := if str_in "Plato" text_id then "Plato" else "Aristotle";
                      Node.label := text_id |} = "Plato" ↔ is_plato text_id).
  { intros text_id. unfold is_plato. cbn. by destruct (str_in "Plato" text_id). }
  assert (Hplato_nodes : ∀ l, Node.id <$> filter (λ n, Node.author n = "Plato") (create_nodes l)
                              = filter is_plato l).
  { induction l as [|x l IH]; [done|]. rewrite create_nodes_cons, !filter_cons.
    destruct (decide (is_plato x)) as [Hx|Hx].
    - rewrite decide_True by (by apply Hauthor). rewrite fmap_cons. cbn [Node.id].
      by rewrite IH.
    - rewrite decide_False by (by rewrite Hauthor). done. }
  assert (Haristotle_nodes : ∀ l, length (filter (λ n, Node.author n = "Aristotle") (create_nodes l))
                                  = length (filter (λ x, ¬ is_plato x) l)).
  { induction l as [|x l IH]; [done|]. rewrite create_nodes_cons, !filter_cons.
    cbn [Node.author]. destruct (decide (is_plato x)) as [Hx|Hx].
    - unfold is_plato in Hx. rewrite Hx. rewrite decide_False by done.
      rewrite decide_False by (intros Hn; by apply Hn). done.
    - unfold is_plato in Hx. apply not_true_is_false in Hx. rewrite Hx.
      rewrite decide_True by done.
      rewrite decide_True by (unfold is_plato; congruence). cbn [length]. by rewrite IH. }
  assert (Hpk : (plato_texts c).*1 = filter is_plato ids).
  { rewrite Hp. apply filter_fmap_fst. }
  assert (Hak : (aristotle_texts c).*1 = filter is_aristotle ids).
  { rewrite Ha. apply filter_fmap_fst. }
  split; [|split; [|split; [|split; [|split]]]].
  - unfold create_nodes. rewrite <- list_fmap_compose. apply list_fmap_id.
  - rewrite Hpk. apply Hplato_nodes.
  - intros n Hn. apply list_elem_of_fmap in Hn as (x & -> & _). cbn.
    destruct (str_in "Plato" x); [by left|by right].
  - intros n Hn Hnp _. apply list_elem_of_fmap in Hn as (x & -> & Hx). cbn in *.
    destruct (str_in "Plato" x) eqn:Hpx; [|done].
    destruct Hnp. rewrite Hpk. by apply list_elem_of_filter.
  - unfold len. rewrite Haristotle_nodes.
    pose proof (length_filter_split is_plato ids) as Hsplit.
    assert (length (plato_texts c) = length (filter is_plato ids)) as ->.
    { by rewrite <- Hpk, length_fmap. }
    assert (length (all_texts c) = length ids) as -> by (unfold ids; by rewrite length_fmap).
    lia.
  - unfold len.
    pose proof (length_filter_split is_plato ids) as Hsplit.
    assert (length (plato_texts c) = length (filter is_plato ids)) as ->.
    { by rewrite <- Hpk, length_fmap. }
    assert (length (aristotle_texts c) = length (filter is_aristotle ids)) as ->.
    { by rewrite <- Hak, length_fmap. }
    assert (length (all_texts c) = length ids) as -> by (unfold ids; by rewrite length_fmap).
    assert (length (filter is_aristotle ids) ≤ length (filter (λ x, ¬ is_plato x) ids))%nat.
    { apply sublist_length. clear. induction ids as [|x l IH]; [done|].
      rewrite !filter_cons. destruct (decide (is_aristotle x)) as [[Hx _]|].
      - rewrite decide_True; [by constructor|]. unfold is_plato. congruence.
      - destruct (decide (¬ is_plato x)); [by constructor|done]. }
    lia.
Qed.

End load.

End NetworkFacts.
